(** * VSCucumberAutoComplete: the step handler of gserver/src/steps.handler.ts

    A shallow embedding of [StepsHandler] (the canonical implementation in
    gserver/src/steps.handler.ts and its JSON-capable duplicate) together with
    the part of the JavaScript runtime it runs on: regular expressions
    ([new RegExp], [test], [exec]) and the [String.prototype] methods
    [match], [replace], [split] and [search].

    Strings are sequences of code units; the development covers the code
    units below 256 (one [ascii] each). *)

From Stdlib Require Import Ascii String List Arith Lia Bool.
From stdpp Require Import base option list strings gmap.

(** ** Code units *)

Module Chr.

Definition code (c : ascii) : nat := nat_of_ascii c.

Definition between (lo hi : nat) (c : ascii) : bool :=
  (lo <=? code c) && (code c <=? hi).

Definition is_digit (c : ascii) : bool := between 48 57 c.
Definition is_octal (c : ascii) : bool := between 48 55 c.
Definition is_lower (c : ascii) : bool := between 97 122 c.
Definition is_upper (c : ascii) : bool := between 65 90 c.
Definition is_alpha (c : ascii) : bool := is_lower c || is_upper c.
Definition is_hex (c : ascii) : bool :=
  is_digit c || between 97 102 c || between 65 70 c.

(** [\w]: the basic Latin letters, the digits and the underscore. *)
Definition is_word (c : ascii) : bool :=
  is_alpha c || is_digit c || (code c =? 95).

(** [\s]: WhiteSpace and LineTerminator; below 256 these are TAB, LF, VT, FF,
    CR, SP and NBSP. *)
Definition is_space (c : ascii) : bool :=
  between 9 13 c || (code c =? 32) || (code c =? 160).

(** LineTerminator, which [.] does not match: LF and CR below 256. *)
Definition is_line_terminator (c : ascii) : bool :=
  (code c =? 10) || (code c =? 13).

Definition digit_val (c : ascii) : nat := code c - 48.

Definition hex_val (c : ascii) : nat :=
  if is_digit c then code c - 48
  else if between 97 102 c then code c - 87
  else code c - 55.

(** Canonicalize of the specification for an ignore-case pattern without the
    unicode flag: the code unit of [toUpperCase] when that is a single code
    unit.  Below 256: the basic Latin and the Latin-1 lower-case letters
    (sharp s and y with diaeresis stay as they are, their upper case is not a
    code unit below 256). *)
Definition canonicalize (ic : bool) (c : ascii) : ascii :=
  if ic then
    if is_lower c then ascii_of_nat (code c - 32)
    else if between 224 254 c && negb (code c =? 247) then ascii_of_nat (code c - 32)
    else c
  else c.

Definition eqb (ic : bool) (a b : ascii) : bool :=
  Ascii.eqb (canonicalize ic a) (canonicalize ic b).

End Chr.

(** [isc c lit]: the code unit [c] is the character written [lit]. *)
Definition chr (c : string) : ascii :=
  match c with String a _ => a | EmptyString => Ascii.zero end.

Definition isc (c : ascii) (lit : string) : bool := Ascii.eqb c (chr lit).

(** ** Regular expressions: syntax

    The pattern grammar of ECMAScript without the unicode flag, with the
    legacy extensions every browser and Node.js implement (Annex B): a lone
    closing bracket or brace is a literal, an opening brace that starts no
    quantifier is a literal, a decimal escape above the number of groups is
    an octal or identity escape. *)

Module RegExp.

Inductive cset : Type := Digit | Space | Word.

Inductive class_item : Type :=
| CChar (c : ascii)
| CRange (lo hi : ascii)
| CSet (neg : bool) (k : cset).

Inductive node : Type :=
| NEmpty
| NChar (c : ascii)
| NAny
| NClass (neg : bool) (items : list class_item)
| NSeq (a b : node)
| NAlt (a b : node)
| NRepeat (min : nat) (max : option nat) (greedy : bool) (body : node)
| NGroup (idx : nat) (body : node)
| NBackref (idx : nat)
| NBol
| NEol
| NWordB (neg : bool)
| NLook (neg : bool) (body : node).

(** The outcome of reading a pattern: a tree, the SyntaxError that
    [new RegExp] throws, or a construct this development does not cover
    (named groups, lookbehind, escapes above code unit 255). *)
Inductive presult (A : Type) : Type :=
| POk (a : A)
| PSyntaxError
| PUnsupported.
Arguments POk {A} a.
Arguments PSyntaxError {A}.
Arguments PUnsupported {A}.

Definition pbind {A B} (x : presult A) (f : A -> presult B) : presult B :=
  match x with
  | POk a => f a
  | PSyntaxError => PSyntaxError
  | PUnsupported => PUnsupported
  end.

#[global] Instance presult_bind : MBind presult := λ A B f x, pbind x f.
#[global] Instance presult_ret : MRet presult := @POk.

(** NcapturingParens: the left parentheses of capturing groups, outside
    character classes and escapes. *)
Fixpoint count_groups (in_class : bool) (s : list ascii) : nat :=
  match s with
  | [] => 0
  | c :: r =>
    if isc c "\" then match r with _ :: r' => count_groups in_class r' | [] => 0 end
    else if in_class then count_groups (negb (isc c "]")) r
    else if isc c "[" then count_groups true r
    else if isc c "(" then
      match r with
      | q :: _ => (if isc q "?" then 0 else 1) + count_groups false r
      | [] => 1
      end
    else count_groups false r
  end.

(** Decimal digits at the head of [s]: their value and what follows. *)
Fixpoint read_decimal (acc : nat) (s : list ascii) : nat * list ascii :=
  match s with
  | c :: r => if Chr.is_digit c then read_decimal (10 * acc + Chr.digit_val c) r else (acc, s)
  | [] => (acc, s)
  end.

(** LegacyOctalEscapeSequence, [d] being its first digit: at most three
    digits and at most 0o377. *)
Definition read_octal (d : ascii) (r : list ascii) : ascii * list ascii :=
  let v1 := Chr.digit_val d in
  match r with
  | d2 :: r2 =>
    if Chr.is_octal d2 then
      let v2 := 8 * v1 + Chr.digit_val d2 in
      if v1 <=? 3 then
        match r2 with
        | d3 :: r3 =>
          if Chr.is_octal d3 then (ascii_of_nat (8 * v2 + Chr.digit_val d3), r3)
          else (ascii_of_nat v2, r2)
        | [] => (ascii_of_nat v2, r2)
        end
      else (ascii_of_nat v2, r2)
    else (ascii_of_nat v1, r)
  | [] => (ascii_of_nat v1, r)
  end.

(** CharacterEscape, [c] being the character after the backslash: control
    escapes, [\cX], octal, [\xHH], [\uHHHH] and the identity escape. *)
Definition read_char_escape (c : ascii) (r : list ascii) : presult (ascii * list ascii) :=
  if isc c "f" then POk (ascii_of_nat 12, r)
  else if isc c "n" then POk (ascii_of_nat 10, r)
  else if isc c "r" then POk (ascii_of_nat 13, r)
  else if isc c "t" then POk (ascii_of_nat 9, r)
  else if isc c "v" then POk (ascii_of_nat 11, r)
  else if Chr.is_octal c then POk (read_octal c r)
  else if isc c "x" then
    match r with
    | h1 :: h2 :: r' =>
      if Chr.is_hex h1 && Chr.is_hex h2
      then POk (ascii_of_nat (16 * Chr.hex_val h1 + Chr.hex_val h2), r')
      else POk (c, r)
    | _ => POk (c, r)
    end
  else if isc c "u" then
    match r with
    | h1 :: h2 :: h3 :: h4 :: r' =>
      if Chr.is_hex h1 && Chr.is_hex h2 && Chr.is_hex h3 && Chr.is_hex h4 then
        if (Chr.hex_val h1 =? 0) && (Chr.hex_val h2 =? 0)
        then POk (ascii_of_nat (16 * Chr.hex_val h3 + Chr.hex_val h4), r')
        else PUnsupported
      else POk (c, r)
    | _ => POk (c, r)
    end
  else POk (c, r).

Definition class_set (c : ascii) : option class_item :=
  if isc c "d" then Some (CSet false Digit)
  else if isc c "D" then Some (CSet true Digit)
  else if isc c "s" then Some (CSet false Space)
  else if isc c "S" then Some (CSet true Space)
  else if isc c "w" then Some (CSet false Word)
  else if isc c "W" then Some (CSet true Word)
  else None.

(** ClassAtom at the head of a non-empty [s] that does not start with the
    closing bracket. *)
Definition read_class_atom (s : list ascii) : presult (class_item * list ascii) :=
  match s with
  | [] => PSyntaxError
  | c :: r =>
    if isc c "\" then
      match r with
      | [] => PSyntaxError
      | e :: r' =>
        match class_set e with
        | Some it => POk (it, r')
        | None =>
          if isc e "b" then POk (CChar (ascii_of_nat 8), r')
          else if isc e "c" then
            match r' with
            | l :: r'' =>
              if Chr.is_alpha l || Chr.is_digit l || isc l "_"
              then POk (CChar (ascii_of_nat (Chr.code l mod 32)), r'')
              else POk (CChar c, r)
            | [] => POk (CChar c, r)
            end
          else
            '(a, r'') ← read_char_escape e r'; POk (CChar a, r'')
        end
      end
    else POk (CChar c, r)
  end.

(** ClassRanges up to and including the closing bracket. *)
Fixpoint read_class (fuel : nat) (acc : list class_item) (s : list ascii)
  : presult (list class_item * list ascii) :=
  match fuel with
  | 0 => PSyntaxError
  | S fuel' =>
    match s with
    | [] => PSyntaxError
    | c :: r =>
      if isc c "]" then POk (rev acc, r)
      else
        '(a, r1) ← read_class_atom s;
        match r1 with
        | d :: r2 =>
          if isc d "-" then
            match r2 with
            | [] => PSyntaxError
            | e :: _ =>
              if isc e "]" then read_class fuel' (a :: acc) r1
              else
                '(b, r3) ← read_class_atom r2;
                match a, b with
                | CChar lo, CChar hi =>
                  if Chr.code lo <=? Chr.code hi
                  then read_class fuel' (CRange lo hi :: acc) r3
                  else PSyntaxError
                | _, _ => read_class fuel' (b :: CChar d :: a :: acc) r3
                end
            end
          else read_class fuel' (a :: acc) r1
        | [] => PSyntaxError
        end
    end
  end.

(** A braced quantifier [{n}], [{n,}] or [{n,m}] at the head of [s] (after
    the opening brace): its bounds and what follows. *)
Definition read_braces (s : list ascii) : option (nat * option nat * list ascii) :=
  match s with
  | c :: _ =>
    if Chr.is_digit c then
      let '(n, r) := read_decimal 0 s in
      match r with
      | x :: r1 =>
        if isc x "}" then Some (n, Some n, r1)
        else if isc x "," then
          match r1 with
          | y :: r2 =>
            if isc y "}" then Some (n, None, r2)
            else if Chr.is_digit y then
              let '(k, r3) := read_decimal 0 r1 in
              match r3 with
              | z :: r4 => if isc z "}" then Some (n, Some k, r4) else None
              | [] => None
              end
            else None
          | [] => None
          end
        else None
      | [] => None
      end
    else None
  | [] => None
  end.

(** The optional Quantifier after an atom. *)
Definition read_quantifier (s : list ascii)
  : presult (option (nat * option nat * bool) * list ascii) :=
  let lazy (mn : nat) (mx : option nat) (r : list ascii) :=
    match r with
    | q :: r' => if isc q "?" then POk (Some (mn, mx, false), r') else POk (Some (mn, mx, true), r)
    | [] => POk (Some (mn, mx, true), r)
    end in
  match s with
  | c :: r =>
    if isc c "*" then lazy 0 None r
    else if isc c "+" then lazy 1 None r
    else if isc c "?" then lazy 0 (Some 1) r
    else if isc c "{" then
      match read_braces r with
      | Some (mn, Some mx, r') => if mx <? mn then PSyntaxError else lazy mn (Some mx) r'
      | Some (mn, None, r') => lazy mn None r'
      | None => POk (None, s)
      end
    else POk (None, s)
  | [] => POk (None, s)
  end.

Definition quantified (a : node) (q : option (nat * option nat * bool)) : node :=
  match q with
  | Some (mn, mx, g) => NRepeat mn mx g a
  | None => a
  end.

Definition class_of_set (it : class_item) : node := NClass false [it].

(** Disjunction, Alternative and Term.  [total] is NcapturingParens of the
    whole pattern, [gi] the number of groups opened so far. *)
Fixpoint read_disjunction (fuel total gi : nat) (s : list ascii)
  : presult (node * nat * list ascii) :=
  match fuel with
  | 0 => PSyntaxError
  | S fuel' =>
    '(a, gi1, r1) ← read_alternative fuel' total gi s;
    match r1 with
    | c :: r2 =>
      if isc c "|" then
        '(b, gi2, r3) ← read_disjunction fuel' total gi1 r2;
        POk (NAlt a b, gi2, r3)
      else POk (a, gi1, r1)
    | [] => POk (a, gi1, r1)
    end
  end

with read_alternative (fuel total gi : nat) (s : list ascii)
  : presult (node * nat * list ascii) :=
  match fuel with
  | 0 => PSyntaxError
  | S fuel' =>
    match s with
    | [] => POk (NEmpty, gi, s)
    | c :: _ =>
      if isc c "|" || isc c ")" then POk (NEmpty, gi, s)
      else
        '(t, gi1, r1) ← read_term fuel' total gi s;
        '(a, gi2, r2) ← read_alternative fuel' total gi1 r1;
        POk (NSeq t a, gi2, r2)
    end
  end

with read_term (fuel total gi : nat) (s : list ascii)
  : presult (node * nat * list ascii) :=
  match fuel with
  | 0 => PSyntaxError
  | S fuel' =>
    let atom (a : node) (gi' : nat) (r : list ascii) :=
      '(q, r') ← read_quantifier r; POk (quantified a q, gi', r') in
    let group (mk : node -> node) (gi' : nat) (r : list ascii)
              (k : node -> nat -> list ascii -> presult (node * nat * list ascii)) :=
      '(d, gi2, r1) ← read_disjunction fuel' total gi' r;
      match r1 with
      | c :: r2 => if isc c ")" then k (mk d) gi2 r2 else PSyntaxError
      | [] => PSyntaxError
      end in
    match s with
    | [] => PSyntaxError
    | c :: r =>
      if isc c "^" then POk (NBol, gi, r)
      else if isc c "$" then POk (NEol, gi, r)
      else if isc c "(" then
        match r with
        | q :: r1 =>
          if isc q "?" then
            match r1 with
            | x :: r2 =>
              if isc x ":" then group (fun d => d) gi r2 atom
              else if isc x "=" then group (NLook false) gi r2 atom
              else if isc x "!" then group (NLook true) gi r2 atom
              else if isc x "<" then PUnsupported
              else PSyntaxError
            | [] => PSyntaxError
            end
          else group (NGroup (S gi)) (S gi) r atom
        | [] => PSyntaxError
        end
      else if isc c ")" || isc c "*" || isc c "+" || isc c "?" || isc c "|" then PSyntaxError
      else if isc c "{" then
        match read_braces r with
        | Some _ => PSyntaxError
        | None => atom (NChar c) gi r
        end
      else if isc c "." then atom NAny gi r
      else if isc c "[" then
        match r with
        | x :: r1 =>
          if isc x "^" then
            '(items, r2) ← read_class (S (length r1)) [] r1; atom (NClass true items) gi r2
          else
            '(items, r2) ← read_class (S (length r)) [] r; atom (NClass false items) gi r2
        | [] => PSyntaxError
        end
      else if isc c "\" then
        match r with
        | [] => PSyntaxError
        | e :: r1 =>
          if isc e "b" then POk (NWordB false, gi, r1)
          else if isc e "B" then POk (NWordB true, gi, r1)
          else
            match class_set e with
            | Some it => atom (class_of_set it) gi r1
            | None =>
              if Chr.is_digit e && negb (isc e "0") then
                let '(n, r2) := read_decimal 0 r in
                if n <=? total then atom (NBackref n) gi r2
                else if Chr.is_octal e then
                  let '(a, r3) := read_octal e r1 in atom (NChar a) gi r3
                else atom (NChar e) gi r1
              else if isc e "c" then
                match r1 with
                | l :: r2 =>
                  if Chr.is_alpha l
                  then atom (NChar (ascii_of_nat (Chr.code l mod 32))) gi r2
                  else atom (NChar c) gi r
                | [] => atom (NChar c) gi r
                end
              else
                '(a, r2) ← read_char_escape e r1; atom (NChar a) gi r2
            end
        end
      else atom (NChar c) gi r
    end
  end.

(** The Pattern: a Disjunction that uses up the whole source. *)
Definition parse (src : list ascii) : presult (node * nat) :=
  let total := count_groups false src in
  '(d, gi, r) ← read_disjunction (3 * length src + 3) total 0 src;
  match r with
  | [] => POk (d, gi)
  | _ => PSyntaxError
  end.

(** ** Regular expressions: matching

    The backtracking matcher of the specification (the semantics of
    patterns, 22.2.2), in continuation-passing style: a matcher takes the
    continuation that matches the rest of the pattern and a state, and
    returns the final state or fails. *)

Record mstate : Type := MState {
  ms_pos : nat;                          (* endIndex *)
  ms_prev : option ascii;                (* the code unit before endIndex *)
  ms_rest : list ascii;                  (* the input from endIndex on *)
  ms_caps : list (option (list ascii))   (* captures, by group number *)
}.

Definition cont : Type := mstate -> option mstate.

Definition advance (x : mstate) (c : ascii) (r : list ascii) : mstate :=
  MState (S (ms_pos x)) (Some c) r (ms_caps x).

Definition set_cap (y : mstate) (i : nat) (v : option (list ascii)) : mstate :=
  MState (ms_pos y) (ms_prev y) (ms_rest y) (<[i := v]> (ms_caps y)).

Definition with_caps (x : mstate) (caps : list (option (list ascii))) : mstate :=
  MState (ms_pos x) (ms_prev x) (ms_rest x) caps.

Definition in_cset (k : cset) (c : ascii) : bool :=
  match k with
  | Digit => Chr.is_digit c
  | Space => Chr.is_space c
  | Word => Chr.is_word c
  end.

Definition in_item (ic : bool) (c : ascii) (it : class_item) : bool :=
  match it with
  | CChar a => Chr.eqb ic a c
  | CRange lo hi =>
    if ic then
      existsb (fun n => Chr.eqb ic (ascii_of_nat n) c)
              (seq (Chr.code lo) (S (Chr.code hi) - Chr.code lo))
    else Chr.between (Chr.code lo) (Chr.code hi) c
  | CSet neg k => xorb neg (in_cset k c)
  end.

Definition in_class (ic neg : bool) (items : list class_item) (c : ascii) : bool :=
  xorb neg (existsb (in_item ic c) items).

(** The group numbers inside [r], whose captures a new iteration of a
    quantifier around [r] clears. *)
Fixpoint groups_of (r : node) : list nat :=
  match r with
  | NSeq a b | NAlt a b => groups_of a ++ groups_of b
  | NRepeat _ _ _ a | NLook _ a => groups_of a
  | NGroup i a => i :: groups_of a
  | _ => []
  end.

Definition clear_caps (gs : list nat) (x : mstate) : mstate :=
  with_caps x (foldr (fun i caps => <[i := None]> caps) (ms_caps x) gs).

(** RepeatMatcher.  [mb] matches the quantified atom.  An iteration past the
    minimum that consumes nothing fails, so [min] plus the length of the
    remaining input bounds the number of iterations; [fuel] is above it. *)
Fixpoint repeat_matcher (mb : cont -> cont) (gs : list nat) (fuel : nat)
    (mn : nat) (mx : option nat) (greedy : bool) (k : cont) (x : mstate)
  : option mstate :=
  match fuel with
  | 0 => None
  | S fuel' =>
    match mx with
    | Some 0 => k x
    | _ =>
      let d : cont := fun y =>
        if (mn =? 0) && (ms_pos y =? ms_pos x) then None
        else repeat_matcher mb gs fuel' (pred mn) (pred <$> mx) greedy k y in
      let xr := clear_caps gs x in
      if negb (mn =? 0) then mb d xr
      else if greedy then
        match mb d xr with
        | Some z => Some z
        | None => k x
        end
      else
        match k x with
        | Some z => Some z
        | None => mb d xr
        end
    end
  end.

(** [s] at the head of [r], up to case when [ic] is set: what follows it. *)
Fixpoint strip_prefix (ic : bool) (s r : list ascii) : option (list ascii) :=
  match s, r with
  | [], _ => Some r
  | a :: s', b :: r' => if Chr.eqb ic a b then strip_prefix ic s' r' else None
  | _ :: _, [] => None
  end.

Definition is_word_at (o : option ascii) : bool :=
  match o with
  | Some c => Chr.is_word c
  | None => false
  end.

Fixpoint matcher (ic : bool) (r : node) (k : cont) (x : mstate) {struct r}
  : option mstate :=
  match r with
  | NEmpty => k x
  | NChar c =>
    match ms_rest x with
    | a :: t => if Chr.eqb ic c a then k (advance x a t) else None
    | [] => None
    end
  | NAny =>
    match ms_rest x with
    | a :: t => if Chr.is_line_terminator a then None else k (advance x a t)
    | [] => None
    end
  | NClass neg items =>
    match ms_rest x with
    | a :: t => if in_class ic neg items a then k (advance x a t) else None
    | [] => None
    end
  | NSeq a b => matcher ic a (matcher ic b k) x
  | NAlt a b =>
    match matcher ic a k x with
    | Some z => Some z
    | None => matcher ic b k x
    end
  | NRepeat mn mx g a =>
    repeat_matcher (matcher ic a) (groups_of a)
                   (S (mn + length (ms_rest x))) mn mx g k x
  | NGroup i a =>
    matcher ic a
      (fun y => k (set_cap y i (Some (take (ms_pos y - ms_pos x) (ms_rest x))))) x
  | NBackref i =>
    match ms_caps x !! i with
    | Some (Some s) =>
      match strip_prefix ic s (ms_rest x) with
      | Some t =>
        k (MState (ms_pos x + length s) (match last s with Some c => Some c | None => ms_prev x end)
                  t (ms_caps x))
      | None => None
      end
    | _ => k x
    end
  | NBol => if ms_pos x =? 0 then k x else None
  | NEol => match ms_rest x with [] => k x | _ :: _ => None end
  | NWordB neg =>
    let a := is_word_at (ms_prev x) in
    let b := is_word_at (head (ms_rest x)) in
    if xorb neg (xorb a b) then k x else None
  | NLook neg a =>
    match matcher ic a Some x with
    | Some y => if neg then None else k (with_caps x (ms_caps y))
    | None => if neg then k x else None
    end
  end.

(** ** RegExp objects and the methods that take them *)

Record t : Type := Make {
  source : string;
  ignoreCase : bool;
  tree : node;
  ngroups : nat
}.

(** [new RegExp(source)], and with the [i] flag when [ic] is set.  [None] is
    the SyntaxError the constructor throws. *)
Definition create (ic : bool) (src : string) : option t :=
  match parse (list_ascii_of_string src) with
  | POk (d, n) => Some (Make src ic d n)
  | _ => None
  end.

(** A match: where it starts and ends, the matched text and the captures
    (group 1 first; [None] is [undefined]). *)
Record mresult : Type := MResult {
  m_index : nat;
  m_end : nat;
  m_text : string;
  m_groups : list (option string)
}.

(** The match that starts exactly at the position of [rest]. *)
Definition match_here (re : t) (pos : nat) (prev : option ascii) (rest : list ascii)
  : option mresult :=
  let x := MState pos prev rest (replicate (S (ngroups re)) None) in
  match matcher (ignoreCase re) (tree re) Some x with
  | Some y =>
    Some (MResult pos (ms_pos y)
            (string_of_list_ascii (take (ms_pos y - pos) rest))
            (option_map string_of_list_ascii <$> drop 1 (ms_caps y)))
  | None => None
  end.

(** RegExpBuiltinExec from [lastIndex = pos]: the first position, from left
    to right, at which the pattern matches. *)
Fixpoint exec_from (re : t) (pos : nat) (prev : option ascii) (rest : list ascii)
  : option mresult :=
  match match_here re pos prev rest with
  | Some r => Some r
  | None =>
    match rest with
    | c :: rest' => exec_from re (S pos) (Some c) rest'
    | [] => None
    end
  end.

Definition exec (re : t) (s : string) : option mresult :=
  exec_from re 0 None (list_ascii_of_string s).

Definition test (re : t) (s : string) : bool := bool_decide (is_Some (exec re s)).

End RegExp.

(** ** The methods of [String.prototype] the handler calls *)

Module Str.

Import RegExp.

Definition chars (s : string) : list ascii := list_ascii_of_string s.
Definition str (l : list ascii) : string := string_of_list_ascii l.

Definition slice (a b : nat) (s : string) : string := str (take (b - a) (drop a (chars s))).

(** RegExpBuiltinExec with [lastIndex = p]. *)
Definition exec_at (re : RegExp.t) (s : string) (p : nat) : option mresult :=
  let l := chars s in
  if p <=? length l
  then exec_from re p (match p with 0 => None | S q => l !! q end) (drop p l)
  else None.

(** The successive matches of a global pattern: after a match [lastIndex]
    is its end, one further when the match is empty. *)
Fixpoint exec_all (fuel : nat) (re : RegExp.t) (s : string) (p : nat) : list mresult :=
  match fuel with
  | 0 => []
  | S fuel' =>
    match exec_at re s p with
    | Some r =>
      r :: exec_all fuel' re s (if m_end r =? m_index r then S (m_end r) else m_end r)
    | None => []
    end
  end.

Definition matches (global : bool) (re : RegExp.t) (s : string) : list mresult :=
  if global then exec_all (String.length s + 2) re s 0
  else match exec re s with Some r => [r] | None => [] end.

(** [s.match(re)] for a pattern without the [g] flag: the match array, index
    0 being [m_text] and index [i] the capture of group [i]; [None] is
    [null]. *)
Definition match_ (re : RegExp.t) (s : string) : option mresult := exec re s.

(** [s.match(re)] for a pattern with the [g] flag: the matched texts, [null]
    when there is none. *)
Definition match_g (re : RegExp.t) (s : string) : option (list string) :=
  match matches true re s with
  | [] => None
  | ms => Some (m_text <$> ms)
  end.

(** [s.search(re)]: the index of the first match ([None] is -1). *)
Definition search (re : RegExp.t) (s : string) : option nat := m_index <$> exec re s.

(** GetSubstitution: the replacement text for one match, [$$], [$&], the
    text before and after the match and [$n], [$nn] expanded.  [tpl] is the
    rest of the replacement template. *)
Fixpoint substitution (fuel : nat) (r : mresult) (s : list ascii) (tpl : list ascii)
  : list ascii :=
  match fuel with
  | 0 => []
  | S fuel' =>
    match tpl with
    | [] => []
    | c :: t =>
      if isc c "$" then
        match t with
        | d :: t' =>
          if isc d "$" then d :: substitution fuel' r s t'
          else if isc d "&" then chars (m_text r) ++ substitution fuel' r s t'
          else if isc d "`" then take (m_index r) s ++ substitution fuel' r s t'
          else if isc d "'" then drop (m_end r) s ++ substitution fuel' r s t'
          else if Chr.is_digit d then
            let m := length (m_groups r) in
            let one := Chr.digit_val d in
            let cap (i : nat) := chars (default ""%string (mjoin (m_groups r !! (i - 1)))) in
            let single :=
              if (1 <=? one) && (one <=? m) then cap one ++ substitution fuel' r s t'
              else c :: d :: substitution fuel' r s t' in
            match t' with
            | e :: t'' =>
              if Chr.is_digit e then
                let two := 10 * one + Chr.digit_val e in
                if (1 <=? two) && (two <=? m) then cap two ++ substitution fuel' r s t''
                else single
              else single
            | [] => single
            end
          else c :: substitution fuel' r s t
        | [] => [c]
        end
      else c :: substitution fuel' r s t
    end
  end.

(** The text of [s] with each match of [ms] (in order, not overlapping)
    replaced by what [f] gives for it; [p] is the position reached. *)
Fixpoint splice (f : mresult -> list ascii) (s : list ascii) (p : nat) (ms : list mresult)
  : list ascii :=
  match ms with
  | [] => drop p s
  | r :: ms' => take (m_index r - p) (drop p s) ++ f r ++ splice f s (m_end r) ms'
  end.

(** [s.replace(re, fn)]. *)
Definition replace_fn (global : bool) (re : RegExp.t) (fn : mresult -> string) (s : string)
  : string :=
  str (splice (fun r => chars (fn r)) (chars s) 0 (matches global re s)).

(** [s.replace(re, template)]. *)
Definition replace (global : bool) (re : RegExp.t) (tpl : string) (s : string) : string :=
  str (splice (fun r => substitution (S (String.length tpl)) r (chars s) (chars tpl))
              (chars s) 0 (matches global re s)).

(** The first occurrence of [pat] in [s], at or after position [p]. *)
Fixpoint index_from (pat : list ascii) (p : nat) (s : list ascii) : option nat :=
  match strip_prefix false pat s with
  | Some _ => Some p
  | None =>
    match s with
    | _ :: s' => index_from pat (S p) s'
    | [] => None
    end
  end.

(** [s.replace(pat, template)] for a string [pat]: the first occurrence
    only, and no captures. *)
Definition replace_str (pat tpl : string) (s : string) : string :=
  match index_from (chars pat) 0 (chars s) with
  | Some i =>
    let r := MResult i (i + String.length pat) pat [] in
    str (splice (fun r => substitution (S (String.length tpl)) r (chars s) (chars tpl))
                (chars s) 0 [r])
  | None => s
  end.

(** [s.split(sep)] for a string separator. *)
Fixpoint split_chars (fuel : nat) (sep : list ascii) (cur : list ascii) (s : list ascii)
  : list (list ascii) :=
  match fuel with
  | 0 => []
  | S fuel' =>
    match s with
    | [] => [rev cur]
    | c :: s' =>
      match strip_prefix false sep s with
      | Some t => rev cur :: split_chars fuel' sep [] t
      | None => split_chars fuel' sep (c :: cur) s'
      end
    end
  end.

Definition split_str (sep : string) (s : string) : list string :=
  match sep with
  | EmptyString => (fun c => String c EmptyString) <$> chars s
  | _ => str <$> split_chars (S (String.length s)) (chars sep) [] (chars s)
  end.

(** [s.split(re)]: at each position [q] the pattern is tried at [q] only; a
    match that ends where the current piece starts is passed over.  None of
    the patterns the handler splits on has a group: the captures, which
    [split] would splice in, are left out. *)
Fixpoint split_loop (fuel : nat) (re : RegExp.t) (s : list ascii) (p q : nat)
  : list (list ascii) :=
  match fuel with
  | 0 => []
  | S fuel' =>
    if length s <=? q then [drop p s]
    else
      match match_here re q (match q with 0 => None | S q' => s !! q' end) (drop q s) with
      | None => split_loop fuel' re s p (S q)
      | Some r =>
        let e := min (m_end r) (length s) in
        if e =? p then split_loop fuel' re s p (S q)
        else take (q - p) (drop p s) :: split_loop fuel' re s e e
      end
  end.

Definition split (re : RegExp.t) (s : string) : list string :=
  match s with
  | EmptyString =>
    match match_here re 0 None [] with
    | Some _ => []
    | None => [s]
    end
  | _ => str <$> split_loop (2 * String.length s + 2) re (chars s) 0 0
  end.

(** [a.join(sep)]. *)
Fixpoint join (sep : string) (l : list string) : string :=
  match l with
  | [] => ""
  | [x] => x
  | x :: l' => x +:+ sep +:+ join sep l'
  end.

End Str.

(** ** The handler's data *)

Definition dquote : string := String (ascii_of_nat 34) EmptyString.
Definition newline : string := String (ascii_of_nat 10) EmptyString.

(** A JavaScript string used as a condition: [undefined] and the empty
    string are false. *)
Definition truthy (o : option string) : bool :=
  match o with
  | Some (String _ _) => true
  | _ => false
  end.

(** [arr.slice(1, -1)]. *)
Definition slice_1_m1 {A} (arr : list A) : list A := take (length arr - 2) (drop 1 arr).

(** [arr.reduce(f, init)], [f] receiving the accumulator, the element, its
    index and the array. *)
Definition reduce {A B} (f : B -> A -> nat -> list A -> B) (init : B) (arr : list A) : B :=
  fold_left (fun acc ia => f acc (snd ia) (fst ia) arr) (imap pair arr) init.

(** [arr.reduceRight(f, init)]. *)
Definition reduceRight {A B} (f : B -> A -> B) (init : B) (arr : list A) : B :=
  foldr (fun a acc => f acc a) init arr.

(** A regular expression literal of the source. *)
Definition literal (src : string) : RegExp.t :=
  default (RegExp.Make src false RegExp.NEmpty 0) (RegExp.create false src).

(** A case-insensitive regular expression literal of the source. *)
Definition literal_i (src : string) : RegExp.t :=
  default (RegExp.Make src true RegExp.NEmpty 0) (RegExp.create true src).

(** The enum of ./gherkin, whose declaration the client repeats in
    gclient/src/extension.ts. *)
Module GherkinType.
Inductive t : Type := Given | When | Then | And | But | Other.

#[global] Instance eq_dec : EqDecision t.
Proof. solve_decision. Defined.
End GherkinType.

(** Modelled from the spec: the module ./gherkin ([allGherkinWords],
    [getGherkinType], [getGherkinTypeLower]) is imported by the handler but
    is not among the sources.  Section 4.1 of the spec gives one
    classification, a case-insensitive lookup of the keyword text in the
    canonical set Given, When, Then, And, But, anything else being Other;
    section 4.5 draws the keyword of a Gherkin line from that set. *)
Module Gherkin.

Definition allGherkinWords : string := "Given|When|Then|And|But".

Definition lower (c : ascii) : ascii :=
  if Chr.is_upper c then ascii_of_nat (Chr.code c + 32) else c.

Definition toLowerCase (s : string) : string := Str.str (lower <$> Str.chars s).

Definition classify (word : string) : GherkinType.t :=
  let w := toLowerCase word in
  if String.eqb w "given" then GherkinType.Given
  else if String.eqb w "when" then GherkinType.When
  else if String.eqb w "then" then GherkinType.Then
  else if String.eqb w "and" then GherkinType.And
  else if String.eqb w "but" then GherkinType.But
  else GherkinType.Other.

Definition getGherkinType : string -> GherkinType.t := classify.
Definition getGherkinTypeLower : string -> GherkinType.t := classify.

End Gherkin.

(** vscode-languageserver's Position, Range, Location and Diagnostic. *)
Record Position : Type := { line : nat; character : nat }.
Record Range : Type := { start : Position; end_ : Position }.
Record Location : Type := { uri : string; range : Range }.

Inductive DiagnosticSeverity : Type := Error | Warning | Information | Hint.

Record Diagnostic : Type := {
  severity : DiagnosticSeverity;
  d_range : Range;
  message : string;
  d_source : string
}.

Record Step : Type := {
  id : string;
  reg : RegExp.t;
  partialReg : RegExp.t;
  text : string;
  desc : string;
  def : Location;
  count : nat;
  gherkin : GherkinType.t;
  documentation : string
}.

(** CustomParameter of ./types: the parameter is a string or a RegExp. *)
Record CustomParameter : Type := {
  parameter : string + RegExp.t;
  value : string
}.

(** Settings of ./types, the fields the handler reads.  An optional
    boolean that is absent counts as false, as it does in the conditions
    that read it. *)
Record Settings : Type := {
  steps : list string;
  strictGherkinCompletion : bool;
  strictGherkinValidation : bool;
  smartSnippets : bool;
  stepsInvariants : bool;
  customParameters : option (list CustomParameter);
  gherkinDefinitionPart : option string;
  stepRegExSymbol : option string;
  pureTextSteps : bool
}.

(** The fields of a StepsHandler object. *)
Record StepsHandler : Type := {
  elements : list Step;
  elementsHash : gmap string bool;
  elemenstCountHash : gmap string nat;
  settings : Settings
}.

(** ** Matching a feature line: the part both implementations share *)

Definition getGherkinRegEx : RegExp.t :=
  literal ("^(\s*)(" +:+ Gherkin.allGherkinWords +:+ ")(\s+)(.*)").

(** [match[i]] of a match array, [undefined] read as the empty string where
    the handler goes on to use it as a string. *)
Definition group (i : nat) (m : RegExp.mresult) : string :=
  match i with
  | 0 => RegExp.m_text m
  | S j => default "" (mjoin (RegExp.m_groups m !! j))
  end.

(** The callback of [find] in [getStepByText]; [gherkin' = None] is the
    call without the optional argument. *)
Definition step_ok (text : string) (gherkin' : option GherkinType.t) (s : Step) : bool :=
  let isGherkinOk :=
    match gherkin' with
    | Some g => bool_decide (gherkin s = g)
    | None => true
    end in
  let isStepOk := RegExp.test (reg s) text in
  isGherkinOk && isStepOk.

Definition getStepByText (this : StepsHandler) (text : string)
    (gherkin' : option GherkinType.t) : option Step :=
  find (step_ok text gherkin') (elements this).

Definition split_lines (text : string) : list string :=
  Str.split (literal "\r?\n") text.

Definition split_row (row : string) : list string :=
  slice_1_m1 (Str.split (literal "\s*\|\s*") row).

(** The callback of the inner [forEach] of [getOutlineVars]. *)
Definition bind_column (values : list string) (res : gmap string string) (n : string) (i : nat)
  : gmap string string :=
  if truthy (values !! i) then <[n := default "" (values !! i)]> res else res.

Definition is_examples_header (a : string) : bool :=
  bool_decide (is_Some (Str.match_ (literal "^\s*Examples:\s*$") a)).

(** The object that [getOutlineVars] fills is read as the map of its own
    properties; the names that every object inherits (constructor, toString
    and the like) are not in the map. *)
Definition getOutlineVars (text : string) : gmap string string :=
  reduce (fun res a i arr =>
            if is_examples_header a && truthy (arr !! (i + 2))
            then
              let names := split_row (default "" (arr !! (i + 1))) in
              let values := split_row (default "" (arr !! (i + 2))) in
              reduce (fun res n i _ => bind_column values res n i) res names
            else res)
         (∅ : gmap string string) (split_lines text).

(** The keys of the placeholders of a line: [outlineMatch.map(s =>
    s.replace(/<|>/g, ''))]. *)
Definition outline_keys (outlineMatch : list string) : list string :=
  Str.replace true (literal "<|>") "" <$> outlineMatch.

(** The line with the placeholders of [keys] replaced, [wrap] giving the
    replacement text of a value. *)
Definition substitute_outline (outlineVars : gmap string string) (wrap : string -> string)
    (keys : list string) (line : string) : string :=
  fold_left (fun resLine key =>
               match outlineVars !! key with
               | Some v => Str.replace_str ("<" +:+ key +:+ ">") (wrap v) resLine
               | None => resLine
               end)
            keys line.

Definition quoted (v : string) : string := dquote +:+ v +:+ dquote.

(** The body of [getGherkinMatch] for a line with placeholders, once the
    variables are known. *)
Definition outline_match (this : StepsHandler) (outlineVars : gmap string string)
    (outlineMatch : list string) (line : string) : option RegExp.mresult :=
  let pureLine := substitute_outline outlineVars (fun v => v) (outline_keys outlineMatch) line in
  let quotesLine := substitute_outline outlineVars quoted (outline_keys outlineMatch) line in
  let pureMatch := Str.match_ getGherkinRegEx pureLine in
  let quotesMatch := Str.match_ getGherkinRegEx quotesLine in
  match quotesMatch with
  | Some q =>
    if truthy (Some (group 4 q)) && bool_decide (is_Some (getStepByText this (group 4 q) None))
    then quotesMatch
    else pureMatch
  | None => pureMatch
  end.

Definition getGherkinMatch (this : StepsHandler) (line document : string)
  : option RegExp.mresult :=
  match Str.match_g (literal "<.*?>") line with
  | Some outlineMatch => outline_match this (getOutlineVars document) outlineMatch line
  | None => Str.match_ getGherkinRegEx line
  end.

Definition getStrictGherkinType (this : StepsHandler) (gherkinPart : string)
    (lineNumber : nat) (text : string) : GherkinType.t :=
  let gherkinType := Gherkin.getGherkinType gherkinPart in
  if bool_decide (gherkinType = GherkinType.And) || bool_decide (gherkinType = GherkinType.But)
  then
    reduceRight (fun res val =>
                   if bool_decide (res = GherkinType.Other) then
                     match getGherkinMatch this val text with
                     | Some m =>
                       let prevGherkinPartType := Gherkin.getGherkinTypeLower (group 2 m) in
                       if bool_decide (prevGherkinPartType ∈
                            [GherkinType.Given; GherkinType.When; GherkinType.Then])
                       then prevGherkinPartType
                       else res
                     | None => res
                     end
                   else res)
                GherkinType.Other
                (take lineNumber (split_lines text))
  else Gherkin.getGherkinTypeLower gherkinPart.

(** The step lookup of [validate], up to the point where the two
    implementations part. *)
Definition gherkinWord (this : StepsHandler) (lineNum : nat) (text : string)
    (m : RegExp.mresult) : option GherkinType.t :=
  let gherkinPart := group 2 m in
  if strictGherkinValidation (settings this)
  then Some (getStrictGherkinType this gherkinPart lineNum text)
  else None.

Definition validate_lookup (this : StepsHandler) (lineNum : nat) (text : string)
    (m : RegExp.mresult) : option Step :=
  getStepByText this (group 4 m) (gherkinWord this lineNum text m).

Definition trimEnd (line : string) : string := Str.replace false (literal "\s*$") "" line.
Definition trimStart (line : string) : string := Str.replace false (literal "^\s*") "" line.

Definition no_step_diagnostic (lineNum : nat) (line : string) (m : RegExp.mresult)
  : Diagnostic :=
  let lineForError := trimStart line in
  let beforeGherkin := group 1 m in
  {| severity := Warning;
     d_range := {| start := {| line := lineNum; character := String.length beforeGherkin |};
                   end_ := {| line := lineNum; character := String.length line |} |};
     message := "Was unable to find step for " +:+ dquote +:+ lineForError +:+ dquote;
     d_source := "cucumberautocomplete" |}.

(** [validate] of gserver/src/steps.handler.ts; [None] is [null]. *)
Definition validate (this : StepsHandler) (line : string) (lineNum : nat) (text : string)
  : option Diagnostic :=
  let line := trimEnd line in
  match getGherkinMatch this line text with
  | None => None
  | Some m =>
    match validate_lookup this lineNum text m with
    | Some _ => None
    | None => Some (no_step_diagnostic lineNum line m)
    end
  end.

Definition getDefinition (this : StepsHandler) (line text : string) : option Location :=
  match getGherkinMatch this line text with
  | None => None
  | Some m => def <$> getStepByText this (group 4 m) None
  end.

(** The duplicate implementation with the JSON source of steps.  Its
    matching functions are those above, word for word; its [validate]
    returns after the lookup. *)
Module JsonCapable.

Definition validate (this : StepsHandler) (line : string) (lineNum : nat) (text : string)
  : option Diagnostic :=
  let line := trimEnd line in
  match getGherkinMatch this line text with
  | None => None
  | Some m =>
    let step := validate_lookup this lineNum text m in
    None
  end.

End JsonCapable.

(** ** Outcomes of calls that can throw

    [new RegExp] throws a SyntaxError on a malformed pattern; a recursion
    deeper than the call stack throws a RangeError. *)

Inductive exn : Type := SyntaxError | RangeError.

Inductive outcome (A : Type) : Type :=
| Returns (a : A)
| Throws (e : exn).
Arguments Returns {A} a.
Arguments Throws {A} e.

#[global] Instance outcome_bind : MBind outcome := λ A B f x,
  match x with
  | Returns a => f a
  | Throws e => Throws e
  end.
#[global] Instance outcome_ret : MRet outcome := @Returns.

(** [new RegExp(src)]. *)
Definition new_RegExp (src : string) : outcome RegExp.t :=
  match RegExp.create false src with
  | Some re => Returns re
  | None => Throws SyntaxError
  end.

(** [try { body } catch (err) { handler }]. *)
Definition try_catch {A} (body : outcome A) (handler : A) : A :=
  match body with
  | Returns a => a
  | Throws _ => handler
  end.

(** [arr.map(f)] for an [f] that can throw: the first exception ends the
    loop. *)
Fixpoint map_outcome {A B} (f : A -> outcome B) (l : list A) : outcome (list B) :=
  match l with
  | [] => Returns []
  | a :: l' => b ← f a; bs ← map_outcome f l'; Returns (b :: bs)
  end.

(** ** Compiling a step template *)

Section Compiler.

(** [escapeRegExp], [escaprRegExpForPureText] and [getMD5Id] of ./util and
    [getDocumentation]'s comment parser: imported by the handler, not among
    the sources. *)
Variable escapeRegExp : string -> string.
Variable escaprRegExpForPureText : string -> string.
Variable getMD5Id : string -> string.
Variable getDocumentation : string -> string.

Definition specialParameters : list (RegExp.t * string) :=
  [ (literal "#{(.*?)}", ".*");
    (literal "{float}", "-?\d*\.?\d+");
    (literal "{int}", "-?\d+");
    (literal "{stringInDoubleQuotes}", dquote +:+ "[^" +:+ dquote +:+ "]+" +:+ dquote);
    (literal "{word}", "[^\s]+");
    (literal "{string}", "(" +:+ dquote +:+ "|')[^\1]*\1") ].

(** [specialParameters.forEach(([parameter, change]) => step =
    step.replace(parameter, change))], every pattern being global. *)
Definition replace_special (step : string) : string :=
  fold_left (fun step pc => Str.replace true (fst pc) (snd pc) step) specialParameters step.

Definition getRegTextForPureStep (step : string) : string :=
  let step := replace_special step in
  let step := escaprRegExpForPureText step in
  let step :=
    fold_left (fun step pc =>
                 let change := snd pc in
                 let escapedChange := escaprRegExpForPureText change in
                 Str.join change (Str.split_str escapedChange step))
              specialParameters step in
  "^" +:+ step +:+ "$".

(** The body of [getRegTextForStep] before its last statement, the call of
    [escapeRegExp]. *)
Definition regTextBeforeEscape (step : string) : string :=
  let step := replace_special step in
  (* Optional Text *)
  let step := Str.replace true (literal "\(([a-z]+)\)") "($1)?" step in
  (* Alternative text a/b/c === (a|b|c) *)
  let step :=
    Str.replace_fn true (literal "([a-zA-Z]+)(?:\/([a-zA-Z]+))+")
      (fun m => "(" +:+ Str.replace true (literal "\/") "|" (RegExp.m_text m) +:+ ")") step in
  (* Cucumber expressions like {Something} are replaced with .* *)
  Str.replace true (literal "([^\\]|^){(?![\d,])(.*?)}") "$1.*" step.

Definition getRegTextForStep (step : string) : string :=
  escapeRegExp (regTextBeforeEscape step).

Record parts_state : Type := {
  currString : string;
  bracesMode : bool;
  openingBracesNum : nat;
  closingBracesNum : nat;
  res : list string
}.

(** One turn of the loop of [getPartialRegParts] for [i < text.length]. *)
Definition parts_step (st : parts_state) (currSymbol : ascii) : parts_state :=
  let push (c : ascii) := currString st +:+ String c EmptyString in
  if bracesMode st then
    let closing := if isc currSymbol ")" then S (closingBracesNum st) else closingBracesNum st in
    let mode :=
      if isc currSymbol ")" && (openingBracesNum st =? closing) then false else true in
    let opening := if isc currSymbol "(" then S (openingBracesNum st) else openingBracesNum st in
    {| currString := push currSymbol; bracesMode := mode;
       openingBracesNum := opening; closingBracesNum := closing; res := res st |}
  else if isc currSymbol " " then
    {| currString := ""; bracesMode := false;
       openingBracesNum := openingBracesNum st; closingBracesNum := closingBracesNum st;
       res := res st ++ [currString st] |}
  else if isc currSymbol "(" then
    {| currString := push currSymbol; bracesMode := true;
       openingBracesNum := 1; closingBracesNum := 0; res := res st |}
  else
    {| currString := push currSymbol; bracesMode := false;
       openingBracesNum := openingBracesNum st; closingBracesNum := closingBracesNum st;
       res := res st |}.

(** The tokens of a compiled pattern text: split on the spaces outside
    parentheses. *)
Definition split_parts (text : string) : list string :=
  let st := fold_left parts_step (Str.chars text)
              {| currString := ""; bracesMode := false;
                 openingBracesNum := 0; closingBracesNum := 0; res := [] |} in
  res st ++ [currString st].

Definition getPartialRegParts (s : Settings) (text : string) : list string :=
  split_parts (if pureTextSteps s then getRegTextForPureStep text else getRegTextForStep text).

Definition getPartialRegText (s : Settings) (regText : string) : string :=
  Str.replace false (literal "^\^|^") "^"
    (Str.join "( |$)" ((fun el => "(" +:+ el +:+ "|$)") <$> getPartialRegParts s regText)).

Definition getTextForStep (step : string) : string :=
  (* Remove all the backslashes used for escaping regex special characters *)
  let step := Str.replace true (literal "\\") "" step in
  (* Remove the string start and string end symbols *)
  let step := Str.replace true (literal "^\^|\$$") "" step in
  let step := Str.join "{string}" (Str.split_str ("(" +:+ dquote +:+ "|')[^1]*1") step) in
  let step :=
    Str.replace true (literal (dquote +:+ "\[^" +:+ dquote +:+ "\]\+" +:+ dquote))
                "{stringInDoubleQuotes}" step in
  let step := Str.replace true (literal "\[^s\]\+") "{word}" step in
  let step := Str.replace true (literal "-\?d\+") "{int}" step in
  Str.replace true (literal "-\?d\*\.\?d\+") "{float}" step.

Definition getDescForStep (step : string) : string :=
  (* Remove the function body part *)
  let step := Str.replace false (literal "\{.*") "" step in
  (* Remove spaces in the beginning and in the end of string *)
  Str.replace false (literal "\s*$") "" (Str.replace false (literal "^\s*") "" step).

(** [getStepTextInvariants] and its pattern; [depth] is the number of nested
    calls the stack has room for. *)
Definition bracesRegEx : RegExp.t := literal "(\([^)()]+\|[^()]+\))".

(** The pattern that takes the parentheses off the group. *)
Definition parens : RegExp.t := literal "^\(|\)$".

Fixpoint getStepTextInvariants (depth : nat) (step : string) : outcome (list string) :=
  match depth with
  | 0 => Throws RangeError
  | S depth' =>
    match Str.match_ bracesRegEx step with
    | Some m =>
      let matchRes := group 1 m in
      let variants :=
        Str.split_str "|"
          (Str.replace true parens "" (Str.replace false (literal "\(\?:") "" matchRes)) in
      fold_left (fun varRes variant =>
                   acc ← varRes;
                   vs ← getStepTextInvariants depth' (Str.replace_str matchRes variant step);
                   Returns (acc ++ vs))
                variants (Returns [])
    | None => Returns [step]
    end
  end.

Definition getElementCount (this : StepsHandler) (id : string) : nat :=
  default 0 (elemenstCountHash this !! id).

Definition regTextFor (s : Settings) (step : string) : string :=
  if pureTextSteps s then getRegTextForPureStep step else getRegTextForStep step.

(** The callback of [filter] in [getSteps]. *)
Definition variant_is_valid (s : Settings) (step : string) : bool :=
  try_catch (_ ← new_RegExp (regTextFor s step); Returns true) false.

(** The callback of [map] in [getSteps]. *)
Definition variant_to_step (this : StepsHandler) (desc : string) (def : Location)
    (gherkin : GherkinType.t) (documentation : string) (step : string) : outcome Step :=
  let s := settings this in
  reg ← new_RegExp (regTextFor s step);
  let partialReg := try_catch (new_RegExp (getPartialRegText s step)) reg in
  let text := if pureTextSteps s then step else getTextForStep step in
  let id := "step" +:+ getMD5Id text in
  let count := getElementCount this id in
  Returns {| id := id; reg := reg; partialReg := partialReg; text := text; desc := desc;
             def := def; count := count; gherkin := gherkin;
             documentation := documentation |}.

Definition getSteps (depth : nat) (this : StepsHandler) (fullStepLine stepPart : string)
    (def : Location) (gherkin : GherkinType.t) (comments : gmap nat string)
  : outcome (list Step) :=
  stepsVariants ←
    (if stepsInvariants (settings this)
     then getStepTextInvariants depth stepPart
     else Returns [stepPart]);
  let desc := getDescForStep fullStepLine in
  let comment := comments !! line (start (range def)) in
  let documentation := if truthy comment then getDocumentation (default "" comment)
                       else fullStepLine in
  map_outcome (variant_to_step this desc def gherkin documentation)
              (List.filter (variant_is_valid (settings this)) stepsVariants).

End Compiler.

(** ** Extracting step definitions and building the index *)

Definition backtick : string := String (ascii_of_nat 96) EmptyString.

(** [s.trim()]. *)
Definition trim (s : string) : string :=
  let drop_space := fix go (l : list ascii) : list ascii :=
    match l with
    | c :: l' => if Chr.is_space c then go l' else l
    | [] => []
    end in
  Str.str (rev (drop_space (rev (drop_space (Str.chars s))))).

(** A match array: [None] is an [undefined] entry. *)
Definition match_array (m : RegExp.mresult) : list (option string) :=
  Some (RegExp.m_text m) :: RegExp.m_groups m.

Section Extractor.

Variable escapeRegExp : string -> string.
Variable escaprRegExpForPureText : string -> string.
Variable getMD5Id : string -> string.
Variable getDocumentation : string -> string.

(** [getOSPath], [getFileContent] and [clearComments] of ./util, and
    [glob.sync]: the file system the handler reads. *)
Variable getOSPath : string -> string.
Variable getFileContent : string -> string.
Variable clearComments : string -> string.
Variable glob_sync : string -> list string.

Definition keywords : string := "|defineStep|Step|StepDefinition".

Definition getStepRegExp (s : Settings) : outcome RegExp.t :=
  (* the symbols before the gherkin word, which should not end with a letter *)
  let startPart := "^((?:[^'" +:+ dquote +:+ "/]*?[^\w])|.{0})" in
  let gherkinPart :=
    if truthy (gherkinDefinitionPart s) then default "" (gherkinDefinitionPart s)
    else "(" +:+ Gherkin.allGherkinWords +:+ keywords +:+ ")" in
  let nonStepStartSymbols := "[^/'" +:+ dquote +:+ backtick +:+ "\w]*?" in
  let stepStart :=
    if truthy (stepRegExSymbol s) then "(" +:+ default "" (stepRegExSymbol s) +:+ ")"
    else "(/|'|" +:+ dquote +:+ "|" +:+ backtick +:+ ")" in
  let stepBody := "((?:(?=(?:\\)*)\\.|.)*?)" in
  let stepEnd := if truthy (stepRegExSymbol s) then default "" (stepRegExSymbol s) else "\3" in
  match RegExp.create true
          (startPart +:+ gherkinPart +:+ nonStepStartSymbols +:+ stepStart +:+ stepBody
           +:+ stepEnd) with
  | Some re => Returns re
  | None => Throws SyntaxError
  end.

Definition keyword_group : string :=
  "(Given|When|Then|And|But|defineStep|Step|StepDefinition)".
Definition quote_group : string := "([" +:+ backtick +:+ "'" +:+ dquote +:+ "])".
Definition not_quotes : string := "[^" +:+ backtick +:+ "'" +:+ dquote +:+ "]*".
Definition body_group : string := "((?:(?=(?:\\)*)\\.|.)*?)".

Definition es6Patterns : list RegExp.t :=
  let head := "^(.*?[^\w])([^\w]*(?:cucumber_[^\w]*)?)" +:+ keyword_group +:+ "[^\w]*\)\s*\(" in
  [ literal_i (head +:+ "\s*" +:+ quote_group +:+ body_group +:+ "\4");
    literal_i (head +:+ "\s*\/\/" +:+ not_quotes +:+ "\s*" +:+ quote_group +:+ body_group +:+ "\4");
    literal_i (head +:+ not_quotes +:+ quote_group +:+ body_group +:+ "\4") ].

(** [[m[0], m[a] || '', m[b] || '', m[c] || '', m[d] || '']]. *)
Definition pick (m : RegExp.mresult) (a b c d : nat) : list (option string) :=
  [ Some (group 0 m); Some (group a m); Some (group b m); Some (group c m);
    Some (group d m) ].

Definition geStepDefinitionMatch (s : Settings) (line : string)
  : outcome (option (list (option string))) :=
  re ← getStepRegExp s;
  match Str.match_ re line with
  | Some m => Returns (Some (match_array m))
  | None =>
    let cleanLine := trim (Str.replace true (literal "\s+") " " line) in
    let es6 :=
      list_find (fun o => bool_decide (is_Some o))
        ((fun pattern =>
            match Str.match_ pattern cleanLine with
            | Some m => if truthy (Some (group 5 m)) then Some m else None
            | None => None
            end) <$> es6Patterns) in
    match es6 with
    | Some (_, Some m) => Returns (Some (pick m 1 3 4 5))
    | _ =>
      match Str.match_
              (literal_i ("^(.*?[^\w])(module\.exports\.|exports\.)" +:+ keyword_group
                          +:+ "\s*=\s*function\s*\(\s*" +:+ quote_group +:+ body_group +:+ "\4"))
              cleanLine with
      | Some m => Returns (Some (pick m 1 3 4 5))
      | None =>
        match Str.match_
                (literal_i ("^(.*?[^\w])(cucumber\.|Cucumber\.)" +:+ keyword_group
                            +:+ "\s*\(\s*" +:+ quote_group +:+ body_group +:+ "\4"))
                cleanLine with
        | Some m => Returns (Some (pick m 1 3 4 5))
        | None =>
          match Str.match_
                  (literal_i ("^(.*?new\s+RegExp\s*\(\s*)([" +:+ backtick +:+ "'" +:+ dquote
                              +:+ "/])" +:+ body_group +:+ "\2"))
                  cleanLine with
          | Some m =>
            Returns (Some [Some (group 0 m); Some (group 1 m); Some ""; Some (group 2 m);
                           Some (group 3 m)])
          | None => Returns None
          end
        end
      end
    end
  end.

Definition handleCustomParameters (s : Settings) (step : string) : string :=
  match customParameters s with
  | None => step
  | Some ps =>
    fold_left (fun step p =>
                 Str.join (value p)
                   (match parameter p with
                    | inl str => Str.split_str str step
                    | inr re => Str.split re step
                    end))
              ps step
  end.

Record comments_state : Type := {
  comments : gmap nat string;
  current : string;
  commentMode : bool
}.

Definition getMultiLineComments (content : string) : gmap nat string :=
  comments
    (reduce (fun res line i _ =>
               if bool_decide (is_Some (Str.search (literal "^\s*\/\*") line)) then
                 {| comments := comments res; current := line +:+ newline; commentMode := true |}
               else if bool_decide (is_Some (Str.search (literal "^\s*\*\/") line)) then
                 let cur := current res +:+ line +:+ newline in
                 {| comments := <[i + 1 := cur]> (comments res); current := cur;
                    commentMode := false |}
               else if commentMode res then
                 {| comments := comments res; current := current res +:+ line +:+ newline;
                    commentMode := true |}
               else res)
            {| comments := ∅; current := ""; commentMode := false |}
            (split_lines content)).

Definition getFileSteps (depth : nat) (this : StepsHandler) (filePath : string)
  : outcome (list Step) :=
  let s := settings this in
  let fileContent := getFileContent filePath in
  let fileComments := getMultiLineComments fileContent in
  let definitionFile := clearComments fileContent in
  reduce (fun acc line lineIndex lines =>
            steps ← acc;
            let currLine := handleCustomParameters s line in
            currentMatch ← geStepDefinitionMatch s currLine;
            (* the next line, to handle two-lines step definitions *)
            let nextLine := handleCustomParameters s (default "" (lines !! (lineIndex + 1))) in
            found ←
              match currentMatch with
              | Some m => Returns (Some (m, currLine))
              | None =>
                if truthy (Some nextLine) then
                  nextLineMatch ← geStepDefinitionMatch s nextLine;
                  bothLinesMatch ← geStepDefinitionMatch s (currLine +:+ nextLine);
                  match bothLinesMatch, nextLineMatch with
                  | Some m, None => Returns (Some (m, currLine +:+ nextLine))
                  | _, _ => Returns None
                  end
                else Returns None
              end;
            match found with
            | Some (m, finalLine) =>
              match m !! 1, m !! 2, m !! 4 with
              | Some (Some beforeGherkin), Some (Some gherkinString), Some (Some stepPart) =>
                let gherkin := Gherkin.getGherkinTypeLower gherkinString in
                let pos := {| line := lineIndex; character := String.length beforeGherkin |} in
                let def := {| uri := getOSPath filePath;
                              range := {| start := pos; end_ := pos |} |} in
                new ← getSteps escapeRegExp escaprRegExpForPureText getMD5Id getDocumentation
                        depth this finalLine stepPart def gherkin fileComments;
                Returns (steps ++ new)
              | _, _, _ => Returns steps
              end
            | None => Returns steps
            end)
         (Returns []) (split_lines definitionFile).

(** The inner [reduce] of [populate]: the steps of one file whose id is not
    in [elementsHash] yet, and the hash with their ids added. *)
Definition add_new_steps (hash : gmap string bool) (fileSteps : list Step)
  : list Step * gmap string bool :=
  fold_left (fun acc step =>
               let '(steps, hash) := acc in
               if negb (default false (hash !! id step))
               then (steps ++ [step], <[id step := true]> hash)
               else (steps, hash))
            fileSteps ([], hash).

(** The outer [reduce] of [populate] over the files. *)
Definition collect_steps (depth : nat) (this : StepsHandler) (files : list string)
  : outcome (list Step * gmap string bool) :=
  fold_left (fun acc f =>
               '(elements, hash) ← acc;
               fileSteps ← getFileSteps depth this f;
               let '(steps, hash') := add_new_steps hash fileSteps in
               Returns (elements ++ steps, hash'))
            files (Returns ([], ∅)).

Definition populate (depth : nat) (this : StepsHandler) (root : string)
    (stepsPathes : list string) : outcome StepsHandler :=
  let files :=
    fold_left (fun files path => files ++ glob_sync (root +:+ "/" +:+ path)) stepsPathes [] in
  '(elements, hash) ← collect_steps depth this files;
  Returns {| elements := elements; elementsHash := hash;
             elemenstCountHash := elemenstCountHash this; settings := settings this |}.

End Extractor.

(** ** Sample handlers for the concrete statements *)

Definition sample_settings : Settings :=
  {| steps := []; strictGherkinCompletion := false; strictGherkinValidation := false;
     smartSnippets := false; stepsInvariants := true; customParameters := None;
     gherkinDefinitionPart := None; stepRegExSymbol := None; pureTextSteps := false |}.

Definition sample_location (n : nat) : Location :=
  {| uri := "file:steps.js";
     range := {| start := {| line := n; character := 0 |};
                 end_ := {| line := n; character := 0 |} |} |}.

(** A step record for a template that is its own pattern text. *)
Definition sample_step (n : nat) (g : GherkinType.t) (template : string) : Step :=
  {| id := "step" +:+ template; reg := literal template; partialReg := literal template;
     text := template; desc := template; def := sample_location n; count := 0;
     gherkin := g; documentation := template |}.

Definition empty_handler : StepsHandler :=
  {| elements := []; elementsHash := ∅; elemenstCountHash := ∅;
     settings := sample_settings |}.

(** An index in which two steps match the text [I go upper]. *)
Definition sample_handler : StepsHandler :=
  {| elements := [ sample_step 0 GherkinType.Given "I stay";
                   sample_step 1 GherkinType.When "I go up";
                   sample_step 2 GherkinType.When "I go upper" ];
     elementsHash := ∅; elemenstCountHash := ∅; settings := sample_settings |}.

(** ** Descriptions used by the statements *)

(** The type a line hands down to a following And or But: the
    classification of the keyword of its Gherkin match when that is Given,
    When or Then. *)
Definition inherited_type (this : StepsHandler) (text : string) (l : string)
  : option GherkinType.t :=
  match getGherkinMatch this l text with
  | Some m =>
    let t := Gherkin.classify (group 2 m) in
    if bool_decide (t ∈ [GherkinType.Given; GherkinType.When; GherkinType.Then])
    then Some t else None
  | None => None
  end.

(** The name and value pairs that the table whose header is line [i] of
    [arr] binds, in the order of the columns: none unless line [i] is an
    Examples header with a non-empty line two below. *)
Definition table_bindings (arr : list string) (i : nat) (a : string)
  : list (string * string) :=
  if is_examples_header a && truthy (arr !! (i + 2)) then
    let names := split_row (default "" (arr !! (i + 1))) in
    let values := split_row (default "" (arr !! (i + 2))) in
    concat (imap (fun j n => if truthy (values !! j)
                             then [(n, default "" (values !! j))] else [])
                 names)
  else [].

(** The bindings of all the tables of a document, in the order of the
    lines. *)
Definition all_bindings (arr : list string) : list (string * string) :=
  concat (imap (table_bindings arr) arr).

Definition bind (res : gmap string string) (nv : string * string) : gmap string string :=
  <[fst nv := snd nv]> res.



(** A document with a table before a step line and another after it, and
    the document of section 8 of the spec. *)
Definition two_tables_document : string :=
  "Examples:" +:+ newline +:+ "| name |" +:+ newline +:+ "| Bob |" +:+ newline
  +:+ "Given <name> logs in" +:+ newline
  +:+ "Examples:" +:+ newline +:+ "| name |" +:+ newline +:+ "| Al |".

Definition one_table_document : string :=
  "Given <name> logs in" +:+ newline
  +:+ "Examples:" +:+ newline +:+ "| name |" +:+ newline +:+ "| Bob |".

Definition three_line_document : string :=
  "Given a user exists" +:+ newline +:+ "When they log in" +:+ newline
  +:+ "And they see a dashboard".

Section Descriptions.

Variable escapeRegExp : string -> string.
Variable escaprRegExpForPureText : string -> string.
Variable getMD5Id : string -> string.

(** What one variant of a template contributes to the result of
    [getSteps]: nothing when its full pattern text is no regular expression,
    else one record, whose partial pattern is the full pattern when the
    partial pattern text is no regular expression. *)
Definition steps_of_variant (this : StepsHandler) (desc : string) (def : Location)
    (gherkin : GherkinType.t) (documentation : string) (step : string) : list Step :=
  let s := settings this in
  match new_RegExp (regTextFor escapeRegExp escaprRegExpForPureText s step) with
  | Throws _ => []
  | Returns reg =>
    let text := if pureTextSteps s then step else getTextForStep step in
    let id := "step" +:+ getMD5Id text in
    [ {| id := id; reg := reg;
         partialReg :=
           match new_RegExp (getPartialRegText escapeRegExp escaprRegExpForPureText s step) with
           | Returns partialReg => partialReg
           | Throws _ => reg
           end;
         text := text; desc := desc; def := def; count := getElementCount this id;
         gherkin := gherkin; documentation := documentation |} ]
  end.

End Descriptions.

(** The steps of a list that are the first with their id, [seen] being the
    ids met before. *)
Fixpoint first_by_id (seen : list string) (l : list Step) : list Step :=
  match l with
  | [] => []
  | s :: l' =>
    if bool_decide (id s ∈ seen) then first_by_id seen l'
    else s :: first_by_id (id s :: seen) l'
  end.

(** ** Stand-ins for the functions of ./util in the concrete statements *)

(** Modelled from the spec: [escapeRegExp] of ./util is imported by the
    handler but is not among the sources.  Step 6 of section 4.2 has it
    escape what is left of the regular expression syntax, yet section 8 has
    the template [I have {int} cats] match [I have 3 cats], [I run(s)] match
    [I runs] and [I go up/down] match [I go down]: the sub-patterns and the
    groups that steps 2 to 5 insert must come out of it as they went in.
    The stand-in leaves its argument as it is.  The general statements below
    do not depend on it; they say what they assume of [escapeRegExp]. *)
Definition escapeRegExp_model (str : string) : string := str.

(** Stand-ins for [escaprRegExpForPureText], [getMD5Id] (any function of the
    text does for a sample), [getDocumentation], [getOSPath] and
    [clearComments]. *)
Definition sample_pure_escape (str : string) : string := str.
Definition sample_md5 (str : string) : string := str.
Definition sample_documentation (comment : string) : string := comment.
Definition sample_os_path (path : string) : string := "file:" +:+ path.
Definition sample_clear_comments (content : string) : string := content.

(** A file system of two step files that define one step in common. *)
Definition sample_file_a : string :=
  "Given('I go (one|two)', function() {" +:+ newline
  +:+ "});" +:+ newline
  +:+ "When(/^I do (.*)$/, () => {});".

Definition sample_file_b : string :=
  "Given('I go one', f)" +:+ newline
  +:+ "Then('I see {int} things', g)".

Definition sample_file_content (path : string) : string :=
  if String.eqb path "/r/a.js" then sample_file_a
  else if String.eqb path "/r/b.js" then sample_file_b
  else "".

Definition sample_glob (pattern : string) : list string := [pattern].

Definition sample_getSteps (this : StepsHandler) (template : string) : outcome (list Step) :=
  getSteps escapeRegExp_model sample_pure_escape sample_md5 sample_documentation 8 this
           template template (sample_location 0) GherkinType.Given ∅.

Definition sample_populate (paths : list string) : outcome StepsHandler :=
  populate escapeRegExp_model sample_pure_escape sample_md5 sample_documentation
           sample_os_path sample_file_content sample_clear_comments sample_glob
           8 empty_handler "/r" paths.

(** [step.replace(/\\/g, '')], the first statement of [getTextForStep]. *)
Definition without_backslashes (step : string) : string :=
  Str.replace true (literal "\\") "" step.

(** The sub-pattern of the [{string}] placeholder after [I have], and a
    line with a quoted text. *)
Definition have_string_pattern : string := "I have (" +:+ dquote +:+ "|')[^\1]*\1".
Definition have_quoted_x : string := "I have " +:+ dquote +:+ "x" +:+ dquote.

(** ** Literal templates and patterns *)

(** A letter, a digit or a space: a character with no meaning of its own in
    a template or in a pattern. *)
Definition plain_char (c : ascii) : bool :=
  Chr.is_alpha c || Chr.is_digit c || isc c " ".

Definition plain (s : string) : Prop := Forall (fun c => plain_char c = true) (Str.chars s).

(** [v] occurs in [t]. *)
Definition occurs (v t : string) : Prop := exists a b, t = a +:+ v +:+ b.

(** The tree of a pattern that is a sequence of literal characters. *)
Fixpoint literal_tree (l : list ascii) : RegExp.node :=
  match l with
  | [] => RegExp.NEmpty
  | c :: l' => RegExp.NSeq (RegExp.NChar c) (literal_tree l')
  end.

(** [needs c r]: every match of [r], case-sensitive, runs over an
    occurrence of [c] in the input or looks ahead at one. *)
Fixpoint needs (c : ascii) (r : RegExp.node) : bool :=
  match r with
  | RegExp.NChar a => Ascii.eqb c a
  | RegExp.NSeq a b => needs c a || needs c b
  | RegExp.NAlt a b => needs c a && needs c b
  | RegExp.NRepeat mn mx _ a =>
    negb (mn =? 0) && negb (bool_decide (mx = Some 0)) && needs c a
  | RegExp.NGroup _ a => needs c a
  | RegExp.NLook false a => needs c a
  | _ => false
  end.

(** Neither parenthesis. *)
Definition not_paren (c : ascii) : Prop := isc c "(" = false /\ isc c ")" = false.

(** A template with one group of alternatives. *)
Definition alternation_template (pre : string) (branches : list string) (post : string)
  : string :=
  pre +:+ "(" +:+ Str.join "|" branches +:+ ")" +:+ post.

(** The state of the matcher after it has run over the characters [l] at
    the head of the input. *)
Definition after_run (x : RegExp.mstate) (l : list ascii) : RegExp.mstate :=
  fold_left (fun x c => RegExp.advance x c (drop 1 (RegExp.ms_rest x))) l x.
Arguments after_run : simpl never.

(** A matcher fails when its continuation fails on every state further in
    the input. *)
Definition fails_ahead (k : RegExp.cont) (x : RegExp.mstate) : Prop :=
  forall y, RegExp.ms_rest y `suffix_of` RegExp.ms_rest x -> k y = None.


(** * The rest of the handler

    The methods of [StepsHandler] that count the uses of the steps, propose
    completions and report on the configuration, and the functions the
    duplicate implementation adds to recognise templates that are regular
    expressions already. *)

(** ** More of [String.prototype] *)

(** [s.toLowerCase()] on the code units below 256: the basic Latin capitals
    and the Latin-1 capitals (the multiplication sign, 215, is none). *)
Definition to_lower (c : ascii) : ascii :=
  if Chr.is_upper c || (Chr.between 192 222 c && negb (Chr.code c =? 215))
  then ascii_of_nat (Chr.code c + 32)
  else c.

Definition toLowerCase (s : string) : string := Str.str (to_lower <$> Str.chars s).

(** [s.startsWith(p)], [s.endsWith(p)] and [s.includes(p)]. *)
Definition startsWith (s p : string) : bool :=
  bool_decide (is_Some (RegExp.strip_prefix false (Str.chars p) (Str.chars s))).

Definition endsWith (s p : string) : bool :=
  bool_decide (is_Some (RegExp.strip_prefix false (rev (Str.chars p)) (rev (Str.chars s)))).

Definition includes (s p : string) : bool :=
  bool_decide (is_Some (Str.index_from (Str.chars p) 0 (Str.chars s))).

(** [s.substring(n)] and [s.slice(1, -1)]. *)
Definition substring (n : nat) (s : string) : string := Str.str (drop n (Str.chars s)).

Definition str_slice_1_m1 (s : string) : string := Str.str (slice_1_m1 (Str.chars s)).

(** The decimal digits of a number, as a template literal writes it. *)
Fixpoint decimal_digits (fuel n : nat) (acc : list ascii) : list ascii :=
  match fuel with
  | 0 => acc
  | S fuel' =>
    let acc' := ascii_of_nat (48 + n mod 10) :: acc in
    if n <? 10 then acc' else decimal_digits fuel' (n / 10) acc'
  end.

Definition number_to_string (n : nat) : string := Str.str (decimal_digits (S n) n []).

(** ** Counting the uses of the steps *)



Definition getElements (this : StepsHandler) : list Step := elements this.


Section Counting.

Variable getFileContent : string -> string.
Variable glob_sync : string -> list string.




End Counting.

(** ** Display text that keeps the Cucumber expressions *)

Definition getTextForStepWithCucumberExpressions (originalStep : string) : string :=
  let step := originalStep in
  (* Remove backslashes used for escaping in regex *)
  let step := Str.replace true (literal "\\\)") ")" (Str.replace true (literal "\\\(") "(" step) in
  let step := Str.replace true (literal "\\\]") "]" (Str.replace true (literal "\\\[") "[" step) in
  let step := Str.replace true (literal "\\\}") "}" (Str.replace true (literal "\\\{") "{" step) in
  let step := Str.replace true (literal "\\\.") "." step in
  let step := Str.replace true (literal "\\\*") "*" step in
  let step := Str.replace true (literal "\\\+") "+" step in
  let step := Str.replace true (literal "\\\?") "?" step in
  let step := Str.replace true (literal "\\\|") "|" step in
  let step := Str.replace true (literal "\\\^") "^" step in
  let step := Str.replace true (literal "\\\$") "$" step in
  (* Remove regex anchors *)
  Str.replace false (literal "\$$") "" (Str.replace false (literal "^\^") "" step).

(** ** Completion *)

(** [originalWord.startsWith('{') && originalWord.endsWith('}')]. *)
Definition is_expression_word (originalWord : string) : bool :=
  startsWith originalWord "{" && endsWith originalWord "}".

(** The loop of [getCompletionInsertText] that counts the words of the step
    that the typed words match, from index [i] on; [fuel] bounds the number
    of turns left. *)
Fixpoint count_matching_words (fuel i : nat) (originalStepParts stepPartWords : list string)
    (matchingWordsCount : nat) : nat :=
  match fuel with
  | 0 => matchingWordsCount
  | S fuel' =>
    if i <? min (length originalStepParts) (length stepPartWords) then
      let originalWord := default "" (originalStepParts !! i) in
      let stepWord := default "" (stepPartWords !! i) in
      if is_expression_word originalWord then
        count_matching_words fuel' (S i) originalStepParts stepPartWords (S matchingWordsCount)
      else if String.eqb (toLowerCase originalWord) (toLowerCase stepWord) then
        count_matching_words fuel' (S i) originalStepParts stepPartWords (S matchingWordsCount)
      else if (i =? length stepPartWords - 1)
              && startsWith (toLowerCase originalWord) (toLowerCase stepWord)
      then S matchingWordsCount
      else matchingWordsCount
    else matchingWordsCount
  end.

(** [matches.forEach((m, index) => res = res.replace(m, '${index + 1:}'))]:
    the snippet text is the replacement template of [replace]. *)
Definition number_snippets (found : list string) (res : string) : string :=
  reduce (fun res param index _ =>
            Str.replace_str param ("${" +:+ number_to_string (index + 1) +:+ ":}") res)
         res found.

Definition getCompletionInsertText (s : Settings) (step stepPart : string) : string :=
  if pureTextSteps s then
    if startsWith (toLowerCase step) (toLowerCase stepPart)
    then trim (substring (String.length stepPart) step)
    else step
  else
    let originalStep := step in
    let originalStepParts := Str.split_str " " originalStep in
    let stepPartWords := Str.split_str " " (trim stepPart) in
    let matchingWordsCount :=
      count_matching_words (min (length originalStepParts) (length stepPartWords)) 0
                           originalStepParts stepPartWords 0 in
    let remainingParts := drop matchingWordsCount originalStepParts in
    let res := Str.join " " remainingParts in
    if smartSnippets s then
      match Str.match_g (literal "\{[^}]+\}") res with
      | Some parameterMatches => number_snippets parameterMatches res
      | None =>
        match Str.match_g (literal "\.\*") res with
        | Some dotStarMatches => number_snippets dotStarMatches res
        | None => res
        end
      end
    else
      let res :=
        Str.replace true (literal (dquote +:+ "\[\^" +:+ dquote +:+ "\]\+" +:+ dquote))
                    (dquote +:+ dquote) res in
      Str.replace true (literal "\.\*") "{}" res.

(** vscode-languageserver's CompletionItem, the fields the handler fills;
    [CompletionItemKind.Snippet] is 15 and [InsertTextFormat.Snippet] is 2 in
    the protocol. *)
Record CompletionItem : Type := {
  label : string;
  kind : nat;
  data : string;
  item_documentation : string;
  sortText : string;
  insertText : string;
  insertTextFormat : nat
}.

(** The last word of the typed step, which can be incomplete, is taken
    off. *)
Definition without_last_word (stepPartBase : string) : string :=
  Str.replace false (literal "[^\s]+$") "" stepPartBase.

Section Completion.

(** [getSortPrefix] of ./util: imported by the handler, not among the
    sources. *)
Variable getSortPrefix : nat -> nat -> string.

Definition completion_item (this : StepsHandler) (stepPart : string) (step : Step)
  : CompletionItem :=
  {| label := text step;
     kind := 15;
     data := id step;
     item_documentation := documentation step;
     sortText := getSortPrefix (count step) 5 +:+ "_" +:+ text step;
     insertText := getCompletionInsertText (settings this) (text step) stepPart;
     insertTextFormat := 2 |}.

Definition getCompletion (this : StepsHandler) (line : string) (lineNumber : nat)
    (text : string) : option (list CompletionItem) :=
  match getGherkinMatch this line text with
  | None => None
  | Some m =>
    let gherkinPart := group 2 m in
    let stepPartBase := group 4 m in
    let stepPart := without_last_word stepPartBase in
    let res :=
      completion_item this stepPart <$>
        List.filter (fun step => RegExp.test (partialReg step) stepPart)
          (List.filter (fun step =>
                          if strictGherkinCompletion (settings this)
                          then bool_decide (gherkin step
                                            = getStrictGherkinType this gherkinPart lineNumber text)
                          else true)
                       (elements this)) in
    if length res =? 0 then None else Some res
  end.

End Completion.


(** ** Checking the configuration *)

Section Configuration.

Variable glob_sync : string -> list string.

(** [getTextRange] of ./util: imported by the handler, not among the
    sources. *)
Variable getTextRange : string -> string -> Range.

Definition no_files_diagnostic (settingsFile workSpaceRoot path : string) : Diagnostic :=
  let searchTerm := Str.replace_str (workSpaceRoot +:+ "/") "" path in
  let range := getTextRange (workSpaceRoot +:+ "/" +:+ settingsFile)
                            (dquote +:+ searchTerm +:+ dquote) in
  {| severity := Warning; d_range := range; message := "No steps files found";
     d_source := "cucumberautocomplete" |}.

Definition validateConfiguration (settingsFile : string) (stepsPathes : list string)
    (workSpaceRoot : string) : list Diagnostic :=
  fold_left (fun res path =>
               let files := glob_sync path in
               if length files =? 0
               then res ++ [no_files_diagnostic settingsFile workSpaceRoot path]
               else res)
            stepsPathes [].

End Configuration.

(** ** The duplicate implementation: templates that are regular expressions *)

(** The tree of a pattern with the [s] flag: the dot matches every code
    unit, the line terminators too. *)
Fixpoint dot_all (r : RegExp.node) : RegExp.node :=
  match r with
  | RegExp.NAny => RegExp.NClass true []
  | RegExp.NSeq a b => RegExp.NSeq (dot_all a) (dot_all b)
  | RegExp.NAlt a b => RegExp.NAlt (dot_all a) (dot_all b)
  | RegExp.NRepeat mn mx g a => RegExp.NRepeat mn mx g (dot_all a)
  | RegExp.NGroup i a => RegExp.NGroup i (dot_all a)
  | RegExp.NLook neg a => RegExp.NLook neg (dot_all a)
  | _ => r
  end.

(** A regular expression literal of the source with the [s] flag. *)
Definition literal_s (src : string) : RegExp.t :=
  let re := literal src in
  RegExp.Make (RegExp.source re) (RegExp.ignoreCase re) (dot_all (RegExp.tree re))
              (RegExp.ngroups re).

Module JsonSource.

(** The result of [isRegExpConstructor] and [processRegExpPattern]: [None]
    is [{ isRegExp: false }], [Some pattern] is [{ isRegExp: true, pattern }]. *)
Definition isRegExpConstructor (text : string) : option string :=
  match RegExp.exec (literal_s "new\s+RegExp\s*\((.*?)\)") text with
  | Some regExpConstructorMatch =>
    let arg := trim (group 1 regExpConstructorMatch) in
    if (startsWith arg "'" && endsWith arg "'")
       || (startsWith arg dquote && endsWith arg dquote)
    then Some (str_slice_1_m1 arg)
    else if startsWith arg backtick && endsWith arg backtick then
      let pattern := str_slice_1_m1 arg in
      (* the variables of the template string become wildcards *)
      Some (Str.replace true (literal "\${[^}]+}") ".*" pattern)
    else None
  | None => None
  end.

Definition unescapeRegexString (str : string) : string :=
  Str.replace true
    (literal ("\\([\\/" +:+ dquote +:+ "'" +:+ backtick +:+ "{}()[\]^$+*?.|])")) "$1" str.

Definition isValidRegexPattern (pattern : string) : bool :=
  try_catch (_ ← new_RegExp pattern; Returns true) false.

(** The third test of [processRegExpPattern]: a quoted or anchored step. *)
Definition quoted_or_anchored (step : string) : option string :=
  if startsWith step dquote || startsWith step "'" || startsWith step backtick
     || startsWith step "^"
  then
    let content := if startsWith step "^" then step else str_slice_1_m1 step in
    if includes content "${" then
      let pattern := Str.replace true (literal "\${[^}]+}") ".*" content in
      if isValidRegexPattern pattern then Some pattern else None
    else if includes content "\" then
      let unescaped := unescapeRegexString content in
      if isValidRegexPattern unescaped then Some unescaped else None
    else if startsWith content "^" then
      if isValidRegexPattern content then Some content else None
    else None
  else None.

(** The second test of [processRegExpPattern]: a regular expression
    literal between slashes. *)
Definition slashed (step : string) : option string :=
  if startsWith step "/"
     && bool_decide (is_Some (Str.match_ (literal "\/[gimsuy]*$") step))
  then
    let pattern :=
      match Str.match_ (literal "^\/(.*)\/[gimsuy]*$") step with
      | Some m => group 1 m
      | None => step
      end in
    if isValidRegexPattern pattern then Some pattern else None
  else None.

(** The first test of [processRegExpPattern]: a call of the constructor. *)
Definition constructed (step : string) : option string :=
  match isRegExpConstructor step with
  | Some pattern =>
    if truthy (Some pattern) then
      let unescaped := unescapeRegexString pattern in
      if isValidRegexPattern unescaped then Some unescaped else None
    else None
  | None => None
  end.

Definition processRegExpPattern (step : string) : option string :=
  match constructed step with
  | Some pattern => Some pattern
  | None =>
    match slashed step with
    | Some pattern => Some pattern
    | None => quoted_or_anchored step
    end
  end.

Definition isRegExpLiteral (step : string) : bool :=
  bool_decide (is_Some (processRegExpPattern step)).

Section Compiler.

Variable escapeRegExp : string -> string.

(** [getRegTextForStep] of the duplicate: a template that is a regular
    expression already is its own pattern text; the rest is the canonical
    function. *)
Definition getRegTextForStep (step : string) : string :=
  match processRegExpPattern step with
  | Some (String c p) => String c p
  | _ => getRegTextForStep escapeRegExp step
  end.

End Compiler.

End JsonSource.

(** ** Descriptions used by the statements *)


(** A template whose group of alternatives has a first branch that ends
    with the replacement pattern for the matched text. *)
Definition self_inserting_template (pre x y post : string) : string :=
  pre +:+ "(" +:+ x +:+ "$&|" +:+ y +:+ ")" +:+ post.

(** A text that is empty or ends with a character that is no white space,
    and a text of white space only. *)
Definition ends_trimmed (core : string) : Prop :=
  core = "" \/ exists c, last (Str.chars core) = Some c /\ Chr.is_space c = false.

Definition all_space (ws : string) : Prop :=
  Forall (fun c => Chr.is_space c = true) (Str.chars ws).

(** A text that is empty or ends with white space, and a text without
    white space. *)
Definition ends_with_space (typed : string) : Prop :=
  typed = "" \/ exists c, last (Str.chars typed) = Some c /\ Chr.is_space c = true.

Definition no_space (word : string) : Prop :=
  Forall (fun c => Chr.is_space c = false) (Str.chars word).

(** The steps that [getCompletion] offers for the typed words: those of
    the requested type, when [strictGherkinCompletion] is set, whose partial
    pattern matches the typed words. *)
Definition offered (this : StepsHandler) (gherkinPart : string) (lineNumber : nat)
    (text typed : string) : list Step :=
  List.filter (fun step => RegExp.test (partialReg step) typed)
    (List.filter (fun step =>
                    if strictGherkinCompletion (settings this)
                    then bool_decide (gherkin step
                                      = getStrictGherkinType this gherkinPart lineNumber text)
                    else true)
                 (elements this)).

(** A text without the caret it starts with, and without the dollar it
    ends with. *)
Definition without_start_caret (s : string) : string :=
  match s with
  | String c t => if isc c "^" then t else s
  | EmptyString => s
  end.

Definition without_end_dollar (s : string) : string :=
  match last (Str.chars s) with
  | Some c => if isc c "$" then Str.str (removelast (Str.chars s)) else s
  | None => s
  end.

(** A word: letters and digits, at least one. *)
Definition word_char (c : ascii) : bool := Chr.is_alpha c || Chr.is_digit c.

Definition word (w : string) : Prop :=
  w <> "" /\ Forall (fun c => word_char c = true) (Str.chars w).

(** What is on the line when the first [k] words of [ws] have been typed,
    each with a space after it. *)
Definition typed_words (k : nat) (ws : list string) : string :=
  match k with
  | 0 => ""
  | S _ => Str.join " " (take k ws) +:+ " "
  end.

(** The white space at the head of a text taken off, as [trim] does at
    both ends. *)
Fixpoint drop_space (l : list ascii) : list ascii :=
  match l with
  | c :: l' => if Chr.is_space c then drop_space l' else l
  | [] => []
  end.

(** The tree of a pattern made of the groups [(l|$)], one for each text
    [l] of the list, [gi] groups being open before. *)
Fixpoint or_end_groups (ls : list (list ascii)) (gi : nat) : RegExp.node :=
  match ls with
  | [] => RegExp.NEmpty
  | l :: ls' =>
    RegExp.NSeq
      (RegExp.NGroup (S gi)
         (RegExp.NAlt (literal_tree l) (RegExp.NSeq RegExp.NEol RegExp.NEmpty)))
      (or_end_groups ls' (S gi))
  end.

(** The text of that pattern. *)
Definition or_end_text (ls : list (list ascii)) : list ascii :=
  ls ≫= (fun l => chr "(" :: l ++ [chr "|"; chr "$"; chr ")"]).

(** The words of a step and the spaces between them, one text for each
    group of the partial pattern. *)
Fixpoint words_and_spaces (ws : list string) : list (list ascii) :=
  match ws with
  | [] => []
  | [w] => [Str.chars w]
  | w :: ws' => Str.chars w :: [chr " "] :: words_and_spaces ws'
  end.

(** ** Sample handlers for the concrete statements *)

(** An index built by [getSteps] from templates. *)
Definition indexed_handler (templates : list string) : StepsHandler :=
  {| elements :=
       templates ≫= (fun template =>
                       match sample_getSteps empty_handler template with
                       | Returns steps => steps
                       | Throws _ => []
                       end);
     elementsHash := ∅; elemenstCountHash := ∅; settings := sample_settings |}.

(** * Properties *)

(** ** The step lookup *)






(** ** Validation *)







(** ** The type of an And or But line *)

Section StrictType.

Variable this : StepsHandler.
Variable text : string.

(** One turn of the [reduceRight] of [getStrictGherkinType]. *)
Let turn (res : GherkinType.t) (val : string) : GherkinType.t :=
  if bool_decide (res = GherkinType.Other) then
    match getGherkinMatch this val text with
    | Some m =>
      let prevGherkinPartType := Gherkin.getGherkinTypeLower (group 2 m) in
      if bool_decide (prevGherkinPartType ∈
           [GherkinType.Given; GherkinType.When; GherkinType.Then])
      then prevGherkinPartType
      else res
    | None => res
    end
  else res.

Lemma inherited_type_not_other (l : string) (t : GherkinType.t) :
  inherited_type this text l = Some t -> t <> GherkinType.Other.
Proof.
  unfold inherited_type. destruct (getGherkinMatch this l text) as [m|]; [|done].
  simpl. case_bool_decide as Hin; [|done]. intros [= <-] Heq.
  rewrite Heq in Hin.
  repeat (apply elem_of_cons in Hin as [Hin|Hin]; [discriminate|]).
  by apply elem_of_nil in Hin.
Qed.

Lemma turn_other (l : string) :
  turn GherkinType.Other l = default GherkinType.Other (inherited_type this text l).
Proof.
  unfold turn, inherited_type. rewrite bool_decide_eq_true_2 by done.
  destruct (getGherkinMatch this l text) as [m|]; [|done].
  unfold Gherkin.getGherkinTypeLower. simpl. by case_bool_decide.
Qed.

Lemma turn_settled (t : GherkinType.t) (l : string) :
  t <> GherkinType.Other -> turn t l = t.
Proof. intros Ht. unfold turn. by rewrite bool_decide_eq_false_2. Qed.

Lemma scan_none (ls : list string) :
  Forall (fun l => inherited_type this text l = None) ls ->
  reduceRight turn GherkinType.Other ls = GherkinType.Other.
Proof.
  unfold reduceRight. induction 1 as [|l ls Hl _ IH]; simpl; [done|].
  rewrite IH, turn_other. by rewrite Hl.
Qed.

Lemma scan_settled (t : GherkinType.t) (ls : list string) :
  t <> GherkinType.Other -> foldr (fun a acc => turn acc a) t ls = t.
Proof.
  intros Ht. induction ls as [|l ls IH]; simpl; [done|].
  rewrite IH. by apply turn_settled.
Qed.

Lemma scan_last (pre post : list string) (l : string) (t : GherkinType.t) :
  inherited_type this text l = Some t ->
  Forall (fun l' => inherited_type this text l' = None) post ->
  reduceRight turn GherkinType.Other (pre ++ l :: post) = t.
Proof.
  intros Hl Hpost. unfold reduceRight. rewrite foldr_app. simpl.
  fold (reduceRight turn GherkinType.Other post). rewrite (scan_none _ Hpost).
  rewrite turn_other, Hl. simpl.
  apply scan_settled. by eapply inherited_type_not_other.
Qed.

Lemma getStrictGherkinType_unfold (gherkinPart : string) (lineNumber : nat) :
  getStrictGherkinType this gherkinPart lineNumber text =
  if bool_decide (Gherkin.classify gherkinPart = GherkinType.And)
     || bool_decide (Gherkin.classify gherkinPart = GherkinType.But)
  then reduceRight turn GherkinType.Other (take lineNumber (split_lines text))
  else Gherkin.classify gherkinPart.
Proof. reflexivity. Qed.

End StrictType.

(** C6. For a keyword that classifies as And or But, [getStrictGherkinType]
    returns the type handed down by the last line before [lineNumber] whose
    Gherkin match has a keyword that classifies as Given, When or Then (the
    first one met when the lines before [lineNumber] are read backwards),
    and Other when there is no such line; for any other keyword it returns
    the keyword's own classification.  In the document of the three lines
    [Given a user exists], [When they log in], [And they see a dashboard] the
    type of line 2 is When. *)
Theorem getStrictGherkinType_inherits (this : StepsHandler) (kw : string) (n : nat)
    (text : string) :
  ((Gherkin.classify kw = GherkinType.And \/ Gherkin.classify kw = GherkinType.But) ->
     (forall i l t,
        take n (split_lines text) !! i = Some l ->
        inherited_type this text l = Some t ->
        (forall j l', i < j -> take n (split_lines text) !! j = Some l' ->
                      inherited_type this text l' = None) ->
        getStrictGherkinType this kw n text = t)
     /\ ((forall l, l ∈ take n (split_lines text) -> inherited_type this text l = None) ->
         getStrictGherkinType this kw n text = GherkinType.Other))
  /\ (Gherkin.classify kw <> GherkinType.And -> Gherkin.classify kw <> GherkinType.But ->
      getStrictGherkinType this kw n text = Gherkin.classify kw)
  /\ getStrictGherkinType this "And" 2 three_line_document = GherkinType.When.
Proof.
  rewrite getStrictGherkinType_unfold.
  split; [intros H; split|split; [|by vm_compute]].
  - intros i l t Hi Hl Hlater.
    assert (Hsel : bool_decide (Gherkin.classify kw = GherkinType.And)
                   || bool_decide (Gherkin.classify kw = GherkinType.But) = true).
    { destruct H as [-> | ->]; by vm_compute. }
    rewrite Hsel.
    rewrite <- (take_drop_middle _ _ _ Hi). apply scan_last; [done|].
    apply Forall_forall. intros l' Hl'.
    apply list_elem_of_lookup in Hl' as [j Hj].
    rewrite lookup_drop in Hj. eapply Hlater; [|exact Hj]. lia.
  - intros Hnone.
    assert (Hsel : bool_decide (Gherkin.classify kw = GherkinType.And)
                   || bool_decide (Gherkin.classify kw = GherkinType.But) = true).
    { destruct H as [-> | ->]; by vm_compute. }
    rewrite Hsel. apply scan_none. by apply Forall_forall.
  - intros Hand Hbut. by rewrite !bool_decide_eq_false_2.
Qed.

(** The general part of [getStrictGherkinType_inherits] on the three-line
    document: line 1 hands down When to the And of line 2, line 0, which
    has nothing before it, leaves a But with Other, and a Then keeps its
    own type. *)
Lemma getStrictGherkinType_inherits_witness :
  getStrictGherkinType empty_handler "And" 2 three_line_document = GherkinType.When
  /\ getStrictGherkinType empty_handler "But" 0 three_line_document = GherkinType.Other
  /\ getStrictGherkinType empty_handler "Then" 2 three_line_document = GherkinType.Then.
Proof.
  destruct (getStrictGherkinType_inherits empty_handler "And" 2 three_line_document)
    as (Hand & _ & _).
  destruct (getStrictGherkinType_inherits empty_handler "But" 0 three_line_document)
    as (Hbut & _ & _).
  destruct (getStrictGherkinType_inherits empty_handler "Then" 2 three_line_document)
    as (_ & Hthen & _).
  split; [|split].
  - destruct (Hand (or_introl eq_refl)) as [Hlast _].
    apply (Hlast 1 "When they log in"); [by vm_compute|by vm_compute|].
    intros j l' Hj Hl'. apply lookup_lt_Some in Hl'. vm_compute in Hl'. lia.
  - destruct (Hbut (or_intror eq_refl)) as [_ Hnone].
    apply Hnone. intros l Hl. vm_compute in Hl. by apply elem_of_nil in Hl.
  - by apply Hthen.
Defined.

(** ** Building the steps of a template *)

Section GetSteps.

Variable escapeRegExp : string -> string.
Variable escaprRegExpForPureText : string -> string.
Variable getMD5Id : string -> string.
Variable getDocumentation : string -> string.

#[local] Abbreviation regText := (regTextFor escapeRegExp escaprRegExpForPureText).
#[local] Abbreviation partialText := (getPartialRegText escapeRegExp escaprRegExpForPureText).
#[local] Abbreviation contribution :=
  (steps_of_variant escapeRegExp escaprRegExpForPureText getMD5Id).
#[local] Abbreviation is_valid := (variant_is_valid escapeRegExp escaprRegExpForPureText).
#[local] Abbreviation to_step := (variant_to_step escapeRegExp escaprRegExpForPureText getMD5Id).

Lemma variant_is_valid_iff (s : Settings) (step : string) :
  is_valid s step = true <-> exists re, new_RegExp (regText s step) = Returns re.
Proof.
  unfold variant_is_valid. destruct (new_RegExp _) as [re|e]; simpl.
  - split; eauto.
  - split; [done|]. by intros [re Hre].
Qed.

Lemma variant_to_step_valid (this : StepsHandler) (desc : string) (def : Location)
    (g : GherkinType.t) (doc : string) (v : string) (re : RegExp.t) :
  new_RegExp (regText (settings this) v) = Returns re ->
  exists s, to_step this desc def g doc v = Returns s
            /\ contribution this desc def g doc v = [s].
Proof.
  intros Hre. unfold variant_to_step, steps_of_variant. cbv zeta. rewrite Hre. simpl.
  eexists. split; [reflexivity|].
  by destruct (new_RegExp (partialText _ _)).
Qed.

(** The steps that pass the filter are mapped without an exception: the
    [new RegExp] of the map callback has the argument that the filter
    callback has tried. *)
Lemma map_valid_variants (this : StepsHandler) (desc : string) (def : Location)
    (g : GherkinType.t) (doc : string) (variants : list string) :
  map_outcome (to_step this desc def g doc) (List.filter (is_valid (settings this)) variants)
  = Returns (variants ≫= contribution this desc def g doc).
Proof.
  induction variants as [|v variants IH]; simpl; [done|].
  destruct (is_valid (settings this) v) eqn:Hvalid.
  - apply variant_is_valid_iff in Hvalid as [re Hre].
    destruct (variant_to_step_valid this desc def g doc v re Hre) as (s & Hs & ->).
    simpl. rewrite Hs. simpl. rewrite IH. done.
  - rewrite IH. f_equal.
    assert (Hnil : contribution this desc def g doc v = []); [|by rewrite Hnil].
    unfold steps_of_variant. cbv zeta.
    destruct (new_RegExp (regText (settings this) v)) as [re|e] eqn:Hre; [|done].
    assert (is_valid (settings this) v = true) by (apply variant_is_valid_iff; eauto).
    congruence.
Qed.

(** C7. [getSteps] returns, without an exception, what its variants
    contribute one by one, in order.  A variant whose full pattern text is
    rejected by [new RegExp] contributes nothing and takes no other variant
    with it; a variant whose full pattern compiles and whose partial pattern
    text is rejected contributes its record, with the full pattern as the
    partial pattern. *)
Theorem getSteps_skips_and_falls_back (depth : nat) (this : StepsHandler)
    (fullStepLine stepPart : string) (def : Location) (g : GherkinType.t)
    (comments : gmap nat string) (variants : list string) :
  (if stepsInvariants (settings this)
   then getStepTextInvariants depth stepPart
   else Returns [stepPart]) = Returns variants ->
  exists desc doc,
    getSteps escapeRegExp escaprRegExpForPureText getMD5Id getDocumentation
             depth this fullStepLine stepPart def g comments
    = Returns (variants ≫= contribution this desc def g doc)
    /\ (forall v e,
          new_RegExp (regText (settings this) v) = Throws e ->
          contribution this desc def g doc v = [])
    /\ (forall v full e,
          new_RegExp (regText (settings this) v) = Returns full ->
          new_RegExp (partialText (settings this) v) = Throws e ->
          exists s, contribution this desc def g doc v = [s]
                    /\ reg s = full /\ partialReg s = full)
    /\ (forall v full partial,
          new_RegExp (regText (settings this) v) = Returns full ->
          new_RegExp (partialText (settings this) v) = Returns partial ->
          exists s, contribution this desc def g doc v = [s]
                    /\ reg s = full /\ partialReg s = partial).
Proof.
  intros Hvariants. unfold getSteps. rewrite Hvariants. simpl.
  eexists _, _. split; [apply map_valid_variants|].
  unfold steps_of_variant. repeat split.
  - intros v e ->. done.
  - intros v full e -> ->. eexists. by repeat split.
  - intros v full partial -> ->. eexists. by repeat split.
Qed.

End GetSteps.

(** [getSteps_skips_and_falls_back] on the template [x (a[|b +c|d)]: the
    branch [a[] gives a pattern text that [new RegExp] rejects, the branch
    [b +c] a full pattern that compiles and a partial pattern text, with the
    token [+c], that does not. *)
Lemma getSteps_skips_and_falls_back_witness :
  (exists desc doc,
     sample_getSteps empty_handler "x (a[|b +c|d)"
     = Returns (["x a["; "x b +c"; "x d"]
                  ≫= steps_of_variant escapeRegExp_model sample_pure_escape sample_md5
                       empty_handler desc (sample_location 0) GherkinType.Given doc)
     /\ (forall v e,
           new_RegExp (regTextFor escapeRegExp_model sample_pure_escape
                                  (settings empty_handler) v) = Throws e ->
           steps_of_variant escapeRegExp_model sample_pure_escape sample_md5
             empty_handler desc (sample_location 0) GherkinType.Given doc v = [])
     /\ (forall v full e,
           new_RegExp (regTextFor escapeRegExp_model sample_pure_escape
                                  (settings empty_handler) v) = Returns full ->
           new_RegExp (getPartialRegText escapeRegExp_model sample_pure_escape
                                         (settings empty_handler) v) = Throws e ->
           exists s, steps_of_variant escapeRegExp_model sample_pure_escape sample_md5
                       empty_handler desc (sample_location 0) GherkinType.Given doc v = [s]
                     /\ reg s = full /\ partialReg s = full)
     /\ (forall v full partial,
           new_RegExp (regTextFor escapeRegExp_model sample_pure_escape
                                  (settings empty_handler) v) = Returns full ->
           new_RegExp (getPartialRegText escapeRegExp_model sample_pure_escape
                                         (settings empty_handler) v) = Returns partial ->
           exists s, steps_of_variant escapeRegExp_model sample_pure_escape sample_md5
                       empty_handler desc (sample_location 0) GherkinType.Given doc v = [s]
                     /\ reg s = full /\ partialReg s = partial))
  /\ (fun s => (text s, RegExp.source (reg s), RegExp.source (partialReg s)))
       <$> default [] (match sample_getSteps empty_handler "x (a[|b +c|d)" with
                       | Returns l => Some l
                       | Throws _ => None
                       end)
     = [ ("x b +c", "x b +c", "x b +c");
         ("x d", "x d", "^(x|$)( |$)(d|$)") ].
Proof.
  split.
  - apply (getSteps_skips_and_falls_back escapeRegExp_model sample_pure_escape sample_md5
             sample_documentation 8 empty_handler "x (a[|b +c|d)" "x (a[|b +c|d)"
             (sample_location 0) GherkinType.Given ∅ ["x a["; "x b +c"; "x d"]).
    vm_compute. reflexivity.
  - vm_compute. reflexivity.
Defined.

(** ** Building the index *)

Lemma elem_of_fmap_rev {A B} (f : A -> B) (l : list A) (y : B) :
  y ∈ f <$> rev l <-> y ∈ f <$> l.
Proof.
  rewrite !list_elem_of_fmap. split; intros (x & -> & Hx); exists x; split; try done.
  - apply list_elem_of_In. apply list_elem_of_In in Hx. by apply in_rev.
  - apply list_elem_of_In. apply list_elem_of_In in Hx. by apply in_rev in Hx.
Qed.

Lemma first_by_id_app (seen : list string) (l1 l2 : list Step) :
  first_by_id seen (l1 ++ l2)
  = first_by_id seen l1 ++ first_by_id ((id <$> rev (first_by_id seen l1)) ++ seen) l2.
Proof.
  revert seen. induction l1 as [|s l1 IH]; intros seen; simpl; [done|].
  case_bool_decide as Hs.
  - apply IH.
  - simpl. rewrite IH. f_equal. f_equal.
    rewrite fmap_app. simpl. by rewrite <- app_assoc.
Qed.

Lemma first_by_id_seen_perm (seen seen' : list string) (l : list Step) :
  (forall i, i ∈ seen <-> i ∈ seen') -> first_by_id seen l = first_by_id seen' l.
Proof.
  revert seen seen'. induction l as [|s l IH]; intros seen seen' Heq; simpl; [done|].
  rewrite (bool_decide_ext _ _ (Heq (id s))).
  case_bool_decide; [by apply IH|].
  f_equal. apply IH. intros i. rewrite !elem_of_cons. by rewrite Heq.
Qed.

Lemma first_by_id_fresh (seen : list string) (l : list Step) :
  forall s, s ∈ first_by_id seen l -> id s ∉ seen.
Proof.
  revert seen. induction l as [|s' l IH]; intros seen s; simpl.
  - by intros ?%elem_of_nil.
  - case_bool_decide as Hs'; [by apply IH|].
    intros [->|Hin]%elem_of_cons; [done|].
    apply IH in Hin. intros Hseen. apply Hin. by right.
Qed.

Lemma first_by_id_NoDup (seen : list string) (l : list Step) :
  NoDup (id <$> first_by_id seen l).
Proof.
  revert seen. induction l as [|s l IH]; intros seen; simpl; [constructor|].
  case_bool_decide as Hs; [apply IH|].
  simpl. constructor; [|apply IH].
  intros (s' & Hid & Hin)%list_elem_of_fmap.
  apply first_by_id_fresh in Hin. apply Hin. rewrite <- Hid. by left.
Qed.

(** The inner [reduce] of [populate] keeps the steps of a file that are the
    first with their id, given the ids recorded so far. *)
Lemma add_new_steps_first (hash : gmap string bool) (seen : list string)
    (fileSteps acc : list Step) :
  (forall i, default false (hash !! i) = true <-> i ∈ seen) ->
  let r := fold_left (fun acc step =>
                        let '(steps, hash) := acc in
                        if negb (default false (hash !! id step))
                        then (steps ++ [step], <[id step := true]> hash)
                        else (steps, hash))
                     fileSteps (acc, hash) in
  fst r = acc ++ first_by_id seen fileSteps
  /\ (forall i, default false (snd r !! i) = true
                <-> i ∈ (id <$> rev (first_by_id seen fileSteps)) ++ seen).
Proof.
  revert hash seen acc. induction fileSteps as [|s l IH]; intros hash seen acc Hhash; simpl.
  - split; [by rewrite app_nil_r|done].
  - destruct (default false (hash !! id s)) eqn:Hs; simpl.
    + rewrite bool_decide_eq_true_2 by by apply Hhash.
      by apply IH.
    + rewrite bool_decide_eq_false_2.
      2:{ intros Hin. apply Hhash in Hin. congruence. }
      destruct (IH (<[id s := true]> hash) (id s :: seen) (acc ++ [s])) as [IH1 IH2].
      { intros i. rewrite elem_of_cons. destruct (decide (id s = i)) as [<-|Hne].
        - rewrite lookup_insert_eq. simpl. tauto.
        - rewrite lookup_insert_ne by done. rewrite Hhash. intuition congruence. }
      split.
      * rewrite IH1. by rewrite <- app_assoc.
      * intros i. rewrite IH2. simpl. rewrite fmap_app. simpl.
        rewrite <- app_assoc. done.
Qed.

Section Populate.

Variable escapeRegExp : string -> string.
Variable escaprRegExpForPureText : string -> string.
Variable getMD5Id : string -> string.
Variable getDocumentation : string -> string.
Variable getOSPath : string -> string.
Variable getFileContent : string -> string.
Variable clearComments : string -> string.
Variable glob_sync : string -> list string.

#[local] Abbreviation file_steps :=
  (getFileSteps escapeRegExp escaprRegExpForPureText getMD5Id getDocumentation
                getOSPath getFileContent clearComments).
#[local] Abbreviation collect :=
  (collect_steps escapeRegExp escaprRegExpForPureText getMD5Id getDocumentation
                 getOSPath getFileContent clearComments).

(** The outer [reduce] of [populate], from any point on. *)
Lemma collect_from (depth : nat) (this : StepsHandler) (files : list string)
    (els : list Step) (hash : gmap string bool) (seen : list string)
    (els' : list Step) (hash' : gmap string bool) :
  (forall i, default false (hash !! i) = true <-> i ∈ seen) ->
  fold_left (fun acc f =>
               '(elements, hash) ← acc;
               fileSteps ← file_steps depth this f;
               let '(steps, hash') := add_new_steps hash fileSteps in
               Returns (elements ++ steps, hash'))
            files (Returns (els, hash)) = Returns (els', hash') ->
  exists perFile,
    Forall2 (fun f steps => file_steps depth this f = Returns steps) files perFile
    /\ els' = els ++ first_by_id seen (concat perFile)
    /\ (forall i, default false (hash' !! i) = true
                  <-> i ∈ (id <$> first_by_id seen (concat perFile)) ++ seen).
Proof.
  revert els hash seen. induction files as [|f files IH]; intros els hash seen Hhash; simpl.
  - intros [= <- <-]. exists []. split; [constructor|]. split; [by rewrite app_nil_r|done].
  - destruct (file_steps depth this f) as [fs|e] eqn:Hf; simpl.
    + unfold add_new_steps.
      pose proof (add_new_steps_first hash seen fs [] Hhash) as Hadd. simpl in Hadd.
      destruct (fold_left _ fs ([], hash)) as [steps hash1] eqn:Hfold.
      simpl in Hadd. destruct Hadd as [-> Hhash1].
      intros Hrest.
      destruct (IH _ _ _ Hhash1 Hrest) as (perFile & Hall & -> & Hhash').
      exists (fs :: perFile). simpl. split; [by constructor|].
      rewrite first_by_id_app. split; [by rewrite app_assoc|].
      intros i. rewrite Hhash'. rewrite fmap_app.
      rewrite !elem_of_app, elem_of_fmap_rev. tauto.
    + intros Hthrow. exfalso. clear -Hthrow.
      induction files as [|f' files IHf]; simpl in Hthrow; [done|].
      by apply IHf.
Qed.

(** C8. When [populate] returns, the ids of the element list are pairwise
    distinct: the list holds, in the order of processing, the steps
    extracted from the files that are the first with their id, and every
    later step with an id already met, from the same file or another, is
    left out.  So an id of the index belongs to one single element. *)
Theorem populate_first_occurrence_wins (depth : nat) (this : StepsHandler)
    (root : string) (stepsPathes : list string) (this' : StepsHandler) :
  populate escapeRegExp escaprRegExpForPureText getMD5Id getDocumentation
           getOSPath getFileContent clearComments glob_sync
           depth this root stepsPathes = Returns this' ->
  exists files perFile,
    Forall2 (fun f steps => file_steps depth this f = Returns steps) files perFile
    /\ elements this' = first_by_id [] (concat perFile)
    /\ NoDup (id <$> elements this')
    /\ (forall i j s1 s2,
          elements this' !! i = Some s1 -> elements this' !! j = Some s2 ->
          id s1 = id s2 -> i = j /\ s1 = s2)
    /\ (forall s, s ∈ elements this' -> elementsHash this' !! id s = Some true).
Proof.
  unfold populate. intros Hpop.
  destruct (collect_steps _ _ _ _ _ _ _ _ _ _) as [[els hash]|e] eqn:Hcollect;
    simpl in Hpop; [|done].
  injection Hpop as <-. simpl.
  unfold collect_steps in Hcollect.
  eapply (collect_from _ _ _ [] ∅ []) in Hcollect as (perFile & Hall & -> & Hhash).
  2:{ intros i. rewrite lookup_empty. simpl. split; [done|by intros ?%elem_of_nil]. }
  simpl. eexists _, perFile. split; [exact Hall|].
  assert (Hnodup : NoDup (id <$> first_by_id [] (concat perFile)))
    by apply first_by_id_NoDup.
  repeat split; try done.
  - assert (Hij : (id <$> first_by_id [] (concat perFile)) !! i = Some (id s1)).
    { rewrite list_lookup_fmap. by rewrite H. }
    assert (Hji : (id <$> first_by_id [] (concat perFile)) !! j = Some (id s1)).
    { rewrite list_lookup_fmap. rewrite H0. simpl. by rewrite H1. }
    eapply NoDup_lookup; eauto.
  - assert (i = j); [|subst; congruence].
    assert (Hij : (id <$> first_by_id [] (concat perFile)) !! i = Some (id s1)).
    { rewrite list_lookup_fmap. by rewrite H. }
    assert (Hji : (id <$> first_by_id [] (concat perFile)) !! j = Some (id s1)).
    { rewrite list_lookup_fmap. rewrite H0. simpl. by rewrite H1. }
    eapply NoDup_lookup; eauto.
  - intros s Hs.
    assert (Hd : default false (hash !! id s) = true).
    { apply Hhash. rewrite app_nil_r. by apply list_elem_of_fmap_2. }
    destruct (hash !! id s) as [[]|]; simpl in Hd; congruence.
Qed.

End Populate.

(** [populate_first_occurrence_wins] on two files: the second defines
    [I go one] again, which the expansion of [I go (one|two)] in the first
    has given already. *)
Lemma populate_first_occurrence_wins_witness :
  exists this',
    sample_populate ["a.js"; "b.js"] = Returns this'
    /\ id <$> elements this'
       = ["stepI go one"; "stepI go two"; "stepI do (.*)"; "stepI see {int} things"]
    /\ NoDup (id <$> elements this').
Proof.
  destruct (sample_populate ["a.js"; "b.js"]) as [this'|e] eqn:Hpop;
    [|by vm_compute in Hpop].
  exists this'. split; [done|]. split.
  - vm_compute in Hpop. injection Hpop as <-. reflexivity.
  - destruct (populate_first_occurrence_wins _ _ _ _ _ _ _ _ _ _ _ _ _ Hpop)
      as (files & perFile & _ & _ & Hnodup & _).
    exact Hnodup.
Defined.

(** ** Pattern text and display text *)

Section RoundTrip.

Variable escapeRegExp : string -> string.

(** What is assumed of [escapeRegExp]: it only adds backslashes. *)
Hypothesis escapeRegExp_adds_backslashes :
  forall str, without_backslashes (escapeRegExp str) = without_backslashes str.

Lemma getTextForStep_escapeRegExp (step : string) :
  getTextForStep (escapeRegExp step) = getTextForStep step.
Proof.
  unfold getTextForStep. cbv zeta.
  fold (without_backslashes (escapeRegExp step)). fold (without_backslashes step).
  by rewrite escapeRegExp_adds_backslashes.
Qed.

(** C2, on the code.  Whatever backslashes [escapeRegExp] adds, compiling
    [I have] followed by a placeholder and turning the pattern text back
    with [getTextForStep] gives the template again for [{int}], [{float}] and
    [{string}].  For [{word}] and [{stringInDoubleQuotes}] it gives the
    sub-pattern without its backslashes: the patterns that should restore
    them have the caret of the character class unescaped, which outside a
    class only matches at the start of the text. *)
Theorem getTextForStep_of_compiled_placeholders :
  getTextForStep (getRegTextForStep escapeRegExp "I have {int}") = "I have {int}"
  /\ getTextForStep (getRegTextForStep escapeRegExp "I have {float}") = "I have {float}"
  /\ getTextForStep (getRegTextForStep escapeRegExp "I have {string}") = "I have {string}"
  /\ getTextForStep (getRegTextForStep escapeRegExp "I have {word}") = "I have [^s]+"
  /\ getTextForStep (getRegTextForStep escapeRegExp "I have {stringInDoubleQuotes}")
     = "I have " +:+ dquote +:+ "[^" +:+ dquote +:+ "]+" +:+ dquote.
Proof.
  unfold getRegTextForStep. rewrite !getTextForStep_escapeRegExp.
  repeat split; by vm_compute.
Qed.

End RoundTrip.

Lemma getTextForStep_of_compiled_placeholders_witness :
  getTextForStep (getRegTextForStep escapeRegExp_model "I have {int}") = "I have {int}"
  /\ getTextForStep (getRegTextForStep escapeRegExp_model "I have {float}") = "I have {float}"
  /\ getTextForStep (getRegTextForStep escapeRegExp_model "I have {string}") = "I have {string}"
  /\ getTextForStep (getRegTextForStep escapeRegExp_model "I have {word}") = "I have [^s]+"
  /\ getTextForStep (getRegTextForStep escapeRegExp_model "I have {stringInDoubleQuotes}")
     = "I have " +:+ dquote +:+ "[^" +:+ dquote +:+ "]+" +:+ dquote.
Proof.
  apply (getTextForStep_of_compiled_placeholders escapeRegExp_model).
  intros str. reflexivity.
Defined.

(** ** The partial pattern *)

Section PartialPattern.

Variable escapeRegExp : string -> string.
Variable escaprRegExpForPureText : string -> string.
Variable getMD5Id : string -> string.
Variable getDocumentation : string -> string.

(** What is assumed of [escapeRegExp]: it leaves the pattern text of
    [I have {string}] as it is. *)
Hypothesis escapeRegExp_keeps_pattern :
  escapeRegExp have_string_pattern = have_string_pattern.

(** C3, on the code.  The step that [getSteps] builds for the template
    [I have {string}] has a full pattern that matches the whole of the line
    [I have] followed by a quoted [x], and a partial pattern that does not
    match that line, which is a prefix of itself ending at a token boundary.
    In the partial pattern every token stands in a group of its own, so the
    back-reference of the [{string}] sub-pattern no longer points at its
    quote but at the first token. *)
Theorem partial_pattern_misses_full_match (depth : nat) (this : StepsHandler)
    (def : Location) (g : GherkinType.t) (comments : gmap nat string) :
  pureTextSteps (settings this) = false ->
  exists s,
    getSteps escapeRegExp escaprRegExpForPureText getMD5Id getDocumentation
             (S depth) this "I have {string}" "I have {string}" def g comments
    = Returns [s]
    /\ RegExp.source (reg s) = have_string_pattern
    /\ RegExp.exec (reg s) have_quoted_x
       = Some (RegExp.MResult 0 (String.length have_quoted_x) have_quoted_x [Some dquote])
    /\ RegExp.test (reg s) have_quoted_x = true
    /\ RegExp.test (partialReg s) have_quoted_x = false
    /\ RegExp.test (partialReg s) "I have" = true.
Proof.
  intros Hpure.
  assert (Hreg : regTextFor escapeRegExp escaprRegExpForPureText (settings this)
                            "I have {string}" = have_string_pattern).
  { unfold regTextFor, getRegTextForStep. rewrite Hpure.
    change (regTextBeforeEscape "I have {string}") with have_string_pattern.
    apply escapeRegExp_keeps_pattern. }
  assert (Hpartial : getPartialRegText escapeRegExp escaprRegExpForPureText (settings this)
                       "I have {string}"
                     = "^(I|$)( |$)(have|$)( |$)((" +:+ dquote +:+ "|')[^\1]*\1|$)").
  { unfold getPartialRegText, getPartialRegParts. fold (regTextFor escapeRegExp
      escaprRegExpForPureText (settings this) "I have {string}"). rewrite Hreg.
    by vm_compute. }
  assert (Hvariants :
            (if stepsInvariants (settings this)
             then getStepTextInvariants (S depth) "I have {string}"
             else Returns ["I have {string}"]) = Returns ["I have {string}"]).
  { destruct (stepsInvariants (settings this)); [|done]. by vm_compute. }
  unfold getSteps. rewrite Hvariants.
  unfold mbind at 1, outcome_bind at 1. cbv beta iota zeta.
  rewrite map_valid_variants. simpl.
  unfold steps_of_variant. cbv zeta. rewrite Hreg, Hpartial.
  destruct (new_RegExp have_string_pattern) as [re|e] eqn:Hre; [|by vm_compute in Hre].
  vm_compute in Hre. injection Hre as <-.
  eexists. split; [reflexivity|]. simpl.
  repeat split; by vm_compute.
Qed.

End PartialPattern.

Lemma partial_pattern_misses_full_match_witness :
  exists s,
    sample_getSteps empty_handler "I have {string}" = Returns [s]
    /\ RegExp.source (reg s) = have_string_pattern
    /\ RegExp.exec (reg s) have_quoted_x
       = Some (RegExp.MResult 0 (String.length have_quoted_x) have_quoted_x [Some dquote])
    /\ RegExp.test (reg s) have_quoted_x = true
    /\ RegExp.test (partialReg s) have_quoted_x = false
    /\ RegExp.test (partialReg s) "I have" = true.
Proof.
  apply (partial_pattern_misses_full_match escapeRegExp_model sample_pure_escape sample_md5
           sample_documentation eq_refl 7 empty_handler (sample_location 0)
           GherkinType.Given ∅ eq_refl).
Defined.

(** ** Scenario outlines *)

(** [reduce] with a callback that folds a list depending on the element and
    its index is the fold over the concatenation of these lists. *)
Lemma reduce_concat {A B C} (f : B -> A -> nat -> list A -> B) (g : nat -> A -> list C)
    (ins : B -> C -> B) (arr : list A) (init : B) :
  (forall acc a i, f acc a i arr = fold_left ins (g i a) acc) ->
  reduce f init arr = fold_left ins (concat (imap g arr)) init.
Proof.
  intros Hf. unfold reduce.
  enough (Hgen : forall (l : list A) (k : nat) (acc : B),
             fold_left (fun acc ia => f acc (snd ia) (fst ia) arr)
                       (imap (fun i => pair (k + i)) l) acc
             = fold_left ins (concat (imap (fun i => g (k + i)) l)) acc).
  { apply (Hgen arr 0 init). }
  induction l as [|a l IH]; intros k acc; simpl; [done|].
  rewrite fold_left_app, Nat.add_0_r, Hf.
  rewrite (imap_ext ((fun i => pair (k + i)) ∘ S) (fun i => pair (S k + i)) l).
  2:{ intros i x _. simpl. f_equal. lia. }
  rewrite (imap_ext ((fun i => g (k + i)) ∘ S) (fun i => g (S k + i)) l).
  2:{ intros i x _. simpl. f_equal. lia. }
  apply (IH (S k)).
Qed.

Lemma fold_bind_absent (l : list (string * string)) (res : gmap string string) (n : string) :
  n ∉ l.*1 -> fold_left bind l res !! n = res !! n.
Proof.
  revert res. induction l as [|[k v] l IH]; intros res Hn; simpl; [done|].
  rewrite IH.
  - unfold bind. simpl. apply lookup_insert_ne. intros ->. apply Hn. by left.
  - intros Hin. apply Hn. by right.
Qed.

Lemma fold_bind_last (pre post : list (string * string)) (res : gmap string string)
    (n v : string) :
  n ∉ post.*1 -> fold_left bind (pre ++ (n, v) :: post) res !! n = Some v.
Proof.
  intros Hn. rewrite fold_left_app. simpl.
  rewrite fold_bind_absent by done. unfold bind. simpl. apply lookup_insert_eq.
Qed.

Lemma getOutlineVars_bindings (text : string) :
  getOutlineVars text = fold_left bind (all_bindings (split_lines text)) ∅.
Proof.
  unfold getOutlineVars, all_bindings.
  apply reduce_concat. intros acc a i. unfold table_bindings.
  destruct (is_examples_header a && truthy (split_lines text !! (i + 2))); [|done].
  cbv zeta. apply reduce_concat. intros res n j. unfold bind_column.
  by destruct (truthy _).
Qed.




(** ** The matcher: failure *)

Import RegExp.

Lemma chr_eqb_false (a b : ascii) : Chr.eqb false a b = Ascii.eqb a b.
Proof. reflexivity. Qed.

Lemma strip_prefix_suffix (ic : bool) (s r t : list ascii) :
  strip_prefix ic s r = Some t -> t `suffix_of` r.
Proof.
  revert r. induction s as [|a s IH]; intros r; simpl.
  - by intros [= ->].
  - destruct r as [|b r]; [done|]. destruct (Chr.eqb ic a b); [|done].
    intros Hs. apply suffix_cons_r. by apply IH.
Qed.

Lemma clear_caps_rest (gs : list nat) (x : mstate) : ms_rest (clear_caps gs x) = ms_rest x.
Proof. reflexivity. Qed.

Lemma fails_ahead_suffix (k : cont) (x y : mstate) :
  fails_ahead k x -> ms_rest y `suffix_of` ms_rest x -> fails_ahead k y.
Proof. intros Hk Hy z Hz. apply Hk. by etrans. Qed.

Lemma repeat_matcher_none (mb : cont -> cont) (gs : list nat) :
  (forall k x, fails_ahead k x -> mb k x = None) ->
  forall fuel mn mx greedy k x,
    fails_ahead k x -> repeat_matcher mb gs fuel mn mx greedy k x = None.
Proof.
  intros Hmb. induction fuel as [|fuel IH]; intros mn mx greedy k x Hk; simpl; [done|].
  assert (Hkx : k x = None) by by apply Hk.
  assert (Hbody : mb (fun y => if (mn =? 0) && (ms_pos y =? ms_pos x) then None
                               else repeat_matcher mb gs fuel (pred mn) (pred <$> mx) greedy k y)
                     (clear_caps gs x) = None).
  { apply Hmb. intros y Hy. destruct ((mn =? 0) && _); [done|].
    apply IH. by eapply fails_ahead_suffix. }
  destruct mx as [[|mx]|]; [done| |].
  - destruct (negb (mn =? 0)); [done|]. destruct greedy; by rewrite ?Hbody, ?Hkx.
  - destruct (negb (mn =? 0)); [done|]. destruct greedy; by rewrite ?Hbody, ?Hkx.
Qed.

Lemma matcher_none (ic : bool) (r : node) (k : cont) (x : mstate) :
  fails_ahead k x -> matcher ic r k x = None.
Proof.
  revert k x. induction r as [| c | | neg items | a IHa b IHb | a IHa b IHb
                              | mn mx g a IHa | i a IHa | i | | | neg | neg a IHa];
    intros k x Hk; cbn [matcher].
  - by apply Hk.
  - destruct (ms_rest x) as [|a t] eqn:Hx; [done|]. destruct (Chr.eqb ic c a); [|done].
    apply Hk. simpl. rewrite Hx. by apply suffix_cons_r.
  - destruct (ms_rest x) as [|a t] eqn:Hx; [done|].
    destruct (Chr.is_line_terminator a); [done|].
    apply Hk. simpl. rewrite Hx. by apply suffix_cons_r.
  - destruct (ms_rest x) as [|a t] eqn:Hx; [done|].
    destruct (in_class ic neg items a); [|done].
    apply Hk. simpl. rewrite Hx. by apply suffix_cons_r.
  - apply IHa. intros y Hy. apply IHb. by eapply fails_ahead_suffix.
  - rewrite IHa by done. by apply IHb.
  - by apply repeat_matcher_none.
  - apply IHa. intros y Hy. by apply Hk.
  - destruct (ms_caps x !! i) as [[s|]|]; try by apply Hk.
    destruct (strip_prefix ic s (ms_rest x)) as [t|] eqn:Ht; [|done].
    apply Hk. simpl. by eapply strip_prefix_suffix.
  - destruct (ms_pos x =? 0); [|done]. by apply Hk.
  - destruct (ms_rest x); [|done]. by apply Hk.
  - destruct (xorb neg _); [|done]. by apply Hk.
  - destruct (matcher ic a Some x) as [y|]; destruct neg; try done; by apply Hk.
Qed.

(** A pattern that needs a character fails on an input without it. *)
Lemma matcher_needs (c : ascii) (r : node) :
  needs c r = true ->
  forall k x, c ∉ ms_rest x -> matcher false r k x = None.
Proof.
  induction r as [| c' | | neg items | a IHa b IHb | a IHa b IHb
                  | mn mx g a IHa | i a IHa | i | | | neg | neg a IHa];
    cbn [matcher needs]; try done; intros Hneeds k x Hc.
  - apply Ascii.eqb_eq in Hneeds as <-.
    destruct (ms_rest x) as [|a t] eqn:Hx; [done|].
    rewrite chr_eqb_false. destruct (Ascii.eqb_spec c a) as [<-|]; [|done].
    exfalso. apply Hc. by left.
  - apply orb_true_iff in Hneeds as [Ha|Hb]; [by apply IHa|].
    apply matcher_none. intros y Hy. apply IHb; [done|].
    intros Hin. apply Hc. destruct Hy as [l ->]. apply elem_of_app. by right.
  - apply andb_true_iff in Hneeds as [Ha Hb]. rewrite IHa by done. by apply IHb.
  - apply andb_true_iff in Hneeds as [Hq Ha]. apply andb_true_iff in Hq as [Hmn Hmx].
    apply negb_true_iff in Hmx. apply bool_decide_eq_false in Hmx.
    cbn [repeat_matcher]. rewrite Hmn. destruct mx as [[|mx]|]; try done; by apply IHa.
  - by apply IHa.
  - destruct neg; [done|]. by rewrite IHa.
Qed.

(** ** Strings and lists of characters *)

Lemma str_chars (s : string) : Str.str (Str.chars s) = s.
Proof. apply string_of_list_ascii_of_string. Qed.

Lemma chars_str (l : list ascii) : Str.chars (Str.str l) = l.
Proof. apply list_ascii_of_string_of_list_ascii. Qed.

Lemma chars_app (a b : string) : Str.chars (a +:+ b) = Str.chars a ++ Str.chars b.
Proof.
  unfold Str.chars. induction a as [|c a IH]; simpl; [done|]. by rewrite <- IH.
Qed.

Lemma str_app (a b : list ascii) : Str.str (a ++ b) = Str.str a +:+ Str.str b.
Proof.
  unfold Str.str. induction a as [|c a IH]; simpl; [done|]. by rewrite IH.
Qed.

Lemma chars_inj (a b : string) : Str.chars a = Str.chars b -> a = b.
Proof. intros H. by rewrite <- (str_chars a), <- (str_chars b), H. Qed.

Lemma length_chars (s : string) : length (Str.chars s) = String.length s.
Proof.
  unfold Str.chars. induction s as [|c s IH]; simpl; [done|]. by rewrite <- IH.
Qed.

Lemma plain_app (a b : string) : plain (a +:+ b) <-> plain a /\ plain b.
Proof. unfold plain. rewrite chars_app. apply Forall_app. Qed.

Lemma plain_absent (s : string) (c : ascii) :
  plain s -> plain_char c = false -> c ∉ Str.chars s.
Proof.
  intros Hs Hc Hin. unfold plain in Hs. rewrite Forall_forall in Hs.
  apply Hs in Hin. congruence.
Qed.

(** ** Patterns without a match *)

Lemma exec_from_needs (c : ascii) (re : RegExp.t) :
  needs c (RegExp.tree re) = true -> RegExp.ignoreCase re = false ->
  forall rest pos prev, c ∉ rest -> RegExp.exec_from re pos prev rest = None.
Proof.
  intros Hneeds Hic. induction rest as [|a rest IH]; intros pos prev Hc; simpl.
  - unfold RegExp.match_here. rewrite Hic. by rewrite (matcher_needs c).
  - unfold RegExp.match_here. rewrite Hic. rewrite (matcher_needs c) by done.
    apply IH. intros Hin. apply Hc. by right.
Qed.

Lemma matches_needs (c : ascii) (global : bool) (re : RegExp.t) (s : string) :
  needs c (RegExp.tree re) = true -> RegExp.ignoreCase re = false ->
  c ∉ Str.chars s -> Str.matches global re s = [].
Proof.
  intros Hneeds Hic Hc. unfold Str.matches. destruct global.
  - rewrite Nat.add_comm. simpl. unfold Str.exec_at. simpl.
    by rewrite (exec_from_needs c).
  - unfold RegExp.exec. by rewrite (exec_from_needs c).
Qed.

Lemma replace_needs (c : ascii) (global : bool) (re : RegExp.t) (tpl s : string) :
  needs c (RegExp.tree re) = true -> RegExp.ignoreCase re = false ->
  c ∉ Str.chars s -> Str.replace global re tpl s = s.
Proof.
  intros Hneeds Hic Hc. unfold Str.replace. rewrite (matches_needs c) by done.
  simpl. apply str_chars.
Qed.

Lemma replace_fn_needs (c : ascii) (global : bool) (re : RegExp.t)
    (fn : RegExp.mresult -> string) (s : string) :
  needs c (RegExp.tree re) = true -> RegExp.ignoreCase re = false ->
  c ∉ Str.chars s -> Str.replace_fn global re fn s = s.
Proof.
  intros Hneeds Hic Hc. unfold Str.replace_fn. rewrite (matches_needs c) by done.
  simpl. apply str_chars.
Qed.

Lemma match_needs (c : ascii) (re : RegExp.t) (s : string) :
  needs c (RegExp.tree re) = true -> RegExp.ignoreCase re = false ->
  c ∉ Str.chars s -> Str.match_ re s = None.
Proof.
  intros Hneeds Hic Hc. unfold Str.match_, RegExp.exec. by rewrite (exec_from_needs c).
Qed.

(** The steps of [getRegTextForStep] before [escapeRegExp] leave a plain
    template as it is. *)
Lemma regTextBeforeEscape_plain (step : string) :
  plain step -> regTextBeforeEscape step = step.
Proof.
  intros Hplain. unfold regTextBeforeEscape, replace_special, specialParameters.
  cbn [fold_left fst snd].
  rewrite (replace_needs (chr "#") _ _ _ step);
    [|by vm_compute|by vm_compute|by apply plain_absent].
  do 5 (rewrite (replace_needs (chr "{") _ _ _ step);
        [|by vm_compute|by vm_compute|by apply plain_absent]).
  rewrite (replace_needs (chr "(") _ _ _ step);
    [|by vm_compute|by vm_compute|by apply plain_absent].
  rewrite (replace_fn_needs (chr "/") _ _ _ step);
    [|by vm_compute|by vm_compute|by apply plain_absent].
  rewrite (replace_needs (chr "{") _ _ _ step);
    [|by vm_compute|by vm_compute|by apply plain_absent].
  done.
Qed.

(** ** Reading and matching a literal pattern *)

Lemma isc_plain (c : ascii) (lit : string) :
  plain_char c = true -> plain_char (chr lit) = false -> isc c lit = false.
Proof.
  intros Hc Hlit. unfold isc. destruct (Ascii.eqb_spec c (chr lit)) as [->|]; [|done].
  congruence.
Qed.

Lemma read_quantifier_plain (r : list ascii) :
  Forall (fun c => plain_char c = true) r -> read_quantifier r = POk (None, r).
Proof.
  intros Hr. destruct Hr as [|c r Hc _]; [done|].
  unfold read_quantifier.
  by rewrite !(isc_plain c) by done.
Qed.

Lemma read_term_plain (fuel total gi : nat) (c : ascii) (r : list ascii) :
  plain_char c = true -> Forall (fun c => plain_char c = true) r ->
  read_term (S fuel) total gi (c :: r) = POk (NChar c, gi, r).
Proof.
  intros Hc Hr. cbn [read_term].
  rewrite !(isc_plain c) by done. cbn [orb].
  by rewrite read_quantifier_plain.
Qed.

Lemma read_alternative_cons (fuel total gi : nat) (c : ascii) (r : list ascii) :
  read_alternative (S fuel) total gi (c :: r)
  = if isc c "|" || isc c ")" then POk (NEmpty, gi, c :: r)
    else '(t, gi1, r1) ← read_term fuel total gi (c :: r);
         '(a, gi2, r2) ← read_alternative fuel total gi1 r1;
         POk (NSeq t a, gi2, r2).
Proof. reflexivity. Qed.

Lemma read_alternative_plain (total : nat) (l : list ascii) :
  Forall (fun c => plain_char c = true) l ->
  forall fuel gi, length l < fuel ->
    read_alternative fuel total gi l = POk (literal_tree l, gi, []).
Proof.
  induction 1 as [|c l Hc Hl IH]; intros fuel gi Hfuel.
  - destruct fuel; [lia|]. done.
  - destruct fuel as [|[|fuel]]; simpl in Hfuel; [lia..|].
    rewrite read_alternative_cons. rewrite !(isc_plain c) by done. cbn [orb].
    rewrite read_term_plain by done. cbn [mbind presult_bind pbind].
    rewrite IH by lia. done.
Qed.

Lemma parse_plain (l : list ascii) :
  Forall (fun c => plain_char c = true) l -> parse l = POk (literal_tree l, 0).
Proof.
  intros Hl. unfold parse.
  replace (3 * length l + 3) with (S (S (3 * length l + 1))) by lia.
  cbn [read_disjunction]. rewrite read_alternative_plain by (done || lia).
  done.
Qed.

Lemma create_plain (v : string) :
  plain v -> create false v = Some (Make v false (literal_tree (Str.chars v)) 0).
Proof. intros Hv. unfold create. by rewrite parse_plain. Qed.

Lemma strip_prefix_app (l r t : list ascii) :
  strip_prefix false l r = Some t <-> r = l ++ t.
Proof.
  revert r. induction l as [|a l IH]; intros r; simpl.
  - split; [by intros [= ->]|by intros ->].
  - destruct r as [|b r]; [done|]. rewrite chr_eqb_false.
    destruct (Ascii.eqb_spec a b) as [->|Hne].
    + rewrite IH. split; [by intros ->|by intros [= ->]].
    + split; [done|]. by intros [= -> _].
Qed.

Lemma matcher_literal (l : list ascii) (k : cont) :
  (forall y, is_Some (k y)) ->
  forall x, is_Some (matcher false (literal_tree l) k x)
            <-> is_Some (strip_prefix false l (ms_rest x)).
Proof.
  intros Hk. induction l as [|c l IH]; intros x; cbn [literal_tree matcher strip_prefix].
  - split; [by eauto|by intros _].
  - destruct (ms_rest x) as [|a t] eqn:Hx; [done|].
    destruct (Chr.eqb false c a); [|done].
    rewrite IH. done.
Qed.

Lemma exec_from_literal (re : RegExp.t) (l : list ascii) :
  tree re = literal_tree l -> ignoreCase re = false ->
  forall rest pos prev,
    is_Some (exec_from re pos prev rest) <-> exists a b, rest = a ++ l ++ b.
Proof.
  intros Htree Hic.
  assert (Hhere : forall rest pos prev,
             is_Some (match_here re pos prev rest) <-> exists b, rest = l ++ b).
  { intros rest pos prev. unfold match_here. rewrite Htree, Hic.
    pose proof (matcher_literal l Some (fun y => ltac:(eauto))
                  (MState pos prev rest (replicate (S (ngroups re)) None))) as Hm.
    simpl in Hm. destruct (matcher false (literal_tree l) Some _) as [y|].
    - split; [|by eauto]. intros _. apply proj1 in Hm.
      destruct Hm as [t Ht]; [by eauto|]. exists t. by apply strip_prefix_app.
    - split; [by intros [? ?]|]. intros [b ->]. apply proj2 in Hm.
      destruct Hm as [? ?]; [|done]. exists b. by apply strip_prefix_app. }
  induction rest as [|c rest IH]; intros pos prev; cbn [exec_from].
  - destruct (match_here re pos prev []) as [m|] eqn:Hm.
    + split; [|by eauto]. intros _.
      destruct (proj1 (Hhere [] pos prev)) as [b Hb]; [rewrite Hm; by eauto|].
      by exists [], b.
    + split; [by intros [? ?]|]. intros (a & b & Hab).
      destruct a; [|done]. simpl in Hab.
      assert (Hsome : is_Some (match_here re pos prev [])) by (apply Hhere; eauto).
      rewrite Hm in Hsome. by destruct Hsome.
  - destruct (match_here re pos prev (c :: rest)) as [m|] eqn:Hm.
    + split; [|by eauto]. intros _.
      destruct (proj1 (Hhere (c :: rest) pos prev)) as [b Hb]; [rewrite Hm; by eauto|].
      by exists [], b.
    + rewrite IH. split.
      * intros (a & b & ->). by exists (c :: a), b.
      * intros (a & b & Hab). destruct a as [|c' a].
        -- assert (Hsome : is_Some (match_here re pos prev (c :: rest)))
             by (apply Hhere; eauto).
           rewrite Hm in Hsome. by destruct Hsome.
        -- injection Hab as -> ->. by exists a, b.
Qed.

(** The pattern compiled from a plain text matches the texts in which the
    text occurs. *)
Lemma test_plain (v : string) (re : RegExp.t) :
  plain v -> create false v = Some re ->
  forall t, test re t = true <-> occurs v t.
Proof.
  intros Hv Hre t. rewrite create_plain in Hre by done. injection Hre as <-.
  unfold test. rewrite bool_decide_eq_true. unfold exec.
  rewrite (exec_from_literal _ (Str.chars v)) by done.
  unfold occurs. split.
  - intros (a & b & Hab). exists (Str.str a), (Str.str b).
    apply chars_inj. by rewrite !chars_app, !chars_str.
  - intros (a & b & ->). exists (Str.chars a), (Str.chars b). by rewrite !chars_app.
Qed.

(** ** A greedy run of a character class *)



Lemma after_run_cons (x : mstate) (c : ascii) (l t : list ascii) :
  ms_rest x = c :: t -> after_run x (c :: l) = after_run (advance x c t) l.
Proof. intros Hx. unfold after_run. simpl. by rewrite Hx. Qed.

Lemma after_run_app (x : mstate) (l1 l2 : list ascii) :
  after_run x (l1 ++ l2) = after_run (after_run x l1) l2.
Proof. unfold after_run. apply fold_left_app. Qed.

Lemma after_run_rest (l : list ascii) :
  forall x t, ms_rest x = l ++ t -> ms_rest (after_run x l) = t.
Proof.
  induction l as [|c l IH]; intros x t Hx; [done|].
  rewrite (after_run_cons x c l (l ++ t)) by done. by apply IH.
Qed.

Lemma after_run_pos (l : list ascii) :
  forall x, ms_pos (after_run x l) = ms_pos x + length l.
Proof.
  induction l as [|c l IH]; intros x; [unfold after_run; simpl; lia|].
  unfold after_run in *. simpl. rewrite IH. simpl. lia.
Qed.

Lemma after_run_caps (l : list ascii) :
  forall x, ms_caps (after_run x l) = ms_caps x.
Proof.
  induction l as [|c l IH]; intros x; [done|].
  unfold after_run in *. simpl. by rewrite IH.
Qed.

Section ClassRun.

Variable neg : bool.
Variable items : list class_item.
Variable k : cont.

Let inside (c : ascii) : Prop := in_class false neg items c = true.
Let stops (rest : list ascii) : Prop :=
  match rest with
  | [] => True
  | c :: _ => in_class false neg items c = false
  end.

Let star (fuel : nat) (x : mstate) : option mstate :=
  repeat_matcher (matcher false (NClass neg items)) [] fuel 0 None true k x.

Lemma star_unfold (fuel : nat) (x : mstate) :
  star (S fuel) x =
  match match ms_rest x with
        | a :: t => if in_class false neg items a then star fuel (advance x a t) else None
        | [] => None
        end with
  | Some z => Some z
  | None => k x
  end.
Proof.
  unfold star. cbn [repeat_matcher matcher Nat.eqb negb andb].
  destruct (ms_rest x) as [|a t] eqn:Hx; cbn [clear_caps with_caps foldr ms_rest];
    rewrite Hx; [done|].
  destruct (in_class false neg items a); [|done].
  change (advance (clear_caps [] x) a t) with (advance x a t).
  change (ms_pos (advance x a t)) with (S (ms_pos x)).
  rewrite (proj2 (Nat.eqb_neq (S (ms_pos x)) (ms_pos x))) by lia. reflexivity.
Qed.

(** When the continuation fails after every part of the run, the star
    fails. *)
Lemma star_fails (run : list ascii) :
  forall rest x fuel,
    ms_rest x = run ++ rest -> Forall inside run -> stops rest ->
    length (ms_rest x) < fuel ->
    (forall j, j <= length run -> k (after_run x (take j run)) = None) ->
    star fuel x = None.
Proof.
  induction run as [|a run IH]; intros rest x fuel Hx Hrun Hstop Hfuel Hk.
  - destruct fuel; [lia|]. rewrite star_unfold. simpl in Hx. rewrite Hx.
    assert (k x = None) as -> by apply (Hk 0 (Nat.le_0_l _)).
    destruct rest as [|c rest]; [done|]. simpl in Hstop. by rewrite Hstop.
  - destruct fuel; [lia|]. rewrite star_unfold. simpl in Hx. rewrite Hx.
    inversion Hrun as [|? ? Ha Hrun']; subst.
    unfold inside in Ha. rewrite Ha.
    rewrite (IH rest (advance x a (run ++ rest)) fuel); try done.
    + apply (Hk 0 (Nat.le_0_l _)).
    + rewrite Hx in Hfuel. simpl in *. lia.
    + intros j Hj. specialize (Hk (S j)). simpl in Hk.
      rewrite (after_run_cons x a _ (run ++ rest)) in Hk by done. apply Hk. lia.
Qed.

(** The star gives what the continuation gives after the longest part of
    the run after which it succeeds. *)
Lemma star_backtracks (run1 : list ascii) :
  forall run2 rest x fuel z,
    ms_rest x = run1 ++ run2 ++ rest -> Forall inside (run1 ++ run2) -> stops rest ->
    length (ms_rest x) < fuel ->
    (forall j, 0 < j <= length run2 -> k (after_run x (run1 ++ take j run2)) = None) ->
    k (after_run x run1) = Some z ->
    star fuel x = Some z.
Proof.
  induction run1 as [|a run1 IH]; intros run2 rest x fuel z Hx Hrun Hstop Hfuel Hlong Hk.
  - destruct fuel; [lia|]. rewrite star_unfold. simpl in Hx, Hrun.
    change (after_run x []) with x in Hk. rewrite Hk.
    destruct run2 as [|a run2]; simpl in Hx; rewrite Hx.
    + destruct rest as [|c rest]; [done|]. simpl in Hstop. by rewrite Hstop.
    + inversion Hrun as [|? ? Ha Hrun']; subst. unfold inside in Ha. rewrite Ha.
      rewrite (star_fails run2 rest); try done.
      * rewrite Hx in Hfuel. simpl in *. lia.
      * intros j Hj. specialize (Hlong (S j)). simpl in Hlong.
        rewrite (after_run_cons x a _ (run2 ++ rest)) in Hlong by done.
        apply Hlong. lia.
  - destruct fuel; [lia|]. rewrite star_unfold. simpl in Hx. rewrite Hx.
    inversion Hrun as [|? ? Ha Hrun']; subst. unfold inside in Ha. rewrite Ha.
    rewrite (IH run2 rest (advance x a (run1 ++ run2 ++ rest)) fuel z); try done.
    + rewrite Hx in Hfuel. simpl in *. lia.
    + intros j Hj. specialize (Hlong j Hj). simpl in Hlong.
      by rewrite (after_run_cons x a _ (run1 ++ run2 ++ rest)) in Hlong.
    + by rewrite (after_run_cons x a _ (run1 ++ run2 ++ rest)) in Hk.
Qed.

(** The same for one or more repetitions, the class being a node of the
    pattern. *)
Lemma plus_backtracks (run1 run2 rest : list ascii) (x z : mstate) :
  ms_rest x = run1 ++ run2 ++ rest -> run1 <> [] ->
  Forall inside (run1 ++ run2) -> stops rest ->
  (forall j, 0 < j <= length run2 -> k (after_run x (run1 ++ take j run2)) = None) ->
  k (after_run x run1) = Some z ->
  matcher false (NRepeat 1 None true (NClass neg items)) k x = Some z.
Proof.
  intros Hx Hne Hrun Hstop Hlong Hk.
  destruct run1 as [|a run1]; [done|]. simpl in Hx.
  cbn [matcher groups_of]. rewrite Hx.
  cbn [repeat_matcher matcher Nat.eqb negb andb clear_caps with_caps foldr ms_rest].
  rewrite Hx. inversion Hrun as [|? ? Ha Hrun']; subst. unfold inside in Ha. rewrite Ha.
  cbn [Nat.pred fmap option_fmap option_map].
  apply (star_backtracks run1 run2 rest); try done.
  - simpl. lia.
  - intros j Hj. specialize (Hlong j Hj). simpl in Hlong.
    by rewrite (after_run_cons x a _ (run1 ++ run2 ++ rest)) in Hlong.
  - by rewrite (after_run_cons x a _ (run1 ++ run2 ++ rest)) in Hk.
Qed.

End ClassRun.

(** ** The pattern of [getStepTextInvariants] on a group of alternatives *)

Lemma bracesRegEx_tree :
  tree bracesRegEx =
  NSeq (NGroup 1
          (NSeq (NChar (chr "("))
             (NSeq (NRepeat 1 None true
                      (NClass true [CChar (chr ")"); CChar (chr "("); CChar (chr ")")]))
                (NSeq (NChar (chr "|"))
                   (NSeq (NRepeat 1 None true (NClass true [CChar (chr "("); CChar (chr ")")]))
                      (NSeq (NChar (chr ")")) NEmpty))))))
       NEmpty.
Proof. reflexivity. Qed.

Lemma not_paren_class1 (c : ascii) :
  not_paren c -> in_class false true [CChar (chr ")"); CChar (chr "("); CChar (chr ")")] c = true.
Proof.
  intros [H1 H2]. unfold isc in *. unfold in_class. cbn [existsb in_item].
  rewrite !chr_eqb_false. rewrite (Ascii.eqb_sym (chr ")")), (Ascii.eqb_sym (chr "(")).
  by rewrite H1, H2.
Qed.

Lemma not_paren_class2 (c : ascii) :
  not_paren c -> in_class false true [CChar (chr "("); CChar (chr ")")] c = true.
Proof.
  intros [H1 H2]. unfold isc in *. unfold in_class. cbn [existsb in_item].
  rewrite !chr_eqb_false. rewrite (Ascii.eqb_sym (chr ")")), (Ascii.eqb_sym (chr "(")).
  by rewrite H1, H2.
Qed.

Lemma plain_not_paren (c : ascii) : plain_char c = true -> not_paren c.
Proof. intros Hc. split; by apply isc_plain. Qed.

Lemma matcher_seq (ic : bool) (a b : node) (k : cont) (x : mstate) :
  matcher ic (NSeq a b) k x = matcher ic a (matcher ic b k) x.
Proof. reflexivity. Qed.

Lemma matcher_group (ic : bool) (i : nat) (a : node) (k : cont) (x : mstate) :
  matcher ic (NGroup i a) k x
  = matcher ic a
      (fun y => k (set_cap y i (Some (take (ms_pos y - ms_pos x) (ms_rest x))))) x.
Proof. reflexivity. Qed.

Lemma matcher_char_hit (c : ascii) (t : list ascii) (k : cont) (x : mstate) :
  ms_rest x = c :: t -> matcher false (NChar c) k x = k (advance x c t).
Proof. intros Hx. cbn [matcher]. rewrite Hx, chr_eqb_false. by rewrite Ascii.eqb_refl. Qed.

Lemma matcher_char_miss (c : ascii) (k : cont) (x : mstate) :
  head (ms_rest x) <> Some c -> matcher false (NChar c) k x = None.
Proof.
  intros Hx. cbn [matcher]. destruct (ms_rest x) as [|a t]; [done|].
  rewrite chr_eqb_false. destruct (Ascii.eqb_spec c a) as [->|]; [|done].
  by destruct Hx.
Qed.

Ltac list_assoc :=
  cbn [app]; repeat first [rewrite <- app_assoc | rewrite <- app_comm_cons]; cbn [app].

Lemma bracesRegEx_matcher (head last : list ascii) (Q : list ascii) (pos : nat)
    (prev : option ascii) :
  head <> [] -> last <> [] ->
  Forall not_paren head -> Forall (fun c => plain_char c = true) last ->
  let group := chr "(" :: head ++ chr "|" :: last ++ [chr ")"] in
  exists z,
    matcher false (tree bracesRegEx) Some (MState pos prev (group ++ Q) (replicate 2 None))
    = Some z
    /\ ms_pos z = pos + length group
    /\ ms_caps z = [None; Some group].
Proof.
  intros Hhead Hlast Hheadp Hlastp group.
  rewrite bracesRegEx_tree.
  set (x0 := MState pos prev (group ++ Q) (replicate 2 None)).
  rewrite matcher_seq, matcher_group, matcher_seq.
  set (kG := fun y : mstate => matcher false NEmpty Some _).
  rewrite (matcher_char_hit _ (head ++ chr "|" :: last ++ chr ")" :: Q)).
  2:{ subst x0 group. cbn [ms_rest]. by list_assoc. }
  set (x1 := advance x0 _ _).
  rewrite matcher_seq.
  eexists. split.
  - eapply (plus_backtracks _ _ _ head (chr "|" :: last) (chr ")" :: Q) x1).
    + subst x1. cbn [advance ms_rest]. by list_assoc.
    + done.
    + apply Forall_app. split; [by eapply Forall_impl; [|apply not_paren_class1]|].
      constructor; [done|]. eapply Forall_impl; [done|].
      intros c Hc. by apply not_paren_class1, plain_not_paren.
    + done.
    + intros j Hj. rewrite matcher_seq. apply matcher_char_miss.
      rewrite (after_run_rest _ _ (drop j (chr "|" :: last) ++ chr ")" :: Q)).
      2:{ subst x1. cbn [advance ms_rest].
          change (chr "|" :: last ++ chr ")" :: Q) with ((chr "|" :: last) ++ chr ")" :: Q).
          rewrite <- app_assoc. f_equal. by rewrite app_assoc, take_drop. }
      destruct j as [|j]; [lia|]. cbn [drop].
      destruct (drop j last) as [|c l'] eqn:Hd; [done|].
      simpl. intros [= ->].
      assert (Hin : chr "|" ∈ last).
      { apply (subseteq_drop j). rewrite Hd. by left. }
      rewrite Forall_forall in Hlastp. by apply Hlastp in Hin.
    + rewrite matcher_seq.
      rewrite (matcher_char_hit _ (last ++ chr ")" :: Q)).
      2:{ apply after_run_rest. subst x1. cbn [advance ms_rest]. by list_assoc. }
      rewrite matcher_seq.
      eapply (plus_backtracks _ _ _ last [] (chr ")" :: Q)).
      * cbn [advance ms_rest]. by list_assoc.
      * done.
      * rewrite app_nil_r. eapply Forall_impl; [done|].
        intros c Hc. by apply not_paren_class2, plain_not_paren.
      * done.
      * intros j Hj. simpl in Hj. lia.
      * rewrite matcher_seq. rewrite (matcher_char_hit _ Q).
        2:{ apply after_run_rest. cbn [advance ms_rest]. by list_assoc. }
        subst kG. cbn [matcher]. reflexivity.
  - cbn [set_cap ms_pos ms_caps advance]. rewrite !after_run_pos, !after_run_caps.
    cbn [set_cap ms_pos ms_caps advance]. rewrite !after_run_pos, !after_run_caps.
    subst x1 x0. cbn [set_cap ms_pos ms_caps ms_rest advance].
    assert (Hlen : S (S (S pos + length head) + length last) - pos = length group).
    { subst group. cbn [length]. rewrite !length_app. cbn [length]. rewrite length_app.
      simpl. lia. }
    split.
    + rewrite <- Hlen. lia.
    + rewrite Hlen. by rewrite take_app_length.
Qed.

Lemma bracesRegEx_here (head last : list ascii) (Q : list ascii) (pos : nat)
    (prev : option ascii) :
  head <> [] -> last <> [] ->
  Forall not_paren head -> Forall (fun c => plain_char c = true) last ->
  let group := chr "(" :: head ++ chr "|" :: last ++ [chr ")"] in
  match_here bracesRegEx pos prev (group ++ Q)
  = Some (MResult pos (pos + length group) (Str.str group) [Some (Str.str group)]).
Proof.
  intros Hhead Hlast Hheadp Hlastp group.
  destruct (bracesRegEx_matcher head last Q pos prev) as (z & Hz & Hpos & Hcaps); try done.
  unfold match_here.
  change (ignoreCase bracesRegEx) with false. change (ngroups bracesRegEx) with 1.
  fold group in Hz, Hpos, Hcaps. rewrite Hz, Hpos, Hcaps.
  replace (pos + length group - pos) with (length group) by lia.
  by rewrite (take_app_length group Q).
Qed.

Lemma bracesRegEx_miss (rest : list ascii) (pos : nat) (prev : option ascii) :
  head rest <> Some (chr "(") -> match_here bracesRegEx pos prev rest = None.
Proof.
  intros Hrest. unfold match_here. rewrite bracesRegEx_tree.
  change (ignoreCase bracesRegEx) with false.
  rewrite matcher_seq, matcher_group, matcher_seq.
  by rewrite matcher_char_miss.
Qed.

Lemma exec_from_hit (re : RegExp.t) (pos : nat) (prev : option ascii) (rest : list ascii)
    (m : mresult) :
  match_here re pos prev rest = Some m -> exec_from re pos prev rest = Some m.
Proof. intros Hm. destruct rest; cbn [exec_from]; by rewrite Hm. Qed.

Lemma exec_from_miss (re : RegExp.t) (pos : nat) (prev : option ascii) (c : ascii)
    (rest : list ascii) :
  match_here re pos prev (c :: rest) = None ->
  exec_from re pos prev (c :: rest) = exec_from re (S pos) (Some c) rest.
Proof. intros Hm. cbn [exec_from]. by rewrite Hm. Qed.

(** The first match of the pattern in a text that starts with plain
    characters and goes on with a group of alternatives is the group. *)
Lemma bracesRegEx_finds (P head last Q : list ascii) :
  Forall (fun c => plain_char c = true) P ->
  head <> [] -> last <> [] ->
  Forall not_paren head -> Forall (fun c => plain_char c = true) last ->
  let group := chr "(" :: head ++ chr "|" :: last ++ [chr ")"] in
  forall pos prev,
    exec_from bracesRegEx pos prev (P ++ group ++ Q)
    = Some (MResult (pos + length P) (pos + length P + length group)
                    (Str.str group) [Some (Str.str group)]).
Proof.
  intros HP Hhead Hlast Hheadp Hlastp group.
  pose proof (fun pos prev => bracesRegEx_here head last Q pos prev
                                Hhead Hlast Hheadp Hlastp) as Hhere.
  cbv zeta in Hhere. fold group in Hhere.
  induction HP as [|c P Hc HP IH]; intros pos prev.
  - change ([] ++ group ++ Q) with (group ++ Q).
    rewrite (exec_from_hit _ _ _ _ _ (Hhere pos prev)).
    cbn [length]. by rewrite Nat.add_0_r.
  - change ((c :: P) ++ group ++ Q) with (c :: P ++ group ++ Q).
    rewrite exec_from_miss.
    2:{ apply bracesRegEx_miss. simpl. intros [= ->]. done. }
    rewrite IH. cbn [length]. by rewrite Nat.add_succ_comm.
Qed.

(** ** Taking the parentheses off a group *)

Lemma parens_tree :
  tree parens = NAlt (NSeq NBol (NSeq (NChar (chr "(")) NEmpty))
                     (NSeq (NChar (chr ")")) (NSeq NEol NEmpty)).
Proof. reflexivity. Qed.

Lemma parens_here_open (t : list ascii) :
  match_here parens 0 None (chr "(" :: t) = Some (MResult 0 1 "(" []).
Proof. reflexivity. Qed.

Lemma parens_here_miss (rest : list ascii) (pos : nat) (prev : option ascii) :
  head rest <> Some (chr ")") -> match_here parens (S pos) prev rest = None.
Proof.
  intros Hrest. unfold match_here. rewrite parens_tree.
  change (ignoreCase parens) with false. cbn [matcher ms_pos Nat.eqb].
  fold (matcher false (NChar (chr ")"))).
  destruct rest as [|a t]; [done|]. cbn [ms_rest].
  rewrite chr_eqb_false. destruct (Ascii.eqb_spec (chr ")") a) as [<-|]; [|done].
  by destruct Hrest.
Qed.

Lemma parens_here_close (pos : nat) (prev : option ascii) :
  match_here parens (S pos) prev [chr ")"] = Some (MResult (S pos) (S (S pos)) ")" []).
Proof.
  unfold match_here. rewrite parens_tree. change (ignoreCase parens) with false.
  cbn [matcher ms_pos ms_rest Nat.eqb advance]. rewrite chr_eqb_false. cbn.
  replace (S (S pos) - S pos) with 1 by lia. 
  replace (S pos - pos) with 1 by lia. reflexivity.
Qed.

Lemma parens_finds_close (inner : list ascii) :
  Forall not_paren inner ->
  forall pos prev,
    exec_from parens (S pos) prev (inner ++ [chr ")"])
    = Some (MResult (S pos + length inner) (S (S pos + length inner)) ")" []).
Proof.
  induction 1 as [|c inner Hc Hinner IH]; intros pos prev.
  - change ([] ++ [chr ")"]) with [chr ")"].
    rewrite (exec_from_hit _ _ _ _ _ (parens_here_close pos prev)).
    cbn [length]. by rewrite Nat.add_0_r.
  - change ((c :: inner) ++ [chr ")"]) with (c :: inner ++ [chr ")"]).
    rewrite exec_from_miss.
    2:{ apply parens_here_miss. simpl. intros [= ->]. by destruct Hc. }
    rewrite IH. cbn [length]. by rewrite Nat.add_succ_comm.
Qed.

Lemma substitution_empty (fuel : nat) (r : mresult) (s : list ascii) :
  Str.substitution fuel r s [] = [].
Proof. by destruct fuel. Qed.

Lemma replace_parens (inner : list ascii) :
  Forall not_paren inner ->
  Str.replace true parens "" (Str.str (chr "(" :: inner ++ [chr ")"])) = Str.str inner.
Proof.
  intros Hinner. unfold Str.replace, Str.matches.
  set (s := Str.str (chr "(" :: inner ++ [chr ")"])).
  assert (Hs : Str.chars s = chr "(" :: inner ++ [chr ")"]) by apply chars_str.
  assert (Hlen : String.length s = S (S (length inner))).
  { rewrite <- length_chars, Hs. cbn [length]. rewrite length_app. simpl. lia. }
  rewrite Hlen. cbn [Nat.add].
  cbn [Str.exec_all]. unfold Str.exec_at at 1. rewrite Hs. cbn [length Nat.leb drop].
  cbn [exec_from]. rewrite parens_here_open. cbn [m_end m_index Nat.eqb].
  unfold Str.exec_at at 1. rewrite Hs.
  replace (1 <=? length (chr "(" :: inner ++ [chr ")"])) with true by done.
  change (drop 1 (chr "(" :: inner ++ [chr ")"])) with (inner ++ [chr ")"]).
  rewrite parens_finds_close by done.
  cbn [m_end m_index]. rewrite (proj2 (Nat.eqb_neq _ _)) by lia.
  replace (length inner + 2) with (S (S (length inner))) by lia.
  cbn [Str.exec_all]. unfold Str.exec_at. rewrite Hs.
  assert (Hl : length (chr "(" :: inner ++ [chr ")"]) = S (1 + length inner)).
  { cbn [length]. rewrite length_app. simpl. lia. }
  rewrite Hl, Nat.leb_refl. rewrite drop_ge by lia.
  cbn [exec_from]. rewrite parens_here_miss by done.
  cbn [Str.splice m_index m_end]. rewrite !substitution_empty.
  rewrite (drop_ge _ (S (1 + length inner))) by lia.
  change (drop 1 (chr "(" :: inner ++ [chr ")"])) with (inner ++ [chr ")"]).
  replace (1 + length inner - 1) with (length inner) by lia.
  rewrite take_app_length. cbn [Nat.sub take app]. by rewrite app_nil_r.
Qed.

(** ** Splitting and joining *)

Lemma split_chars_end (b : list ascii) :
  chr "|" ∉ b ->
  forall cur fuel, length b < fuel ->
    Str.split_chars fuel [chr "|"] cur b = [rev cur ++ b].
Proof.
  induction b as [|c b IH]; intros Hb cur fuel Hfuel.
  - destruct fuel; [lia|]. simpl. by rewrite app_nil_r.
  - destruct fuel; [simpl in Hfuel; lia|]. cbn [Str.split_chars strip_prefix].
    rewrite chr_eqb_false. destruct (Ascii.eqb_spec (chr "|") c) as [<-|Hne].
    + exfalso. apply Hb. by left.
    + rewrite IH; [|by intros Hin; apply Hb; right|simpl in Hfuel; lia].
      cbn [rev]. by rewrite <- app_assoc.
Qed.

Lemma split_chars_sep (b : list ascii) (t : list ascii) :
  chr "|" ∉ b ->
  forall cur fuel, length b < fuel ->
    Str.split_chars fuel [chr "|"] cur (b ++ chr "|" :: t)
    = (rev cur ++ b) :: Str.split_chars (fuel - S (length b)) [chr "|"] [] t.
Proof.
  induction b as [|c b IH]; intros Hb cur fuel Hfuel.
  - destruct fuel; [lia|]. cbn [app Str.split_chars strip_prefix].
    rewrite chr_eqb_false, Ascii.eqb_refl. cbn [length]. rewrite app_nil_r.
    by replace (S fuel - 1) with fuel by lia.
  - destruct fuel; [simpl in Hfuel; lia|]. cbn [app Str.split_chars strip_prefix].
    rewrite chr_eqb_false. destruct (Ascii.eqb_spec (chr "|") c) as [<-|Hne].
    + exfalso. apply Hb. by left.
    + rewrite IH; [|by intros Hin; apply Hb; right|simpl in Hfuel; lia].
      cbn [rev length]. rewrite <- app_assoc. done.
Qed.

Lemma join_cons (sep b : string) (bs : list string) :
  bs <> [] -> Str.join sep (b :: bs) = b +:+ sep +:+ Str.join sep bs.
Proof. by destruct bs. Qed.

Lemma append_assoc (a b c : string) : (a +:+ b) +:+ c = a +:+ b +:+ c.
Proof. apply chars_inj. rewrite !chars_app. by rewrite app_assoc. Qed.

Lemma join_snoc (sep : string) (bs : list string) (b : string) :
  bs <> [] -> Str.join sep (bs ++ [b]) = Str.join sep bs +:+ sep +:+ b.
Proof.
  induction bs as [|a bs IH]; intros Hbs; [done|].
  destruct bs as [|a' bs]; [done|].
  change ((a :: a' :: bs) ++ [b]) with (a :: (a' :: bs) ++ [b]).
  rewrite join_cons by by destruct bs.
  rewrite IH by discriminate. rewrite (join_cons sep a) by discriminate.
  by rewrite !append_assoc.
Qed.

Lemma split_join (bs : list string) :
  bs <> [] -> Forall (fun b => chr "|" ∉ Str.chars b) bs ->
  forall fuel, String.length (Str.join "|" bs) < fuel ->
    Str.split_chars fuel [chr "|"] [] (Str.chars (Str.join "|" bs)) = Str.chars <$> bs.
Proof.
  induction bs as [|b bs IH]; intros Hne Hbs fuel Hfuel; [done|].
  inversion Hbs as [|? ? Hb Hbs']; subst.
  destruct bs as [|b' bs].
  - simpl. simpl in Hfuel. rewrite split_chars_end; [done|done|].
    by rewrite length_chars.
  - rewrite join_cons in * by discriminate. rewrite !chars_app.
    change (Str.chars "|") with [chr "|"]. cbn [app].
    rewrite <- length_chars, !chars_app, !length_app in Hfuel.
    change (length (Str.chars "|")) with 1 in Hfuel.
    rewrite split_chars_sep; [|done|lia].
    cbn [rev app fmap list_fmap]. f_equal. apply IH; [discriminate|done|].
    rewrite <- length_chars. lia.
Qed.

Lemma split_str_join (bs : list string) :
  bs <> [] -> Forall (fun b => chr "|" ∉ Str.chars b) bs ->
  Str.split_str "|" (Str.join "|" bs) = bs.
Proof.
  intros Hne Hbs. unfold Str.split_str. cbn [Str.chars list_ascii_of_string].
  rewrite split_join by (done || lia).
  rewrite <- list_fmap_compose. rewrite <- (list_fmap_id bs) at 2.
  apply list_fmap_ext. intros i b _. apply str_chars.
Qed.

(** ** Replacing the first occurrence of a text *)

Lemma strip_prefix_self (l t : list ascii) : strip_prefix false l (l ++ t) = Some t.
Proof. by apply strip_prefix_app. Qed.

Lemma index_from_skip (pat P Q : list ascii) (c0 : ascii) :
  head pat = Some c0 -> c0 ∉ P ->
  forall p, Str.index_from pat p (P ++ pat ++ Q) = Some (p + length P).
Proof.
  intros Hpat HP. induction P as [|c P IH]; intros p.
  - cbn [app length]. rewrite Nat.add_0_r.
    destruct (pat ++ Q) eqn:Hl; cbn [Str.index_from]; rewrite <- Hl;
      by rewrite strip_prefix_self.
  - cbn [app Str.index_from]. destruct pat as [|c0' pat]; [done|].
    injection Hpat as ->. cbn [strip_prefix]. rewrite chr_eqb_false.
    destruct (Ascii.eqb_spec c0 c) as [<-|Hne].
    + exfalso. apply HP. by left.
    + rewrite IH; [|by intros Hin; apply HP; right]. cbn [length]. f_equal. lia.
Qed.

Lemma substitution_plain (r : mresult) (s tpl : list ascii) :
  chr "$" ∉ tpl ->
  forall fuel, length tpl < fuel -> Str.substitution fuel r s tpl = tpl.
Proof.
  induction tpl as [|c tpl IH]; intros Htpl fuel Hfuel.
  - by destruct fuel.
  - destruct fuel; [simpl in Hfuel; lia|]. cbn [Str.substitution].
    unfold isc. destruct (Ascii.eqb_spec c (chr "$")) as [->|Hne].
    + exfalso. apply Htpl. by left.
    + rewrite IH; [done|by intros Hin; apply Htpl; right|simpl in Hfuel; lia].
Qed.

Lemma replace_str_first (pre pat post tpl : string) (c0 : ascii) :
  head (Str.chars pat) = Some c0 -> c0 ∉ Str.chars pre -> chr "$" ∉ Str.chars tpl ->
  Str.replace_str pat tpl (pre +:+ pat +:+ post) = pre +:+ tpl +:+ post.
Proof.
  intros Hpat Hpre Htpl. unfold Str.replace_str.
  rewrite !chars_app. rewrite (index_from_skip _ _ _ c0) by done.
  cbn [Nat.add Str.splice m_index m_end].
  rewrite substitution_plain; [|done|rewrite length_chars; lia].
  rewrite Nat.sub_0_r. change (drop 0 ?l) with l. rewrite take_app_length.
  rewrite <- length_chars, <- length_app.
  rewrite (app_assoc (Str.chars pre) (Str.chars pat) (Str.chars post)).
  rewrite drop_app_length.
  apply chars_inj. by rewrite !chars_app, chars_str.
Qed.

(** ** The expansion of a template with one group of alternatives *)

Lemma chars_join_not_paren (bs : list string) :
  Forall plain bs -> Forall not_paren (Str.chars (Str.join "|" bs)).
Proof.
  induction 1 as [|b bs Hb Hbs IH]; [constructor|].
  destruct bs as [|b' bs].
  - simpl. eapply Forall_impl; [exact Hb|]. intros c. apply plain_not_paren.
  - rewrite join_cons by discriminate. rewrite !chars_app. apply Forall_app. split.
    + eapply Forall_impl; [exact Hb|]. intros c. apply plain_not_paren.
    + apply Forall_app. split; [|done]. by repeat constructor.
Qed.

(** [H] puts a given character in a given list that does not hold it. *)
Ltac in_literal H :=
  exfalso; repeat (apply elem_of_cons in H as [H|H]; [by vm_compute in H|]);
  by apply elem_of_nil in H.

Lemma chars_join_no_question (bs : list string) :
  Forall plain bs -> chr "?" ∉ Str.chars (Str.join "|" bs).
Proof.
  induction 1 as [|b bs Hb Hbs IH]; [by intros ?%elem_of_nil|].
  destruct bs as [|b' bs].
  - simpl. by apply plain_absent.
  - rewrite join_cons by discriminate. rewrite !chars_app.
    intros [Hin|[Hin|Hin]%elem_of_app]%elem_of_app; [|in_literal Hin|done].
    by apply (plain_absent b (chr "?")).
Qed.

Lemma chars_join_nonempty (b : string) (bs : list string) :
  b <> "" -> Str.chars (Str.join "|" (b :: bs)) <> [].
Proof.
  intros Hb. destruct bs; [|rewrite join_cons by discriminate; rewrite chars_app];
    by destruct b.
Qed.

Lemma plain_no_bar (b : string) : plain b -> chr "|" ∉ Str.chars b.
Proof. intros Hb. by apply plain_absent. Qed.

Lemma snoc_decompose {A} (l : list A) : l <> [] -> exists init x, l = init ++ [x].
Proof.
  induction l as [|a l IH] using rev_ind; [done|]. intros _. by exists l, a.
Qed.

Section Alternation.

Variable pre post : string.
Variable bs : list string.

Hypothesis plain_pre : plain pre.
Hypothesis plain_post : plain post.
Hypothesis plain_branches : Forall (fun b => plain b /\ b <> "") bs.
Hypothesis two_branches : 2 <= length bs.

Let R : string := Str.join "|" bs.
Let G : string := "(" +:+ R +:+ ")".

Lemma branches_plain : Forall plain bs.
Proof. eapply Forall_impl; [exact plain_branches|]. by intros b [? ?]. Qed.

Lemma alternation_template_group : alternation_template pre bs post = pre +:+ G +:+ post.
Proof. unfold alternation_template, G, R. by rewrite !append_assoc. Qed.

Lemma match_alternation_template :
  exists m, Str.match_ bracesRegEx (alternation_template pre bs post) = Some m
            /\ group 1 m = G.
Proof.
  pose proof plain_branches as Hall. pose proof two_branches as Htwo.
  destruct (snoc_decompose bs) as (init & bn & Hbs).
  { intros Hnil. rewrite Hnil in Htwo. simpl in Htwo. lia. }
  unfold G, R. rewrite Hbs in Hall, Htwo |- *. clear Hbs.
  assert (Hinit : init <> []).
  { intros ->. simpl in Htwo. lia. }
  rewrite Forall_app in Hall.
  destruct Hall as [Hinitp Hbn]. inversion Hbn as [|? ? [Hbnp Hbnne] _]; subst.
  set (R' := Str.join "|" (init ++ [bn])).
  assert (HR : Str.chars R' = Str.chars (Str.join "|" init) ++ chr "|" :: Str.chars bn).
  { unfold R'. rewrite join_snoc by done. by rewrite !chars_app. }
  assert (HT : Str.chars (alternation_template pre (init ++ [bn]) post)
               = Str.chars pre
                 ++ (chr "(" :: Str.chars (Str.join "|" init) ++ chr "|" :: Str.chars bn
                     ++ [chr ")"]) ++ Str.chars post).
  { unfold alternation_template. rewrite !chars_app. fold R'. rewrite HR.
    change (Str.chars "(") with [chr "("]. change (Str.chars ")") with [chr ")"].
    by list_assoc. }
  unfold Str.match_, exec.
  fold (Str.chars (alternation_template pre (init ++ [bn]) post)). rewrite HT.
  rewrite bracesRegEx_finds.
  - eexists. split; [reflexivity|].
    change (group 1 ?m) with (default "" (mjoin (m_groups m !! 0))).
    cbn [m_groups]. change ([Some ?x] !! 0) with (Some (Some x)).
    cbn [mjoin option_join default]. change (Datatypes.id ?x) with x.
    apply chars_inj. rewrite chars_str, !chars_app, HR.
    change (Str.chars "(") with [chr "("]. change (Str.chars ")") with [chr ")"].
    by list_assoc.
  - exact plain_pre.
  - destruct init as [|b0 init]; [done|]. apply chars_join_nonempty.
    inversion Hinitp as [|? ? [_ Hne] _]. done.
  - by destruct bn.
  - apply chars_join_not_paren. eapply Forall_impl; [exact Hinitp|]. by intros b [? ?].
  - exact Hbnp.
Qed.

Lemma group_not_paren : Forall not_paren (Str.chars R).
Proof. apply chars_join_not_paren, branches_plain. Qed.

Lemma variants_of_group :
  Str.split_str "|" (Str.replace true parens "" (Str.replace false (literal "\(\?:") "" G))
  = bs.
Proof.
  assert (HG : Str.chars G = chr "(" :: Str.chars R ++ [chr ")"]).
  { unfold G. by rewrite !chars_app. }
  rewrite (replace_needs (chr "?") false _ _ G); [|by vm_compute|by vm_compute|].
  2:{ rewrite HG. intros Hin. apply elem_of_cons in Hin as [Hin|Hin]; [done|].
      apply elem_of_app in Hin as [Hin|Hin].
      - by apply (chars_join_no_question bs branches_plain).
      - in_literal Hin. }
  rewrite <- (str_chars G), HG. rewrite replace_parens by apply group_not_paren.
  rewrite str_chars. unfold R. apply split_str_join.
  - destruct bs; [simpl in two_branches; lia|done].
  - eapply Forall_impl; [exact branches_plain|]. apply plain_no_bar.
Qed.

Lemma plain_variant (b : string) : b ∈ bs -> plain (pre +:+ b +:+ post).
Proof.
  intros Hb. pose proof branches_plain as Hall. rewrite Forall_forall in Hall.
  apply plain_app. split; [done|]. apply plain_app. split; [by apply Hall|done].
Qed.

Lemma replace_group (b : string) :
  b ∈ bs -> Str.replace_str G b (alternation_template pre bs post) = pre +:+ b +:+ post.
Proof.
  intros Hb. rewrite alternation_template_group.
  apply (replace_str_first _ _ _ _ (chr "(")).
  - unfold G. by rewrite chars_app.
  - by apply plain_absent.
  - pose proof branches_plain as Hall. rewrite Forall_forall in Hall.
    apply plain_absent; [by apply Hall|done].
Qed.

Lemma getStepTextInvariants_plain (depth : nat) (step : string) :
  plain step -> getStepTextInvariants (S depth) step = Returns [step].
Proof.
  intros Hstep. cbn [getStepTextInvariants].
  rewrite (match_needs (chr "(")); [done|by vm_compute|by vm_compute|].
  by apply plain_absent.
Qed.

Lemma getStepTextInvariants_alternation (depth : nat) :
  getStepTextInvariants (S (S depth)) (alternation_template pre bs post)
  = Returns ((fun b => pre +:+ b +:+ post) <$> bs).
Proof.
  cbn [getStepTextInvariants].
  destruct match_alternation_template as (m & -> & Hm). rewrite Hm.
  rewrite variants_of_group.
  enough (Hfold : forall l acc, l ⊆ bs ->
            fold_left (fun varRes variant =>
                         acc ← varRes;
                         vs ← getStepTextInvariants (S depth)
                                (Str.replace_str G variant (alternation_template pre bs post));
                         Returns (acc ++ vs))
                      l (Returns acc)
            = Returns (acc ++ ((fun b => pre +:+ b +:+ post) <$> l))).
  { apply (Hfold bs []). done. }
  induction l as [|b l IH]; intros acc Hl; cbn [fold_left].
  - by rewrite app_nil_r.
  - assert (Hb : b ∈ bs) by (apply Hl; by left).
    cbn [mbind outcome_bind]. rewrite replace_group by done.
    rewrite getStepTextInvariants_plain by by apply plain_variant.
    cbn [mbind outcome_bind]. rewrite IH.
    + cbn [fmap list_fmap]. by rewrite <- app_assoc.
    + intros x Hx. apply Hl. by right.
Qed.

End Alternation.

Lemma bind_singletons {A B} (f : A -> list B) (P : A -> B -> Prop) (l : list A) :
  (forall a, a ∈ l -> exists b, f a = [b] /\ P a b) ->
  exists l', l ≫= f = l' /\ Forall2 P l l'.
Proof.
  induction l as [|a l IH]; intros Hl.
  - exists []. split; [done|constructor].
  - destruct (Hl a) as (b & Hb & HP); [by left|].
    destruct IH as (l' & Hl' & Hall); [intros a' Ha'; apply Hl; by right|].
    exists (b :: l'). split; [|by constructor].
    cbn [mbind list_bind]. rewrite Hb. simpl. f_equal. exact Hl'.
Qed.

Lemma occurs_refl (v : string) : occurs v v.
Proof. exists "", "". apply chars_inj. rewrite !chars_app. simpl. by rewrite app_nil_r. Qed.

Section AlternationSteps.

Variable escapeRegExp : string -> string.
Variable escaprRegExpForPureText : string -> string.
Variable getMD5Id : string -> string.
Variable getDocumentation : string -> string.

(** What is assumed of [escapeRegExp]: it leaves a plain text as it is. *)
Hypothesis escapeRegExp_plain : forall str, plain str -> escapeRegExp str = str.

Lemma steps_of_plain_variant (this : StepsHandler) (desc : string) (def : Location)
    (g : GherkinType.t) (doc : string) (v : string) :
  pureTextSteps (settings this) = false -> plain v ->
  exists s,
    steps_of_variant escapeRegExp escaprRegExpForPureText getMD5Id this desc def g doc v = [s]
    /\ RegExp.create false v = Some (reg s).
Proof.
  intros Hpure Hv. unfold steps_of_variant. cbv zeta.
  assert (Hreg : regTextFor escapeRegExp escaprRegExpForPureText (settings this) v = v).
  { unfold regTextFor, getRegTextForStep. rewrite Hpure.
    by rewrite regTextBeforeEscape_plain, escapeRegExp_plain. }
  rewrite Hreg. unfold new_RegExp at 1. rewrite create_plain by done.
  eexists. split; [reflexivity|]. reflexivity.
Qed.

(** C5, as the code has it.  For a template made of plain text around one
    group of two or more plain, non-empty alternatives, with
    [stepsInvariants] set and an [escapeRegExp] that leaves plain text as it
    is, [getSteps] returns one record for each branch, in the order of the
    branches.  The full pattern of the record of a branch is the text of
    the template with the group replaced by the branch, unanchored: it
    matches a text if and only if that text of the branch occurs in it.  So
    it matches the text of its own branch, and it matches the text of
    another branch exactly when its own text occurs there. *)
Theorem getSteps_alternation (depth : nat) (this : StepsHandler) (fullStepLine : string)
    (pre post : string) (bs : list string) (def : Location) (g : GherkinType.t)
    (comments : gmap nat string) :
  stepsInvariants (settings this) = true ->
  pureTextSteps (settings this) = false ->
  plain pre -> plain post -> Forall (fun b => plain b /\ b <> "") bs -> 2 <= length bs ->
  exists steps,
    getSteps escapeRegExp escaprRegExpForPureText getMD5Id getDocumentation
             (S (S depth)) this fullStepLine (alternation_template pre bs post)
             def g comments = Returns steps
    /\ length steps = length bs
    /\ (forall k b s,
          bs !! k = Some b -> steps !! k = Some s ->
          RegExp.source (reg s) = pre +:+ b +:+ post
          /\ (forall t, RegExp.test (reg s) t = true <-> occurs (pre +:+ b +:+ post) t)
          /\ RegExp.test (reg s) (pre +:+ b +:+ post) = true
          /\ (forall b', RegExp.test (reg s) (pre +:+ b' +:+ post) = true
                         <-> occurs (pre +:+ b +:+ post) (pre +:+ b' +:+ post))).
Proof.
  intros Hinv Hpure Hpre Hpost Hbs Htwo.
  unfold getSteps. rewrite Hinv.
  rewrite getStepTextInvariants_alternation by done.
  unfold mbind at 1, outcome_bind at 1. cbv beta iota zeta.
  rewrite map_valid_variants.
  match goal with
  | |- context [steps_of_variant _ _ _ _ ?desc _ _ ?doc] =>
    destruct (bind_singletons
                (steps_of_variant escapeRegExp escaprRegExpForPureText getMD5Id this
                   desc def g doc)
                (fun v s => RegExp.create false v = Some (reg s))
                ((fun b => pre +:+ b +:+ post) <$> bs)) as (steps & -> & Hsteps)
  end.
  { intros v (b & -> & Hb)%list_elem_of_fmap.
    apply steps_of_plain_variant; [done|]. by apply (plain_variant pre post bs). }
  exists steps. split; [done|].
  apply Forall2_fmap_l in Hsteps.
  split; [symmetry; by eapply Forall2_length|].
  intros k b s Hb Hs.
  pose proof (Forall2_lookup_lr _ _ _ _ _ _ Hsteps Hb Hs) as Hcreate. simpl in Hcreate.
  assert (Hplain : plain (pre +:+ b +:+ post)).
  { apply (plain_variant pre post bs); try done. by eapply list_elem_of_lookup_2. }
  assert (Htest : forall t, test (reg s) t = true <-> occurs (pre +:+ b +:+ post) t)
    by by apply test_plain.
  split; [|split; [done|split]].
  - rewrite create_plain in Hcreate by done. by injection Hcreate as <-.
  - apply Htest, occurs_refl.
  - intros b'. apply Htest.
Qed.

End AlternationSteps.

(** [getSteps_alternation] on the template [I go (one|two|three)] of the
    spec. *)
Lemma getSteps_alternation_witness :
  exists steps,
    sample_getSteps empty_handler (alternation_template "I go " ["one"; "two"; "three"] "")
    = Returns steps
    /\ length steps = 3
    /\ (forall k b s,
          ["one"; "two"; "three"] !! k = Some b -> steps !! k = Some s ->
          RegExp.source (reg s) = "I go " +:+ b +:+ ""
          /\ (forall t, RegExp.test (reg s) t = true <-> occurs ("I go " +:+ b +:+ "") t)
          /\ RegExp.test (reg s) ("I go " +:+ b +:+ "") = true
          /\ (forall b', RegExp.test (reg s) ("I go " +:+ b' +:+ "") = true
                         <-> occurs ("I go " +:+ b +:+ "") ("I go " +:+ b' +:+ ""))).
Proof.
  apply (getSteps_alternation escapeRegExp_model sample_pure_escape sample_md5
           sample_documentation (fun str _ => eq_refl) 6 empty_handler
           (alternation_template "I go " ["one"; "two"; "three"] "")
           "I go " "" ["one"; "two"; "three"] (sample_location 0) GherkinType.Given ∅
           eq_refl eq_refl).
  - unfold plain. cbn. repeat constructor.
  - constructor.
  - repeat constructor; try discriminate; unfold plain; cbn; repeat constructor.
  - simpl. lia.
Defined.

(** C5, counterexample.  The template [I go (up|upper)] gives two records;
    the full pattern of the record of the branch [up] also matches
    [I go upper], the text of the other branch.  And the template
    [x[ (a|b)], whose two variants are no regular expressions, gives no
    record. *)
Lemma getSteps_branch_inside_branch :
  (fun s => (text s, RegExp.test (reg s) "I go up", RegExp.test (reg s) "I go upper"))
    <$> match sample_getSteps empty_handler "I go (up|upper)" with
        | Returns steps => steps
        | Throws _ => []
        end
  = [ ("I go up", true, true); ("I go upper", false, true) ]
  /\ sample_getSteps empty_handler "x[ (a|b)" = Returns [].
Proof. split; by vm_compute. Qed.
(** * Properties of the rest of the handler *)

(** ** Templates without a group of alternatives *)

(** X1. A template that lacks one of the three characters a group of
    alternatives is made of (an opening parenthesis, a bar, a closing
    parenthesis) is its only variant, whatever else it contains. *)
Theorem getStepTextInvariants_no_group (depth : nat) (step : string) (c : ascii) :
  c ∈ [chr "("; chr "|"; chr ")"] -> c ∉ Str.chars step ->
  getStepTextInvariants (S depth) step = Returns [step].
Proof.
  intros Hc Habsent. simpl.
  rewrite (match_needs c bracesRegEx step); [done| |done|done].
  repeat (apply elem_of_cons in Hc as [->|Hc]; [by vm_compute|]).
  by apply elem_of_nil in Hc.
Qed.

Lemma getStepTextInvariants_no_group_witness :
  getStepTextInvariants 1 "I see (the {int} things" = Returns ["I see (the {int} things"].
Proof.
  apply (getStepTextInvariants_no_group 0 "I see (the {int} things" (chr "|")).
  - set_solver.
  - vm_compute. intros H. repeat (apply elem_of_cons in H as [H|H]; [discriminate|]).
    by apply elem_of_nil in H.
Defined.

(** ** Lines without placeholders *)

(** X2. A line that lacks an opening or a closing angle bracket has no
    placeholder: [getGherkinMatch] gives the match of the Gherkin pattern on
    the line itself, whatever the document and the index are. *)
Theorem getGherkinMatch_no_placeholder (this : StepsHandler) (line document : string)
    (c : ascii) :
  c ∈ [chr "<"; chr ">"] -> c ∉ Str.chars line ->
  getGherkinMatch this line document = Str.match_ getGherkinRegEx line.
Proof.
  intros Hc Habsent. unfold getGherkinMatch, Str.match_g.
  rewrite (matches_needs c true (literal "<.*?>") line); [done| |done|done].
  repeat (apply elem_of_cons in Hc as [->|Hc]; [by vm_compute|]).
  by apply elem_of_nil in Hc.
Qed.

Lemma getGherkinMatch_no_placeholder_witness :
  getGherkinMatch sample_handler "When I go > up" two_tables_document
  = Str.match_ getGherkinRegEx "When I go > up".
Proof.
  apply (getGherkinMatch_no_placeholder sample_handler "When I go > up" two_tables_document
           (chr "<")).
  - set_solver.
  - vm_compute. intros H. repeat (apply elem_of_cons in H as [H|H]; [discriminate|]).
    by apply elem_of_nil in H.
Defined.

(** ** The variables of the scenario outlines *)

Lemma fold_bind_invariant (P : string -> string -> Prop) (l : list (string * string)) :
  Forall (fun nv => P nv.1 nv.2) l ->
  forall res : gmap string string,
    (forall n v, res !! n = Some v -> P n v) ->
    forall n v, fold_left bind l res !! n = Some v -> P n v.
Proof.
  induction 1 as [|[k w] l Hkw _ IH]; intros res Hres n v; simpl; [apply Hres|].
  apply IH. intros n' v'. unfold bind. simpl.
  destruct (decide (k = n')) as [->|Hne].
  - rewrite lookup_insert_eq. by intros [= <-].
  - rewrite lookup_insert_ne by done. apply Hres.
Qed.

Lemma all_bindings_truthy (arr : list string) :
  Forall (fun nv => nv.2 <> "") (all_bindings arr).
Proof.
  unfold all_bindings. apply Forall_concat, Forall_forall. intros l Hl.
  apply elem_of_lookup_imap in Hl as (i & a & -> & _).
  unfold table_bindings.
  destruct (is_examples_header a && truthy (arr !! (i + 2))); [|by constructor].
  cbv zeta. apply Forall_concat, Forall_forall. intros l Hl.
  apply elem_of_lookup_imap in Hl as (j & n & -> & _).
  destruct (split_row (default "" (arr !! (i + 2))) !! j) as [[|c v]|] eqn:Hv;
    simpl; repeat constructor. simpl. done.
Qed.

(** X3. [getOutlineVars] never binds a name to the empty string: a cell
    without a value binds nothing, so a name is bound exactly when its
    value passes for true. *)
Theorem getOutlineVars_values_not_empty (text : string) (n v : string) :
  getOutlineVars text !! n = Some v -> v <> "".
Proof.
  rewrite getOutlineVars_bindings.
  apply (fold_bind_invariant (fun _ v => v <> "")).
  - apply all_bindings_truthy.
  - intros n' v'. by rewrite lookup_empty.
Qed.

Lemma getOutlineVars_values_not_empty_witness :
  getOutlineVars one_table_document !! "name" = Some "Bob" /\ "Bob" <> "".
Proof.
  assert (Hbound : getOutlineVars one_table_document !! "name" = Some "Bob").
  { rewrite getOutlineVars_bindings.
    assert (H : all_bindings (split_lines one_table_document) = [] ++ [("name", "Bob")])
      by by vm_compute.
    rewrite H. apply fold_bind_last. by intros ?%elem_of_nil. }
  split; [exact Hbound|].
  exact (getOutlineVars_values_not_empty one_table_document "name" "Bob" Hbound).
Defined.

(** ** Strict types *)

Lemma classify_cases (kw : string) :
  Gherkin.classify kw ∈ [GherkinType.Given; GherkinType.When; GherkinType.Then;
                         GherkinType.And; GherkinType.But; GherkinType.Other].
Proof. destruct (Gherkin.classify kw); set_solver. Qed.



(** ** Validation and the definition of a step *)

(** X5. Without [strictGherkinValidation], [validate] and [getDefinition]
    agree: [validate] keeps silent about a line exactly when the line, its
    trailing white space removed, has not the Gherkin shape or
    [getDefinition] finds a definition for it. *)
Theorem validate_agrees_with_getDefinition (this : StepsHandler) (line : string)
    (n : nat) (doc : string) :
  strictGherkinValidation (settings this) = false ->
  (validate this line n doc = None
   <-> getGherkinMatch this (trimEnd line) doc = None
       \/ is_Some (getDefinition this (trimEnd line) doc)).
Proof.
  intros Hoff. unfold validate, getDefinition, validate_lookup, gherkinWord.
  rewrite Hoff. destruct (getGherkinMatch this (trimEnd line) doc) as [m|].
  - destruct (getStepByText this (group 4 m) None) as [s|]; simpl.
    + split; [intros _; right; by eexists|done].
    + split; [done|]. intros [H|[d H]]; discriminate.
  - split; [by left|done].
Qed.

Lemma validate_agrees_with_getDefinition_witness :
  validate sample_handler "When I go up  " 3 "" = None
  <-> getGherkinMatch sample_handler (trimEnd "When I go up  ") "" = None
      \/ is_Some (getDefinition sample_handler (trimEnd "When I go up  ") "").
Proof.
  apply (validate_agrees_with_getDefinition sample_handler "When I go up  " 3 "").
  reflexivity.
Defined.

(** ** The counts of uses *)






Section Counting.

Variable getFileContent : string -> string.
Variable glob_sync : string -> list string.





End Counting.

(** ** The tokens of a pattern text *)

Lemma join_last_append (sep a b : string) (r : list string) :
  Str.join sep (r ++ [a +:+ b]) = Str.join sep (r ++ [a]) +:+ b.
Proof.
  destruct r as [|x r]; [done|].
  rewrite !(join_snoc sep (x :: r)) by done. by rewrite !append_assoc.
Qed.

Lemma parts_step_join (st : parts_state) (c : ascii) :
  Str.join " " (res (parts_step st c) ++ [currString (parts_step st c)])
  = Str.join " " (res st ++ [currString st]) +:+ String c EmptyString.
Proof.
  unfold parts_step. destruct (bracesMode st); simpl; [apply join_last_append|].
  destruct (isc c " ") eqn:Hsp; simpl.
  - apply Ascii.eqb_eq in Hsp. subst c.
    rewrite join_snoc by (by destruct (res st)). done.
  - destruct (isc c "("); simpl; apply join_last_append.
Qed.

Lemma append_empty_r (s : string) : s +:+ "" = s.
Proof.
  induction s as [|a s IH]; [done|].
  change (String a (s +:+ "") = String a s). by rewrite IH.
Qed.

Lemma parts_fold_join (l : list ascii) :
  forall st,
    let st' := fold_left parts_step l st in
    Str.join " " (res st' ++ [currString st'])
    = Str.join " " (res st ++ [currString st]) +:+ Str.str l.
Proof.
  induction l as [|c l IH]; intros st; simpl.
  - symmetry. apply append_empty_r.
  - rewrite IH, parts_step_join. by rewrite append_assoc.
Qed.

Lemma getPartialRegParts_not_empty (escapeRegExp escaprRegExpForPureText : string -> string)
    (s : Settings) (text : string) :
  getPartialRegParts escapeRegExp escaprRegExpForPureText s text <> [].
Proof.
  unfold getPartialRegParts, split_parts. cbv zeta. by destruct (res _).
Qed.

(** X8. The tokens that [getPartialRegParts] cuts a template's pattern
    text into, joined again by single spaces, are the pattern text: the
    cuts fall on spaces only, each cut takes one space away, and nothing
    else is lost, whatever the parentheses of the text are.  There is always
    at least one token. *)
Theorem getPartialRegParts_joined_is_pattern_text (escapeRegExp escaprRegExpForPureText
    : string -> string) (s : Settings) (text : string) :
  Str.join " " (getPartialRegParts escapeRegExp escaprRegExpForPureText s text)
  = regTextFor escapeRegExp escaprRegExpForPureText s text
  /\ getPartialRegParts escapeRegExp escaprRegExpForPureText s text <> [].
Proof.
  split; [|apply getPartialRegParts_not_empty].
  unfold getPartialRegParts, regTextFor, split_parts. cbv zeta.
  rewrite parts_fold_join. simpl. apply str_chars.
Qed.

(** ** The partial pattern text *)

Lemma start_anchor_re :
  literal "^\^|^"
  = Make "^\^|^" false
      (NAlt (NSeq NBol (NSeq (NChar (chr "^")) NEmpty)) (NSeq NBol NEmpty)) 0.
Proof. reflexivity. Qed.

Lemma replace_start_anchor (t : string) :
  Str.replace false (literal "^\^|^") "^" (String (chr "(") t) = String (chr "^") (String (chr "(") t).
Proof.
  unfold Str.replace, Str.matches, exec. rewrite start_anchor_re.
  simpl. by rewrite str_chars.
Qed.

Lemma partial_text_wrapped (escapeRegExp escaprRegExpForPureText : string -> string)
    (s : Settings) (regText : string) :
  getPartialRegText escapeRegExp escaprRegExpForPureText s regText
  = "^" +:+ Str.join "( |$)"
              ((fun el => "(" +:+ el +:+ "|$)")
                 <$> getPartialRegParts escapeRegExp escaprRegExpForPureText s regText).
Proof.
  unfold getPartialRegText.
  pose proof (getPartialRegParts_not_empty escapeRegExp escaprRegExpForPureText s regText)
    as Hne.
  destruct (getPartialRegParts _ _ s regText) as [|el els]; [done|].
  rewrite fmap_cons.
  assert (Hhead : exists t, Str.join "( |$)" (("(" +:+ el +:+ "|$)")
                              :: ((fun el => "(" +:+ el +:+ "|$)") <$> els))
                            = String (chr "(") t).
  { destruct els; simpl; eauto. }
  destruct Hhead as [t ->]. apply replace_start_anchor.
Qed.

(** X9. The partial pattern text of a template is a caret followed by the
    tokens of its pattern text, each wrapped as [(token|$)], with [( |$)]
    between them.  The caret is always added: a pattern text that begins
    with a caret of its own keeps it inside the first group. *)
Theorem getPartialRegText_shape (escapeRegExp escaprRegExpForPureText : string -> string)
    (s : Settings) (regText : string) :
  getPartialRegText escapeRegExp escaprRegExpForPureText s regText
  = "^" +:+ Str.join "( |$)"
              ((fun el => "(" +:+ el +:+ "|$)")
                 <$> getPartialRegParts escapeRegExp escaprRegExpForPureText s regText).
Proof. apply partial_text_wrapped. Qed.

(** ** A template that [getStepTextInvariants] cannot expand *)

Lemma substitution_matched_text (r : mresult) (s x : list ascii) :
  chr "$" ∉ x ->
  forall fuel, length x + 2 < fuel ->
    Str.substitution fuel r s (x ++ [chr "$"; chr "&"]) = x ++ Str.chars (m_text r).
Proof.
  induction x as [|c x IH]; intros Hx fuel Hfuel.
  - do 2 (destruct fuel; [simpl in Hfuel; lia|]). simpl. by rewrite app_nil_r.
  - destruct fuel; [simpl in Hfuel; lia|]. cbn [app Str.substitution].
    unfold isc. destruct (Ascii.eqb_spec c (chr "$")) as [->|Hne].
    + exfalso. apply Hx. by left.
    + rewrite IH; [done|by intros Hin; apply Hx; right|simpl in Hfuel; lia].
Qed.

Section Runaway.

Variable x y post : string.

Hypothesis plain_x : plain x.
Hypothesis plain_y : plain y.
Hypothesis y_not_empty : y <> "".
Hypothesis plain_post : plain post.

Let first : string := x +:+ "$&".
Let G : string := "(" +:+ first +:+ "|" +:+ y +:+ ")".

Lemma self_inserting_template_group (pre : string) :
  self_inserting_template pre x y post = pre +:+ G +:+ post.
Proof.
  unfold self_inserting_template, G, first. apply chars_inj.
  rewrite !chars_app. change (Str.chars "$&|") with (Str.chars "$&" ++ Str.chars "|").
  by list_assoc.
Qed.

Lemma chars_G :
  Str.chars G = chr "(" :: Str.chars first ++ chr "|" :: Str.chars y ++ [chr ")"].
Proof. unfold G. by rewrite !chars_app. Qed.

Lemma first_not_paren : Forall not_paren (Str.chars first).
Proof.
  unfold first. rewrite chars_app. apply Forall_app. split.
  - eapply Forall_impl; [exact plain_x|]. apply plain_not_paren.
  - repeat constructor.
Qed.

Lemma y_chars_not_empty : Str.chars y <> [].
Proof. destruct y; [done|discriminate]. Qed.

Lemma runaway_match (pre : string) :
  plain pre ->
  exists m, Str.match_ bracesRegEx (pre +:+ G +:+ post) = Some m /\ group 1 m = G.
Proof.
  intros Hpre. unfold Str.match_, exec.
  change list_ascii_of_string with Str.chars. rewrite !chars_app, chars_G.
  pose proof (bracesRegEx_finds (Str.chars pre) (Str.chars first) (Str.chars y)
                (Str.chars post) Hpre) as Hfind.
  cbv zeta in Hfind. rewrite Hfind.
  - eexists. split; [reflexivity|].
    change (group 1 ?m) with (default "" (mjoin (m_groups m !! 0))).
    cbn [m_groups]. change ([Some ?x] !! 0) with (Some (Some x)).
    cbn [mjoin option_join default]. change (Datatypes.id ?x) with x.
    rewrite <- chars_G. apply str_chars.
  - unfold first. rewrite chars_app. by destruct (Str.chars x).
  - apply y_chars_not_empty.
  - apply first_not_paren.
  - exact plain_y.
Qed.

Lemma runaway_variants :
  Str.split_str "|" (Str.replace true parens "" (Str.replace false (literal "\(\?:") "" G))
  = [first; y].
Proof.
  rewrite (replace_needs (chr "?") false _ _ G); [|by vm_compute|by vm_compute|].
  2:{ rewrite chars_G. unfold first. rewrite chars_app. intros Hin.
      apply elem_of_cons in Hin as [Hin|Hin]; [done|].
      apply elem_of_app in Hin as [Hin|Hin].
      - apply elem_of_app in Hin as [Hin|Hin];
          [exfalso; exact (plain_absent x (chr "?") plain_x eq_refl Hin)|in_literal Hin].
      - apply elem_of_cons in Hin as [Hin|Hin]; [done|].
        apply elem_of_app in Hin as [Hin|Hin];
          [exfalso; exact (plain_absent y (chr "?") plain_y eq_refl Hin)|in_literal Hin]. }
  assert (Hinner : Str.chars G = chr "(" :: Str.chars (Str.join "|" [first; y]) ++ [chr ")"]).
  { rewrite chars_G. simpl. rewrite !chars_app. simpl. by rewrite <- !app_assoc. }
  rewrite <- (str_chars G), Hinner. rewrite replace_parens.
  - rewrite str_chars. apply split_str_join; [done|].
    repeat constructor.
    + unfold first. rewrite chars_app. rewrite elem_of_app. intros [Hin|Hin].
      * exact (plain_absent x (chr "|") plain_x eq_refl Hin).
      * in_literal Hin.
    + by apply plain_no_bar.
  - simpl. rewrite !chars_app. simpl. rewrite !Forall_app. split.
    + apply first_not_paren.
    + constructor; [by split|].
      eapply Forall_impl; [exact plain_y|]. apply plain_not_paren.
Qed.

Lemma runaway_replace (pre : string) :
  plain pre ->
  Str.replace_str G first (pre +:+ G +:+ post) = (pre +:+ x) +:+ G +:+ post.
Proof.
  intros Hpre. unfold Str.replace_str.
  rewrite !chars_app. rewrite (index_from_skip _ _ _ (chr "(")).
  2:{ by rewrite chars_G. }
  2:{ by apply plain_absent. }
  cbn [Nat.add Str.splice m_index m_end m_text].
  replace (Str.chars first) with (Str.chars x ++ [chr "$"; chr "&"])
    by (unfold first; by rewrite chars_app).
  rewrite substitution_matched_text.
  2:{ by apply plain_absent. }
  2:{ unfold first. rewrite <- !length_chars, !chars_app, !length_app. simpl. lia. }
  cbn [m_text].
  rewrite Nat.sub_0_r. change (drop 0 ?l) with l. rewrite take_app_length.
  rewrite <- length_chars, <- length_app.
  rewrite (app_assoc (Str.chars pre) (Str.chars G) (Str.chars post)).
  rewrite drop_app_length.
  apply chars_inj. rewrite chars_str, !chars_app. by rewrite <- !app_assoc.
Qed.

Lemma runaway_expansion (depth : nat) :
  forall pre, plain pre ->
    getStepTextInvariants depth (pre +:+ G +:+ post) = Throws RangeError.
Proof.
  induction depth as [|depth IH]; intros pre Hpre; [done|].
  cbn [getStepTextInvariants].
  destruct (runaway_match pre Hpre) as (m & -> & Hm). rewrite Hm.
  rewrite runaway_variants. cbn [fold_left mbind outcome_bind].
  rewrite runaway_replace by done.
  rewrite IH; [done|]. apply plain_app. by split.
Qed.

End Runaway.

(** X10. A template with a group of alternatives whose first branch ends
    with [$&] is never expanded: putting the branch in the place of the
    group, [replace] reads [$&] as the matched text and writes the group
    back, so every call of [getStepTextInvariants] makes another one, and
    the expansion ends with the RangeError of the exhausted stack however
    deep the stack is.  [getSteps] calls it outside its [try]: with
    [stepsInvariants] set, the error leaves [getSteps]. *)
Theorem getStepTextInvariants_never_returns (escapeRegExp escaprRegExpForPureText getMD5Id
    getDocumentation : string -> string) (depth : nat) (pre x y post : string)
    (this : StepsHandler) (fullStepLine : string) (def : Location) (g : GherkinType.t)
    (comments : gmap nat string) :
  plain pre -> plain x -> plain y -> y <> "" -> plain post ->
  getStepTextInvariants depth (self_inserting_template pre x y post) = Throws RangeError
  /\ (stepsInvariants (settings this) = true ->
      getSteps escapeRegExp escaprRegExpForPureText getMD5Id getDocumentation depth this
               fullStepLine (self_inserting_template pre x y post) def g comments
      = Throws RangeError).
Proof.
  intros Hpre Hx Hy Hne Hpost.
  assert (Hthrows : getStepTextInvariants depth (self_inserting_template pre x y post)
                    = Throws RangeError).
  { rewrite self_inserting_template_group. by apply runaway_expansion. }
  split; [done|]. intros Hon. unfold getSteps. by rewrite Hon, Hthrows.
Qed.

Lemma getStepTextInvariants_never_returns_witness :
  getStepTextInvariants 50 "I pay (a$&|b) now" = Throws RangeError
  /\ (stepsInvariants (settings empty_handler) = true ->
      getSteps escapeRegExp_model sample_pure_escape sample_md5 sample_documentation 50
               empty_handler "Given('I pay (a$&|b) now', f)" "I pay (a$&|b) now"
               (sample_location 0) GherkinType.Given ∅
      = Throws RangeError).
Proof.
  apply (getStepTextInvariants_never_returns escapeRegExp_model sample_pure_escape sample_md5
           sample_documentation 50 "I pay " "a" "b" " now" empty_handler
           "Given('I pay (a$&|b) now', f)" (sample_location 0) GherkinType.Given ∅).
  all: try (unfold plain; vm_compute; repeat constructor).
  discriminate.
Defined.

(** ** The text a completion inserts *)

Lemma toLowerCase_app (a b : string) :
  toLowerCase (a +:+ b) = toLowerCase a +:+ toLowerCase b.
Proof.
  unfold toLowerCase. apply chars_inj.
  rewrite chars_str, !chars_app, !chars_str. apply fmap_app.
Qed.

Lemma toLowerCase_length (a : string) : String.length (toLowerCase a) = String.length a.
Proof.
  unfold toLowerCase. rewrite <- (length_chars (Str.str _)), chars_str, length_fmap.
  apply length_chars.
Qed.

Lemma startsWith_app (a b : string) : startsWith (a +:+ b) a = true.
Proof.
  unfold startsWith. apply bool_decide_eq_true.
  rewrite chars_app, strip_prefix_self. by eexists.
Qed.

Lemma substring_app (a b : string) : substring (String.length a) (a +:+ b) = b.
Proof.
  unfold substring. rewrite chars_app, <- length_chars, drop_app_length. apply str_chars.
Qed.

(** X11. With [pureTextSteps] set, when the step begins with what was
    typed, up to the case of the letters, the text to insert is what follows
    in the step, white space at its ends removed. *)
Theorem getCompletionInsertText_pure (s : Settings) (begin rest stepPart : string) :
  pureTextSteps s = true ->
  toLowerCase begin = toLowerCase stepPart ->
  getCompletionInsertText s (begin +:+ rest) stepPart = trim rest.
Proof.
  intros Hpure Hsame. unfold getCompletionInsertText. rewrite Hpure.
  rewrite toLowerCase_app, <- Hsame, startsWith_app.
  assert (Hlen : String.length stepPart = String.length begin).
  { by rewrite <- (toLowerCase_length stepPart), <- Hsame, toLowerCase_length. }
  by rewrite Hlen, substring_app.
Qed.

Lemma getCompletionInsertText_pure_witness :
  getCompletionInsertText
    {| steps := []; strictGherkinCompletion := false; strictGherkinValidation := false;
       smartSnippets := false; stepsInvariants := false; customParameters := None;
       gherkinDefinitionPart := None; stepRegExSymbol := None; pureTextSteps := true |}
    ("I Go " +:+ " up (the hill) ") "i go "
  = "up (the hill)".
Proof.
  apply (getCompletionInsertText_pure _ "I Go " " up (the hill) " "i go "); reflexivity.
Defined.

(** ** The search for a match, position after position *)

(** When the pattern matches at none of the positions of [P], the search
    goes on behind [P]. *)
Lemma exec_from_skip (re : RegExp.t) (P : list ascii) :
  forall rest pos prev,
    (forall i prev', i < length P ->
       match_here re (pos + i) prev' (drop i P ++ rest) = None) ->
    exec_from re pos prev (P ++ rest)
    = exec_from re (pos + length P) (match last P with Some c => Some c | None => prev end)
                rest.
Proof.
  induction P as [|c P IH]; intros rest pos prev Hmiss.
  - simpl. by rewrite Nat.add_0_r.
  - cbn [app]. rewrite exec_from_miss.
    2:{ specialize (Hmiss 0 prev). rewrite Nat.add_0_r in Hmiss. apply Hmiss. simpl. lia. }
    rewrite IH.
    + cbn [length]. rewrite Nat.add_succ_r. f_equal.
      destruct P as [|c' P]; [reflexivity|]. rewrite (last_cons_cons c).
      destruct (last (c' :: P)) eqn:Hl; [reflexivity|]. by apply last_None in Hl.
    + intros i prev' Hi. specialize (Hmiss (S i) prev').
      rewrite Nat.add_succ_r in Hmiss. apply Hmiss. simpl. lia.
Qed.

Lemma exec_from_nowhere (re : RegExp.t) (l : list ascii) :
  forall pos prev,
    (forall i prev', i <= length l -> match_here re (pos + i) prev' (drop i l) = None) ->
    exec_from re pos prev l = None.
Proof.
  induction l as [|c l IH]; intros pos prev Hmiss.
  - specialize (Hmiss 0 prev (Nat.le_0_l _)). rewrite Nat.add_0_r in Hmiss.
    cbn [drop] in Hmiss. cbn [exec_from]. by rewrite Hmiss.
  - rewrite exec_from_miss.
    2:{ specialize (Hmiss 0 prev (Nat.le_0_l _)). by rewrite Nat.add_0_r in Hmiss. }
    apply IH. intros i prev' Hi. specialize (Hmiss (S i) prev').
    rewrite Nat.add_succ_r in Hmiss. apply Hmiss. simpl. lia.
Qed.

(** What [replace] makes of a text in which the pattern, without the [g]
    flag, matches first at the end of [P] and over [M]. *)
Lemma replace_first_match (re : RegExp.t) (tpl : string) (P M Q : list ascii)
    (groups : list (option string)) :
  chr "$" ∉ Str.chars tpl ->
  exec re (Str.str (P ++ M ++ Q))
  = Some (MResult (length P) (length P + length M) (Str.str M) groups) ->
  Str.replace false re tpl (Str.str (P ++ M ++ Q)) = Str.str (P ++ Str.chars tpl ++ Q).
Proof.
  intros Htpl Hexec. unfold Str.replace, Str.matches. rewrite Hexec.
  cbn [Str.splice m_index m_end]. rewrite chars_str.
  rewrite substitution_plain; [|done|rewrite length_chars; lia].
  rewrite Nat.sub_0_r. change (drop 0 ?l) with l. rewrite take_app_length.
  rewrite <- length_app, (app_assoc P M Q), drop_app_length. done.
Qed.

Lemma replace_no_match (global : bool) (re : RegExp.t) (tpl s : string) :
  exec_from re 0 None (Str.chars s) = None -> Str.replace global re tpl s = s.
Proof.
  intros Hnone. unfold Str.replace, Str.matches, exec.
  change list_ascii_of_string with Str.chars.
  destruct global.
  - unfold Str.exec_all. rewrite Nat.add_comm. cbn [Nat.add]. unfold Str.exec_at.
    cbn [Nat.leb drop]. change (drop 0 ?l) with l. rewrite Hnone. simpl. apply str_chars.
  - rewrite Hnone. simpl. apply str_chars.
Qed.

(** ** A run of characters of a class up to the end of the text

    The patterns [C*$] and [C+$], for a class [C]. *)

Section ClassTail.

Variable re : RegExp.t.
Variable neg : bool.
Variable items : list class_item.
Variable mn : nat.

Hypothesis re_tree :
  tree re = NSeq (NRepeat mn None true (NClass neg items)) (NSeq NEol NEmpty).
Hypothesis re_case : ignoreCase re = false.
Hypothesis re_groups : ngroups re = 0.
Hypothesis mn_small : mn <= 1.

Let inside (c : ascii) : Prop := in_class false neg items c = true.

Let at_end : cont := matcher false (NSeq NEol NEmpty) Some.

Lemma at_end_some (x : mstate) : ms_rest x = [] -> at_end x = Some x.
Proof. intros Hx. unfold at_end. simpl. by rewrite Hx. Qed.

Lemma at_end_none (x : mstate) : ms_rest x <> [] -> at_end x = None.
Proof. intros Hx. unfold at_end. simpl. by destruct (ms_rest x). Qed.

Lemma run_matcher (x : mstate) :
  matcher false (tree re) Some x
  = matcher false (NRepeat mn None true (NClass neg items)) at_end x.
Proof. by rewrite re_tree. Qed.

Lemma repeat_one_unfold (fuel : nat) (k : cont) (x : mstate) :
  repeat_matcher (matcher false (NClass neg items)) [] (S fuel) 1 None true k x
  = match ms_rest x with
    | a :: t =>
      if in_class false neg items a
      then repeat_matcher (matcher false (NClass neg items)) [] fuel 0 None true k
                          (advance x a t)
      else None
    | [] => None
    end.
Proof.
  cbn [repeat_matcher matcher Nat.eqb negb andb clear_caps with_caps foldr ms_rest].
  destruct (ms_rest x) as [|a t]; [done|].
  destruct (in_class false neg items a); [|done]. reflexivity.
Qed.

Lemma plus_unfold (k : cont) (x : mstate) :
  matcher false (NRepeat 1 None true (NClass neg items)) k x
  = match ms_rest x with
    | a :: t =>
      if in_class false neg items a
      then repeat_matcher (matcher false (NClass neg items)) [] (1 + length (ms_rest x))
                          0 None true k (advance x a t)
      else None
    | [] => None
    end.
Proof. cbn [matcher groups_of]. apply repeat_one_unfold. Qed.

(** The run stops before a character that is not in the class: no
    match. *)
Lemma tail_miss (run : list ascii) (c : ascii) (rest : list ascii) (x : mstate) :
  ms_rest x = run ++ c :: rest -> Forall inside run -> in_class false neg items c = false ->
  matcher false (tree re) Some x = None.
Proof.
  intros Hx Hrun Hc. rewrite run_matcher.
  assert (Hk : forall y l, ms_rest y = l ++ c :: rest ->
                 forall j, j <= length l -> at_end (after_run y (take j l)) = None).
  { intros y l Hy j Hj. apply at_end_none.
    rewrite (after_run_rest (take j l) y (drop j l ++ c :: rest)).
    - by destruct (drop j l).
    - by rewrite Hy, app_assoc, take_drop. }
  destruct mn as [|[|n]]; [| |lia].
  - cbn [matcher groups_of Nat.add].
    apply (star_fails neg items at_end run (c :: rest)); try done.
    + lia.
    + by apply Hk.
  - rewrite plus_unfold, Hx.
    destruct run as [|a run]; cbn [app]; [by rewrite Hc|].
    inversion Hrun as [|? ? Ha Hrun']; subst. unfold inside in Ha. rewrite Ha.
    apply (star_fails neg items at_end run (c :: rest)); try done.
    + simpl. lia.
    + apply (Hk _ run). done.
Qed.

(** The run goes to the end of the text: a match. *)
Lemma tail_hit (run : list ascii) (x : mstate) :
  ms_rest x = run -> Forall inside run -> mn <= length run ->
  matcher false (tree re) Some x = Some (after_run x run).
Proof.
  intros Hx Hrun Hlen. rewrite run_matcher.
  assert (Hk : forall y, ms_rest y = run -> at_end (after_run y run) = Some (after_run y run)).
  { intros y Hy. apply at_end_some. apply after_run_rest. by rewrite app_nil_r. }
  destruct mn as [|[|n]]; [| |lia].
  - cbn [matcher groups_of Nat.add].
    apply (star_backtracks neg items at_end run [] []); try done.
    + by rewrite !app_nil_r.
    + by rewrite app_nil_r.
    + lia.
    + intros j Hj. simpl in Hj. lia.
    + by apply Hk.
  - apply (plus_backtracks neg items at_end run [] []); try done.
    + by rewrite !app_nil_r.
    + destruct run; [simpl in Hlen; lia|done].
    + by rewrite app_nil_r.
    + intros j Hj. simpl in Hj. lia.
    + by apply Hk.
Qed.

Lemma tail_nothing (x : mstate) :
  ms_rest x = [] -> mn = 1 -> matcher false (tree re) Some x = None.
Proof. intros Hx Hmn. by rewrite run_matcher, Hmn, plus_unfold, Hx. Qed.

(** A list that ends with a character outside the class starts, from any
    of its positions, with a run of the class and such a character. *)
Lemma run_then_stop (l after : list ascii) :
  (exists c, last l = Some c /\ in_class false neg items c = false) ->
  exists run c rest,
    l ++ after = run ++ c :: rest /\ Forall inside run /\ in_class false neg items c = false.
Proof.
  intros (c0 & Hlast & Hc0). induction l as [|a l IH]; [done|].
  destruct (in_class false neg items a) eqn:Ha.
  - destruct l as [|b l]; [simpl in Hlast; congruence|].
    rewrite last_cons_cons in Hlast.
    destruct (IH Hlast) as (run & c & rest & Heq & Hrun & Hc).
    exists (a :: run), c, rest. cbn [app]. rewrite <- Heq. split; [done|].
    split; [by constructor|done].
  - exists [], a, (l ++ after). by repeat split.
Qed.

Lemma last_drop {A} (l : list A) (i : nat) : i < length l -> last (drop i l) = last l.
Proof.
  revert i. induction l as [|a l IH]; intros i Hi; [simpl in Hi; lia|].
  destruct i as [|i]; [done|]. simpl drop. simpl in Hi.
  rewrite IH by lia. destruct l; [simpl in Hi; lia|]. by rewrite last_cons_cons.
Qed.

Lemma tail_miss_here (P run : list ascii) (pos i : nat) (prev : option ascii) :
  (exists c, last P = Some c /\ in_class false neg items c = false) ->
  i < length P ->
  match_here re pos prev (drop i P ++ run) = None.
Proof.
  intros HP Hi. unfold match_here. rewrite re_case.
  destruct (run_then_stop (drop i P) run) as (r & c & rest & Heq & Hr & Hc).
  { by rewrite last_drop. }
  by rewrite (tail_miss r c rest).
Qed.

(** The first match starts where the last run of the class starts. *)
Lemma class_tail_finds (P run : list ascii) (pos : nat) (prev : option ascii) :
  P = [] \/ (exists c, last P = Some c /\ in_class false neg items c = false) ->
  Forall inside run -> mn <= length run ->
  exec_from re pos prev (P ++ run)
  = Some (MResult (pos + length P) (pos + length P + length run) (Str.str run) []).
Proof.
  intros HP Hrun Hlen.
  rewrite exec_from_skip.
  2:{ intros i prev' Hi. destruct HP as [->|HP]; [simpl in Hi; lia|].
      by apply tail_miss_here. }
  apply exec_from_hit. unfold match_here. rewrite re_case, re_groups.
  rewrite (tail_hit run) by done.
  rewrite after_run_pos, after_run_caps. cbn [ms_pos ms_caps replicate drop fmap list_fmap].
  f_equal. f_equal. rewrite Nat.add_comm, Nat.add_sub. by rewrite take_ge.
Qed.

(** With [+], a text that does not end with a character of the class has
    no match. *)
Lemma class_tail_absent (P : list ascii) (pos : nat) (prev : option ascii) :
  P = [] \/ (exists c, last P = Some c /\ in_class false neg items c = false) ->
  mn = 1 ->
  exec_from re pos prev P = None.
Proof.
  intros HP Hmn. apply exec_from_nowhere. intros i prev' Hi.
  destruct (decide (i = length P)) as [->|Hne].
  - unfold match_here. rewrite re_case.
    rewrite (tail_nothing _); [done| |done]. simpl. by rewrite drop_all.
  - destruct HP as [->|HP]; [simpl in Hi, Hne; lia|].
    pose proof (tail_miss_here P [] (pos + i) i prev' HP) as Hmiss.
    rewrite app_nil_r in Hmiss. apply Hmiss. lia.
Qed.

(** Taking the last run of the class off a text. *)
Lemma replace_class_tail (P run : string) :
  P = "" \/ (exists c, last (Str.chars P) = Some c /\ in_class false neg items c = false) ->
  Forall inside (Str.chars run) ->
  Str.replace false re "" (P +:+ run) = P.
Proof.
  intros HP Hrun.
  assert (HP' : Str.chars P = []
                \/ (exists c, last (Str.chars P) = Some c
                              /\ in_class false neg items c = false)).
  { destruct HP as [->|HP]; [by left|by right]. }
  rewrite <- (str_chars (P +:+ run)), chars_app.
  destruct (decide (mn <= length (Str.chars run))) as [Hlen|Hlen].
  - rewrite <- (app_nil_r (Str.chars run)).
    rewrite (replace_first_match re "" (Str.chars P) (Str.chars run) [] []).
    + simpl. rewrite app_nil_r. apply str_chars.
    + by intros ?%elem_of_nil.
    + unfold exec. change list_ascii_of_string with Str.chars.
      rewrite chars_str, app_nil_r. rewrite class_tail_finds by done. simpl.
      by rewrite str_chars.
  - assert (Hmn : mn = 1) by lia.
    assert (Hempty : Str.chars run = []).
    { destruct (Str.chars run); [done|simpl in Hlen; lia]. }
    rewrite Hempty, app_nil_r. rewrite replace_no_match; [apply str_chars|].
    rewrite chars_str. by apply class_tail_absent.
Qed.

End ClassTail.

(** ** Trailing white space *)

Lemma in_class_space (c : ascii) : in_class false false [CSet false Space] c = Chr.is_space c.
Proof. unfold in_class. simpl. by rewrite orb_false_r. Qed.

Lemma in_class_not_space (c : ascii) :
  in_class false true [CSet false Space] c = negb (Chr.is_space c).
Proof. unfold in_class. simpl. by rewrite orb_false_r. Qed.

Lemma trimEnd_run (core ws : string) :
  ends_trimmed core -> all_space ws -> trimEnd (core +:+ ws) = core.
Proof.
  intros Hcore Hws. unfold trimEnd.
  apply (replace_class_tail (literal "\s*$") false [CSet false Space] 0); try done.
  - lia.
  - destruct Hcore as [->|(c & Hlast & Hc)]; [by left|right].
    exists c. by rewrite in_class_space.
  - eapply Forall_impl; [exact Hws|]. intros c Hc. by rewrite in_class_space.
Qed.

Lemma trailing_space (l : list ascii) :
  exists core ws,
    l = core ++ ws
    /\ (core = [] \/ exists c, last core = Some c /\ Chr.is_space c = false)
    /\ Forall (fun c => Chr.is_space c = true) ws.
Proof.
  induction l as [|a l IH] using rev_ind.
  - exists [], []. split_and!; [done|by left|done].
  - destruct (Chr.is_space a) eqn:Ha.
    + destruct IH as (core & ws & -> & Hcore & Hws).
      exists core, (ws ++ [a]). rewrite app_assoc. split_and!; [done|done|].
      apply Forall_app. split; [done|by repeat constructor].
    + exists (l ++ [a]), []. rewrite app_nil_r. split_and!; [done| |done].
      right. exists a. by rewrite last_snoc.
Qed.

(** X12. [validate] does not see the white space at the end of a line.
    Every line is a text that is empty or ends with a character that is no
    white space, followed by white space only; [validate] gives for the line
    what it gives for that text, and a warning ends where that text ends. *)
Theorem validate_ignores_trailing_space (this : StepsHandler) (line : string) (n : nat)
    (doc : string) :
  exists core ws,
    line = core +:+ ws /\ ends_trimmed core /\ all_space ws
    /\ trimEnd line = core
    /\ validate this line n doc = validate this core n doc
    /\ (forall d, validate this line n doc = Some d ->
                  character (end_ (d_range d)) = String.length core).
Proof.
  destruct (trailing_space (Str.chars line)) as (core & ws & Hline & Hcore & Hws).
  assert (Hcore' : ends_trimmed (Str.str core)).
  { destruct Hcore as [->|(c & Hlast & Hc)]; [by left|right].
    exists c. by rewrite chars_str. }
  assert (Hws' : all_space (Str.str ws)).
  { unfold all_space. by rewrite chars_str. }
  assert (Heq : line = Str.str core +:+ Str.str ws).
  { apply chars_inj. by rewrite chars_app, !chars_str. }
  assert (Htrim : trimEnd line = Str.str core).
  { rewrite Heq. by apply trimEnd_run. }
  assert (Htrim' : trimEnd (Str.str core) = Str.str core).
  { rewrite <- (append_empty_r (Str.str core)) at 1. apply trimEnd_run; [done|constructor]. }
  exists (Str.str core), (Str.str ws). split_and!; try done.
  - unfold validate. by rewrite Htrim, Htrim'.
  - intros d. unfold validate. rewrite Htrim.
    destruct (getGherkinMatch this (Str.str core) doc) as [m|]; [|done].
    destruct (validate_lookup this n doc m); [done|]. by intros [= <-].
Qed.

(** ** The words a completion is asked for *)

Lemma without_last_word_run (typed word : string) :
  ends_with_space typed -> no_space word -> without_last_word (typed +:+ word) = typed.
Proof.
  intros Htyped Hword. unfold without_last_word.
  apply (replace_class_tail (literal "[^\s]+$") true [CSet false Space] 1); try done.
  - destruct Htyped as [->|(c & Hlast & Hc)]; [by left|right].
    exists c. by rewrite in_class_not_space, Hc.
  - eapply Forall_impl; [exact Hword|]. intros c Hc. by rewrite in_class_not_space, Hc.
Qed.

Section Completion.

Variable getSortPrefix : nat -> nat -> string.

(** X13. [getCompletion] never answers with an empty list: it answers
    null when the line has not the Gherkin shape and when no step is to be
    proposed. *)
Theorem getCompletion_is_never_empty (this : StepsHandler) (line : string) (n : nat)
    (doc : string) :
  getCompletion getSortPrefix this line n doc <> Some []
  /\ (getGherkinMatch this line doc = None -> getCompletion getSortPrefix this line n doc = None).
Proof.
  unfold getCompletion. destruct (getGherkinMatch this line doc) as [m|]; [|done].
  cbv zeta. split; [|done].
  destruct (completion_item getSortPrefix this _ <$> _) as [|it its]; simpl; done.
Qed.

(** X14. The last word on the line, which is being typed, does not count:
    when the step content of the line is made of typed words that end with
    white space (or of nothing) and of a last word without white space,
    [getCompletion] proposes the steps whose partial pattern matches the
    typed words, of the requested type when [strictGherkinCompletion] is
    set, in the order of the index, each with its text as label, its id as
    data and the insert text computed for the typed words. *)
Theorem getCompletion_tests_typed_words (this : StepsHandler) (line : string) (n : nat)
    (doc : string) (m : mresult) (typed word : string) :
  getGherkinMatch this line doc = Some m ->
  group 4 m = typed +:+ word -> ends_with_space typed -> no_space word ->
  getCompletion getSortPrefix this line n doc
  = match offered this (group 2 m) n doc typed with
    | [] => None
    | steps => Some (completion_item getSortPrefix this typed <$> steps)
    end.
Proof.
  intros Hm Hcontent Htyped Hword. unfold getCompletion. rewrite Hm. cbv zeta.
  rewrite Hcontent, without_last_word_run by done.
  fold (offered this (group 2 m) n doc typed).
  by destruct (offered this (group 2 m) n doc typed).
Qed.

End Completion.

Lemma getCompletion_tests_typed_words_witness :
  (fun it => (label it, insertText it))
    <$> default [] (getCompletion (fun _ _ => "")
                      (indexed_handler ["I stay"; "I go up"; "I go down the {int} stairs"])
                      "When I go u" 0 "")
  = [("I go up", "up"); ("I go down the {int} stairs", "down the {int} stairs")].
Proof.
  set (h := indexed_handler ["I stay"; "I go up"; "I go down the {int} stairs"]).
  assert (Hm : exists m, getGherkinMatch h "When I go u" "" = Some m
                         /\ group 4 m = "I go " +:+ "u" /\ group 2 m = "When").
  { eexists. split; [by vm_compute|]. by vm_compute. }
  destruct Hm as (m & Hm & H4 & H2).
  rewrite (getCompletion_tests_typed_words (fun _ _ => "") h "When I go u" 0 "" m
             "I go " "u" Hm H4).
  - rewrite H2. by vm_compute.
  - right. exists (chr " "). by vm_compute.
  - unfold no_space. vm_compute. by repeat constructor.
Defined.

(** ** The anchors of a pattern text *)

Lemma caret_start_re :
  literal "^\^" = Make "^\^" false (NSeq NBol (NSeq (NChar (chr "^")) NEmpty)) 0.
Proof. reflexivity. Qed.

Lemma dollar_end_re :
  literal "\$$" = Make "\$$" false (NSeq (NChar (chr "$")) (NSeq NEol NEmpty)) 0.
Proof. reflexivity. Qed.

Lemma anchors_re :
  literal "^\^|\$$"
  = Make "^\^|\$$" false
      (NAlt (NSeq NBol (NSeq (NChar (chr "^")) NEmpty))
            (NSeq (NChar (chr "$")) (NSeq NEol NEmpty))) 0.
Proof. reflexivity. Qed.

(** The caret at the start. *)
Lemma caret_here (t : list ascii) :
  matcher false (NSeq NBol (NSeq (NChar (chr "^")) NEmpty)) Some
          (MState 0 None (chr "^" :: t) [None])
  = Some (MState 1 (Some (chr "^")) t [None]).
Proof. reflexivity. Qed.

Lemma caret_miss (pos : nat) (prev : option ascii) (l : list ascii) :
  pos <> 0 \/ head l <> Some (chr "^") ->
  matcher false (NSeq NBol (NSeq (NChar (chr "^")) NEmpty)) Some (MState pos prev l [None])
  = None.
Proof.
  intros H. cbn [matcher ms_pos ms_rest].
  destruct pos as [|pos]; [|done]. cbn [Nat.eqb].
  destruct H as [H|H]; [done|].
  destruct l as [|c l]; [done|]. rewrite chr_eqb_false.
  destruct (Ascii.eqb_spec (chr "^") c) as [<-|Hne]; [by simpl in H|done].
Qed.

(** The dollar at the end. *)
Lemma dollar_here (pos : nat) (prev : option ascii) :
  matcher false (NSeq (NChar (chr "$")) (NSeq NEol NEmpty)) Some
          (MState pos prev [chr "$"] [None])
  = Some (MState (S pos) (Some (chr "$")) [] [None]).
Proof. reflexivity. Qed.

Lemma dollar_miss (pos : nat) (prev : option ascii) (l : list ascii) :
  l <> [chr "$"] ->
  matcher false (NSeq (NChar (chr "$")) (NSeq NEol NEmpty)) Some (MState pos prev l [None])
  = None.
Proof.
  intros H. cbn [matcher ms_rest].
  destruct l as [|c l]; [done|]. rewrite chr_eqb_false.
  destruct (Ascii.eqb_spec (chr "$") c) as [<-|Hne]; [|done].
  destruct l; [done|]. reflexivity.
Qed.

Lemma drop_is_dollar (l : list ascii) (i : nat) :
  drop i l = [chr "$"] -> S i = length l /\ last l = Some (chr "$").
Proof.
  intros Hd. assert (Hlen : length (drop i l) = 1) by by rewrite Hd.
  rewrite length_drop in Hlen. split; [lia|].
  rewrite <- (take_drop i l), Hd. apply last_snoc.
Qed.

Lemma without_start_caret_chars (s : string) :
  Str.chars (without_start_caret s)
  = match Str.chars s with
    | c :: t => if isc c "^" then t else c :: t
    | [] => []
    end.
Proof. destruct s as [|c t]; [done|]. simpl. by destruct (isc c "^"). Qed.

Lemma replace_caret_start (s : string) :
  Str.replace false (literal "^\^") "" s = without_start_caret s.
Proof.
  destruct s as [|c t]; simpl without_start_caret.
  - apply replace_no_match. apply exec_from_nowhere. intros i prev' _.
    unfold match_here. rewrite caret_start_re. cbn [tree ignoreCase ngroups replicate].
    rewrite caret_miss; [done|]. right. by destruct i.
  - unfold isc. destruct (Ascii.eqb_spec c (chr "^")) as [->|Hne].
    + rewrite <- (str_chars (String (chr "^") t)).
      change (Str.chars (String (chr "^") t)) with ([] ++ [chr "^"] ++ Str.chars t).
      rewrite (replace_first_match _ "" [] [chr "^"] (Str.chars t) []).
      * simpl. apply str_chars.
      * by intros ?%elem_of_nil.
      * unfold exec. change list_ascii_of_string with Str.chars. rewrite chars_str.
        apply exec_from_hit. unfold match_here. rewrite caret_start_re.
        cbn [tree ignoreCase ngroups replicate app]. by rewrite caret_here.
    + apply replace_no_match. apply exec_from_nowhere. intros i prev' _.
      unfold match_here. rewrite caret_start_re. cbn [tree ignoreCase ngroups replicate].
      rewrite caret_miss; [done|].
      destruct i as [|i]; [right|left; lia].
      change (Some c <> Some (chr "^")). congruence.
Qed.

Lemma exec_dollar_end (u : list ascii) (pos : nat) (prev : option ascii) :
  exec_from (literal "\$$") pos prev (u ++ [chr "$"])
  = Some (MResult (pos + length u) (pos + length u + 1) "$" []).
Proof.
  rewrite exec_from_skip.
  - apply exec_from_hit. unfold match_here. rewrite dollar_end_re.
    cbn [tree ignoreCase ngroups replicate]. rewrite dollar_here.
    cbn [ms_pos ms_caps drop fmap list_fmap]. f_equal. f_equal; [lia|].
    by rewrite Nat.sub_succ_l, Nat.sub_diag by lia.
  - intros i prev' Hi. unfold match_here. rewrite dollar_end_re.
    cbn [tree ignoreCase ngroups replicate]. rewrite dollar_miss; [done|].
    intros Heq. assert (Hlen : length (drop i u ++ [chr "$"]) = 1) by by rewrite Heq.
    rewrite length_app, length_drop in Hlen. simpl in Hlen. lia.
Qed.

Lemma exec_dollar_none (l : list ascii) (pos : nat) (prev : option ascii) :
  last l <> Some (chr "$") -> exec_from (literal "\$$") pos prev l = None.
Proof.
  intros Hlast. apply exec_from_nowhere. intros i prev' _.
  unfold match_here. rewrite dollar_end_re. cbn [tree ignoreCase ngroups replicate].
  rewrite dollar_miss; [done|]. intros Hd. by apply drop_is_dollar in Hd as [_ Hd].
Qed.

Lemma replace_dollar_end (s : string) :
  Str.replace false (literal "\$$") "" s = without_end_dollar s.
Proof.
  unfold without_end_dollar.
  destruct (last (Str.chars s)) as [c|] eqn:Hlast.
  - unfold isc. destruct (Ascii.eqb_spec c (chr "$")) as [->|Hne].
    + apply last_Some in Hlast as [u Hu]. rewrite Hu, removelast_last.
      rewrite <- (str_chars s), Hu.
      rewrite <- (app_nil_r [chr "$"]) at 1.
      rewrite (replace_first_match _ "" u [chr "$"] [] []).
      * simpl. by rewrite app_nil_r.
      * by intros ?%elem_of_nil.
      * unfold exec. change list_ascii_of_string with Str.chars.
        rewrite chars_str, app_nil_r, exec_dollar_end. simpl. by rewrite Nat.add_1_r.
    + apply replace_no_match. apply exec_dollar_none. rewrite Hlast. congruence.
  - apply replace_no_match. apply exec_dollar_none. by rewrite Hlast.
Qed.

(** X15. [getTextForStepWithCucumberExpressions] takes nothing but the
    anchors off a text without backslashes: the caret it starts with, if
    any, and then the dollar it ends with, if any. *)
Theorem getTextForStepWithCucumberExpressions_anchors (step : string) :
  chr "\" ∉ Str.chars step ->
  getTextForStepWithCucumberExpressions step = without_end_dollar (without_start_caret step).
Proof.
  intros Hstep. unfold getTextForStepWithCucumberExpressions. cbv zeta.
  rewrite !(replace_needs (chr "\") true _ _ step) by (done || by vm_compute).
  by rewrite replace_caret_start, replace_dollar_end.
Qed.

Lemma getTextForStepWithCucumberExpressions_anchors_witness :
  getTextForStepWithCucumberExpressions "^I have {int} (big) cats$" = "I have {int} (big) cats".
Proof.
  apply (getTextForStepWithCucumberExpressions_anchors "^I have {int} (big) cats$").
  vm_compute. intros H. repeat (apply elem_of_cons in H as [H|H]; [discriminate|]).
  by apply elem_of_nil in H.
Defined.

(** The caret at the start or the dollar at the end, the pattern of
    [getTextForStep] with the [g] flag. *)
Lemma anchors_miss (pos : nat) (prev : option ascii) (l : list ascii) :
  pos <> 0 \/ head l <> Some (chr "^") -> l <> [chr "$"] ->
  match_here (literal "^\^|\$$") pos prev l = None.
Proof.
  intros Hc Hd. unfold match_here. rewrite anchors_re.
  cbn [tree ignoreCase ngroups replicate]. change (matcher false (NAlt ?a ?b) ?k ?x)
    with (match matcher false a k x with Some z => Some z | None => matcher false b k x end).
  by rewrite caret_miss, dollar_miss.
Qed.

Lemma anchors_caret (t : list ascii) :
  match_here (literal "^\^|\$$") 0 None (chr "^" :: t) = Some (MResult 0 1 "^" []).
Proof. reflexivity. Qed.

Lemma anchors_dollar (pos : nat) (prev : option ascii) :
  match_here (literal "^\^|\$$") pos prev [chr "$"]
  = Some (MResult pos (S pos) "$" []).
Proof.
  unfold match_here. rewrite anchors_re.
  cbn [tree ignoreCase ngroups replicate]. change (matcher false (NAlt ?a ?b) ?k ?x)
    with (match matcher false a k x with Some z => Some z | None => matcher false b k x end).
  rewrite caret_miss by (by right). rewrite dollar_here.
  cbn [ms_pos ms_caps drop fmap list_fmap]. by rewrite Nat.sub_succ_l, Nat.sub_diag by lia.
Qed.

Lemma exec_anchors_dollar (u : list ascii) (pos : nat) (prev : option ascii) :
  pos <> 0 \/ head (u ++ [chr "$"]) <> Some (chr "^") ->
  exec_from (literal "^\^|\$$") pos prev (u ++ [chr "$"])
  = Some (MResult (pos + length u) (S (pos + length u)) "$" []).
Proof.
  intros Hstart. rewrite exec_from_skip.
  - apply exec_from_hit. apply anchors_dollar.
  - intros i prev' Hi. apply anchors_miss.
    + destruct i as [|i]; [by rewrite Nat.add_0_r|left; lia].
    + intros Heq. assert (Hlen : length (drop i u ++ [chr "$"]) = 1) by by rewrite Heq.
      rewrite length_app, length_drop in Hlen. simpl in Hlen. lia.
Qed.

Lemma exec_anchors_none (l : list ascii) (pos : nat) (prev : option ascii) :
  pos <> 0 \/ head l <> Some (chr "^") -> last l <> Some (chr "$") ->
  exec_from (literal "^\^|\$$") pos prev l = None.
Proof.
  intros Hstart Hlast. apply exec_from_nowhere. intros i prev' _. apply anchors_miss.
  - destruct i as [|i]; [by rewrite Nat.add_0_r|left; lia].
  - intros Hd. by apply drop_is_dollar in Hd as [_ Hd].
Qed.

Lemma exec_all_unfold (fuel : nat) (re : RegExp.t) (s : string) (p : nat) :
  Str.exec_all (S fuel) re s p
  = match Str.exec_at re s p with
    | Some r =>
      r :: Str.exec_all fuel re s (if m_end r =? m_index r then S (m_end r) else m_end r)
    | None => []
    end.
Proof. reflexivity. Qed.

Lemma exec_at_from (re : RegExp.t) (s : string) (a b : list ascii) (c : ascii) :
  Str.chars s = a ++ c :: b ->
  Str.exec_at re s (S (length a)) = exec_from re (S (length a)) (Some c) b.
Proof.
  intros Hs. unfold Str.exec_at. rewrite Hs.
  rewrite (proj2 (Nat.leb_le _ _)) by (rewrite length_app; simpl; lia).
  rewrite lookup_app_r by lia. rewrite Nat.sub_diag. cbn [lookup list_lookup].
  replace (S (length a)) with (length (a ++ [c])) at 2 by (rewrite length_app; simpl; lia).
  by rewrite (cons_middle c a b), app_assoc, drop_app_length.
Qed.

Lemma replace_anchors (s : string) :
  Str.replace true (literal "^\^|\$$") "" s = without_end_dollar (without_start_caret s).
Proof.
  unfold Str.replace, Str.matches.
  destruct s as [|c t].
  - reflexivity.
  - replace (String.length (String c t) + 2) with (S (S (S (String.length t))))
      by (simpl; lia).
    cbn [without_start_caret].
    unfold isc. destruct (Ascii.eqb_spec c (chr "^")) as [->|Hne].
    + (* the caret is taken, then the dollar at the end of the rest *)
      assert (Hl : Str.chars (String (chr "^") t) = chr "^" :: Str.chars t) by reflexivity.
      rewrite exec_all_unfold. unfold Str.exec_at at 1.
      cbn [Nat.leb]. change (drop 0 ?l) with l. rewrite !Hl.
      rewrite (exec_from_hit _ _ _ _ _ (anchors_caret (Str.chars t))).
      cbn [m_end m_index Nat.eqb]. rewrite exec_all_unfold.
      rewrite (exec_at_from _ _ [] (Str.chars t) (chr "^")) by done. cbn [length].
      unfold without_end_dollar.
      destruct (last (Str.chars t)) as [d|] eqn:Hlast.
      * unfold isc. destruct (Ascii.eqb_spec d (chr "$")) as [->|Hd].
        -- apply last_Some in Hlast as [u Hu]. rewrite Hu, removelast_last.
           rewrite exec_anchors_dollar by (left; lia).
           cbn [m_end m_index]. rewrite (proj2 (Nat.eqb_neq _ _)) by lia.
           destruct (String.length t) as [|n] eqn:Hn.
           { rewrite <- length_chars, Hu, length_app in Hn. simpl in Hn. lia. }
           rewrite exec_all_unfold.
           rewrite (exec_at_from _ _ (chr "^" :: u) [] (chr "$")).
           2:{ change (Str.chars (String (chr "^") t)) with (chr "^" :: Str.chars t).
               by rewrite Hu. }
           rewrite exec_anchors_none; [|left; simpl; lia|by simpl].
           cbn [Str.splice m_index m_end].
           rewrite !substitution_empty.
           cbn [Nat.sub Nat.add take drop app length].
           rewrite Nat.sub_0_r. change (drop 0 ?l) with l. rewrite take_app_length.
           replace (S (length u)) with (length (u ++ [chr "$"]))
             by (rewrite length_app; simpl; lia).
           by rewrite drop_all, !app_nil_r.
        -- rewrite exec_anchors_none; [|left; lia|rewrite Hlast; congruence].
           cbn [Str.splice m_index m_end]. rewrite substitution_empty.
           cbn [Nat.sub take drop app]. apply str_chars.
      * rewrite exec_anchors_none; [|left; lia|by rewrite Hlast].
        cbn [Str.splice m_index m_end]. rewrite substitution_empty.
        cbn [Nat.sub take drop app]. apply str_chars.
    + (* no caret: the dollar at the end *)
      rewrite exec_all_unfold. unfold Str.exec_at at 1.
      cbn [Nat.leb]. change (drop 0 ?l) with l.
      unfold without_end_dollar.
      assert (Hhead : head (Str.chars (String c t)) <> Some (chr "^")).
      { change (Some c <> Some (chr "^")). congruence. }
      destruct (last (Str.chars (String c t))) as [d|] eqn:Hlast.
      * unfold isc. destruct (Ascii.eqb_spec d (chr "$")) as [->|Hd].
        -- apply last_Some in Hlast as [u Hu]. rewrite Hu, removelast_last.
           rewrite Hu in Hhead.
           rewrite exec_anchors_dollar by (by right).
           cbn [m_end m_index Nat.add]. rewrite (proj2 (Nat.eqb_neq _ _)) by lia.
           rewrite exec_all_unfold.
           rewrite (exec_at_from _ _ u [] (chr "$")) by done.
           rewrite exec_anchors_none; [|left; lia|by simpl].
           cbn [Str.splice m_index m_end]. rewrite substitution_empty.
           rewrite Nat.sub_0_r. change (drop 0 ?l) with l. rewrite take_app_length.
           replace (S (length u)) with (length (u ++ [chr "$"]))
             by (rewrite length_app; simpl; lia).
           by rewrite drop_all, !app_nil_r.
        -- rewrite exec_anchors_none; [|by right|rewrite Hlast; congruence].
           cbn [Str.splice]. change (drop 0 ?l) with l. apply str_chars.
      * rewrite exec_anchors_none; [|by right|by rewrite Hlast].
        cbn [Str.splice]. change (drop 0 ?l) with l. apply str_chars.
Qed.

(** ** Splitting on a text that does not occur *)

Lemma strip_prefix_head (c0 c : ascii) (sep s : list ascii) :
  c <> c0 -> strip_prefix false (c0 :: sep) (c :: s) = None.
Proof.
  intros Hne. cbn [strip_prefix]. rewrite chr_eqb_false.
  by destruct (Ascii.eqb_spec c0 c) as [->|_].
Qed.

Lemma split_chars_absent (c0 : ascii) (sep s : list ascii) :
  c0 ∉ s ->
  forall cur fuel, length s < fuel ->
    Str.split_chars fuel (c0 :: sep) cur s = [rev cur ++ s].
Proof.
  induction s as [|c s IH]; intros Hs cur fuel Hfuel.
  - destruct fuel; [simpl in Hfuel; lia|]. simpl. by rewrite app_nil_r.
  - destruct fuel; [simpl in Hfuel; lia|]. cbn [Str.split_chars].
    rewrite strip_prefix_head by (intros ->; apply Hs; by left).
    rewrite IH; [|by intros Hin; apply Hs; right|simpl in Hfuel; lia].
    simpl. by rewrite <- app_assoc.
Qed.

Lemma split_str_absent (c0 : ascii) (sep s : string) :
  c0 ∉ Str.chars s -> Str.split_str (String c0 sep) s = [s].
Proof.
  intros Hs. unfold Str.split_str.
  change (Str.chars (String c0 sep)) with (c0 :: Str.chars sep).
  rewrite split_chars_absent; [|done|rewrite length_chars; lia].
  simpl. by rewrite str_chars.
Qed.

(** ** The display text of a pattern text *)

Lemma without_anchors_chars (step : string) (c : ascii) :
  c ∉ Str.chars step -> c ∉ Str.chars (without_end_dollar (without_start_caret step)).
Proof.
  intros Hc.
  assert (Hcaret : c ∉ Str.chars (without_start_caret step)).
  { destruct step as [|a t]; [done|]. simpl. destruct (isc a "^"); [|done].
    intros Hin. apply Hc. by right. }
  unfold without_end_dollar.
  destruct (last (Str.chars (without_start_caret step))) as [d|] eqn:Hlast; [|done].
  destruct (isc d "$"); [|done].
  apply last_Some in Hlast as [u Hu]. rewrite Hu, removelast_last, chars_str.
  rewrite Hu in Hcaret. intros Hin. apply Hcaret. apply elem_of_app. by left.
Qed.

(** X16. On a pattern text that has none of the characters with which the
    sub-patterns of the placeholders begin (a backslash, an opening
    parenthesis, a double quote, an opening bracket, a minus sign),
    [getTextForStep] takes off the caret at the start and the dollar at the
    end, if any, and nothing else. *)
Theorem getTextForStep_takes_anchors_off (step : string) :
  (forall c, c ∈ [chr "\"; chr "("; chr dquote; chr "["; chr "-"] -> c ∉ Str.chars step) ->
  getTextForStep step = without_end_dollar (without_start_caret step).
Proof.
  intros Hfree. unfold getTextForStep. cbv zeta.
  rewrite (replace_needs (chr "\") true _ _ step);
    [|by vm_compute|by vm_compute|apply Hfree; set_solver].
  rewrite replace_anchors.
  set (shown := without_end_dollar (without_start_caret step)).
  assert (Hshown : forall c, c ∈ [chr "\"; chr "("; chr dquote; chr "["; chr "-"] ->
                             c ∉ Str.chars shown).
  { intros c Hc. apply without_anchors_chars. by apply Hfree. }
  change ("(" +:+ dquote +:+ "|')[^1]*1") with (String (chr "(") (dquote +:+ "|')[^1]*1")).
  rewrite split_str_absent by (apply Hshown; set_solver). cbn [Str.join].
  rewrite (replace_needs (chr dquote) true _ _ shown);
    [|by vm_compute|by vm_compute|apply Hshown; set_solver].
  rewrite (replace_needs (chr "[") true _ _ shown);
    [|by vm_compute|by vm_compute|apply Hshown; set_solver].
  rewrite (replace_needs (chr "-") true _ _ shown);
    [|by vm_compute|by vm_compute|apply Hshown; set_solver].
  rewrite (replace_needs (chr "-") true _ _ shown);
    [|by vm_compute|by vm_compute|apply Hshown; set_solver].
  done.
Qed.

Lemma getTextForStep_takes_anchors_off_witness :
  getTextForStep "^I see {int} things$" = "I see {int} things".
Proof.
  apply (getTextForStep_takes_anchors_off "^I see {int} things$").
  intros c Hc. vm_compute. intros H.
  repeat (apply elem_of_cons in Hc as [->|Hc];
          [repeat (apply elem_of_cons in H as [H|H]; [discriminate|]);
           by apply elem_of_nil in H|]).
  by apply elem_of_nil in Hc.
Defined.

(** ** The report on the configuration *)

Section Configuration.

Variable glob_sync : string -> list string.
Variable getTextRange : string -> string -> Range.

Lemma validateConfiguration_from (settingsFile workSpaceRoot : string) (paths : list string) :
  forall res,
    fold_left (fun res path =>
                 if length (glob_sync path) =? 0
                 then res ++ [no_files_diagnostic getTextRange settingsFile workSpaceRoot path]
                 else res)
              paths res
    = res ++ (no_files_diagnostic getTextRange settingsFile workSpaceRoot
                <$> filter (fun path => glob_sync path = []) paths).
Proof.
  induction paths as [|p paths IH]; intros res; simpl.
  - by rewrite app_nil_r.
  - rewrite IH, filter_cons. destruct (glob_sync p) as [|f fs] eqn:Hp; simpl.
    + by rewrite <- app_assoc.
    + done.
Qed.

(** X17. [validateConfiguration] reports the paths of the steps setting
    for which no file is found, one warning for each, in the order of the
    setting, and no other: the report is empty exactly when every path has
    a file. *)
Theorem validateConfiguration_reports_paths_without_files (settingsFile : string)
    (stepsPathes : list string) (workSpaceRoot : string) :
  validateConfiguration glob_sync getTextRange settingsFile stepsPathes workSpaceRoot
  = no_files_diagnostic getTextRange settingsFile workSpaceRoot
      <$> filter (fun path => glob_sync path = []) stepsPathes
  /\ (validateConfiguration glob_sync getTextRange settingsFile stepsPathes workSpaceRoot = []
      <-> forall path, path ∈ stepsPathes -> glob_sync path <> [])
  /\ Forall (fun d => severity d = Warning /\ message d = "No steps files found")
            (validateConfiguration glob_sync getTextRange settingsFile stepsPathes
                                   workSpaceRoot).
Proof.
  assert (Heq : validateConfiguration glob_sync getTextRange settingsFile stepsPathes
                                      workSpaceRoot
                = no_files_diagnostic getTextRange settingsFile workSpaceRoot
                    <$> filter (fun path => glob_sync path = []) stepsPathes).
  { unfold validateConfiguration. by rewrite validateConfiguration_from. }
  split_and!; [done| |].
  - rewrite Heq. split.
    + intros Hnil path Hin Hempty. apply fmap_nil_inv in Hnil.
      by apply (filter_nil_not_elem_of _ _ path Hnil).
    + intros Hall.
      destruct (filter (fun path => glob_sync path = []) stepsPathes) as [|p ps] eqn:Hf;
        [done|].
      assert (Hp : p ∈ filter (fun path => glob_sync path = []) stepsPathes)
        by (rewrite Hf; by left).
      apply list_elem_of_filter in Hp as [Hempty Hin]. by destruct (Hall p Hin).
  - rewrite Heq. apply Forall_fmap, Forall_forall. by intros path _.
Qed.

End Configuration.

(** ** The comments of a step file *)

Lemma fold_left_invariant {A B} (P : B -> Prop) (f : B -> A -> B) (l : list A) :
  (forall acc x, x ∈ l -> P acc -> P (f acc x)) ->
  forall acc, P acc -> P (fold_left f l acc).
Proof.
  induction l as [|x l IH]; intros Hf acc Hacc; simpl; [done|].
  apply IH.
  - intros acc' y Hy. apply Hf. by right.
  - apply Hf; [by left|done].
Qed.

(** X18. [getMultiLineComments] files a comment under the number of the
    line after the one that closes it: every entry of its result has a key
    [i + 1] such that line [i] of the content begins, after white space,
    with the closing mark and not with the opening mark, and the entry ends
    with that line and a line feed. *)
Theorem getMultiLineComments_keys (content : string) (k : nat) (comment : string) :
  getMultiLineComments content !! k = Some comment ->
  exists i line before,
    k = i + 1
    /\ split_lines content !! i = Some line
    /\ is_Some (Str.search (literal "^\s*\*\/") line)
    /\ Str.search (literal "^\s*\/\*") line = None
    /\ comment = before +:+ line +:+ newline.
Proof.
  unfold getMultiLineComments, reduce.
  set (good := fun (k : nat) (comment : string) =>
         exists i line before,
           k = i + 1
           /\ split_lines content !! i = Some line
           /\ is_Some (Str.search (literal "^\s*\*\/") line)
           /\ Str.search (literal "^\s*\/\*") line = None
           /\ comment = before +:+ line +:+ newline).
  revert k comment.
  apply (fold_left_invariant
           (fun st => forall k c, comments st !! k = Some c -> good k c)).
  - intros st [i line] Hin Hst k c. simpl.
    apply elem_of_lookup_imap in Hin as (i' & line' & [= <- <-] & Hline).
    case_bool_decide as Hopen; [apply Hst|].
    case_bool_decide as Hclose; [|destruct (commentMode st); apply Hst].
    simpl. destruct (decide (k = i + 1)) as [->|Hne].
    + rewrite lookup_insert_eq. intros [= <-].
      exists i, line, (current st). split_and!; try done.
      by apply eq_None_not_Some.
    + rewrite lookup_insert_ne by done. apply Hst.
  - intros k c. simpl. by rewrite lookup_empty.
Qed.

Lemma getMultiLineComments_keys_witness :
  exists i line before,
    2 = i + 1
    /\ split_lines ("/** a step" +:+ newline +:+ " */" +:+ newline +:+ "Given('x', f)") !! i
       = Some line
    /\ is_Some (Str.search (literal "^\s*\*\/") line)
    /\ Str.search (literal "^\s*\/\*") line = None
    /\ "/** a step" +:+ newline +:+ " */" +:+ newline = before +:+ line +:+ newline.
Proof.
  apply (getMultiLineComments_keys
           ("/** a step" +:+ newline +:+ " */" +:+ newline +:+ "Given('x', f)") 2
           ("/** a step" +:+ newline +:+ " */" +:+ newline)).
  by vm_compute.
Defined.

(** ** The duplicate implementation: templates that are regular expressions *)

Lemma isValidRegexPattern_compiles (pattern : string) :
  JsonSource.isValidRegexPattern pattern = true <-> is_Some (RegExp.create false pattern).
Proof.
  unfold JsonSource.isValidRegexPattern, new_RegExp.
  destruct (create false pattern) as [re|]; simpl.
  - split; [by eexists|done].
  - split; [done|by intros [? ?]].
Qed.

(** X19. Whatever [processRegExpPattern] of the duplicate reports as the
    pattern of a step, a call of the constructor, a literal between slashes,
    a quoted or an anchored text, [new RegExp] accepts it.  When the pattern
    is not empty it is, as it stands, the pattern text that
    [getRegTextForStep] of the duplicate gives for the step: it is not
    passed to [escapeRegExp], and [getSteps] does not filter the step
    out. *)
Theorem processRegExpPattern_compiles (escapeRegExp : string -> string)
    (step pattern : string) :
  JsonSource.processRegExpPattern step = Some pattern ->
  is_Some (RegExp.create false pattern)
  /\ (pattern <> "" ->
      JsonSource.getRegTextForStep escapeRegExp step = pattern
      /\ exists re, new_RegExp (JsonSource.getRegTextForStep escapeRegExp step) = Returns re).
Proof.
  intros Hp.
  assert (Hvalid : is_Some (RegExp.create false pattern)).
  { revert Hp. unfold JsonSource.processRegExpPattern.
    destruct (JsonSource.constructed step) as [p1|] eqn:H1.
    - intros [= <-]. unfold JsonSource.constructed in H1.
      destruct (JsonSource.isRegExpConstructor step) as [q|]; [|done].
      destruct (truthy (Some q)); [|done].
      destruct (JsonSource.isValidRegexPattern _) eqn:Hv; [|done].
      injection H1 as <-. by apply isValidRegexPattern_compiles.
    - destruct (JsonSource.slashed step) as [p2|] eqn:H2.
      + intros [= <-]. unfold JsonSource.slashed in H2.
        destruct (_ && _); [|done].
        destruct (JsonSource.isValidRegexPattern _) eqn:Hv; [|done].
        injection H2 as <-. by apply isValidRegexPattern_compiles.
      + unfold JsonSource.quoted_or_anchored.
        destruct (_ || _); [|done]. cbv zeta.
        destruct (includes _ "${").
        * destruct (JsonSource.isValidRegexPattern _) eqn:Hv; [|done].
          intros [= <-]. by apply isValidRegexPattern_compiles.
        * destruct (includes _ "\").
          -- destruct (JsonSource.isValidRegexPattern _) eqn:Hv; [|done].
             intros [= <-]. by apply isValidRegexPattern_compiles.
          -- destruct (startsWith _ "^"); [|done].
             destruct (JsonSource.isValidRegexPattern _) eqn:Hv; [|done].
             intros [= <-]. by apply isValidRegexPattern_compiles. }
  split; [done|]. intros Hne.
  assert (Hreg : JsonSource.getRegTextForStep escapeRegExp step = pattern).
  { unfold JsonSource.getRegTextForStep. rewrite Hp. by destruct pattern. }
  split; [done|]. rewrite Hreg. unfold new_RegExp.
  destruct Hvalid as [re ->]. by eexists.
Qed.

Lemma processRegExpPattern_compiles_witness :
  is_Some (RegExp.create false "^I (see|hear) it$")
  /\ ("^I (see|hear) it$" <> "" ->
      JsonSource.getRegTextForStep escapeRegExp_model "/^I (see|hear) it$/i"
      = "^I (see|hear) it$"
      /\ exists re,
           new_RegExp (JsonSource.getRegTextForStep escapeRegExp_model "/^I (see|hear) it$/i")
           = Returns re).
Proof.
  apply (processRegExpPattern_compiles escapeRegExp_model "/^I (see|hear) it$/i"
           "^I (see|hear) it$").
  by vm_compute.
Defined.

Lemma startsWith_head (s : string) (c : ascii) :
  startsWith s (String c EmptyString) = true <-> head (Str.chars s) = Some c.
Proof.
  unfold startsWith. rewrite bool_decide_eq_true.
  change (Str.chars (String c "")) with [c].
  destruct (Str.chars s) as [|a t]; simpl.
  - split; [by intros [? ?]|done].
  - rewrite chr_eqb_false. destruct (Ascii.eqb_spec c a) as [->|Hne].
    + split; [done|by eexists].
    + split; [by intros [? ?]|congruence].
Qed.

Lemma startsWith_other (s : string) (c d : ascii) :
  head (Str.chars s) = Some c -> c <> d -> startsWith s (String d EmptyString) = false.
Proof.
  intros Hs Hne. apply not_true_iff_false. rewrite startsWith_head. congruence.
Qed.

(** X20. In the duplicate a template that begins with a caret and is a
    regular expression as it stands is its own pattern text, when it has no
    parenthesis, no backslash and no template variable: it goes through none
    of the steps of the canonical [getRegTextForStep], so the placeholders
    it may hold are not compiled and [escapeRegExp] is not applied. *)
Theorem anchored_template_is_its_own_pattern (escapeRegExp : string -> string)
    (step : string) :
  head (Str.chars step) = Some (chr "^") ->
  chr "(" ∉ Str.chars step -> chr "\" ∉ Str.chars step ->
  includes step "${" = false ->
  is_Some (RegExp.create false step) ->
  JsonSource.processRegExpPattern step = Some step
  /\ JsonSource.getRegTextForStep escapeRegExp step = step.
Proof.
  intros Hhead Hparen Hback Hvar Hvalid.
  assert (Hp : JsonSource.processRegExpPattern step = Some step).
  { unfold JsonSource.processRegExpPattern.
    assert (H1 : JsonSource.constructed step = None).
    { unfold JsonSource.constructed, JsonSource.isRegExpConstructor, exec.
      rewrite (exec_from_needs (chr "(")); [done|by vm_compute|by vm_compute|done]. }
    assert (H2 : JsonSource.slashed step = None).
    { unfold JsonSource.slashed.
      pose proof (startsWith_other step (chr "^") (chr "/") Hhead) as Hslash.
      change (String (chr "/") "") with "/" in Hslash. by rewrite Hslash. }
    rewrite H1, H2. unfold JsonSource.quoted_or_anchored.
    assert (Hcaret : startsWith step "^" = true) by by apply startsWith_head.
    rewrite Hcaret, orb_true_r, Hvar.
    assert (Hno : includes step "\" = false).
    { assert (Hgen : forall l p, is_Some (Str.index_from [chr "\"] p l) -> chr "\" ∈ l).
      { induction l as [|c l IH]; intros p; cbn [Str.index_from strip_prefix].
        - by intros [? ?].
        - rewrite chr_eqb_false. destruct (Ascii.eqb_spec (chr "\") c) as [<-|Hne].
          + intros _. by left.
          + intros Hi. right. by apply (IH (S p)). }
      unfold includes. apply bool_decide_eq_false. intros Hi.
      apply Hback. by apply (Hgen _ 0). }
    rewrite Hno, Hcaret.
    by rewrite (proj2 (isValidRegexPattern_compiles step) Hvalid). }
  split; [done|].
  unfold JsonSource.getRegTextForStep. rewrite Hp.
  destruct step; [done|done].
Qed.

Lemma anchored_template_is_its_own_pattern_witness :
  JsonSource.processRegExpPattern "^I have {int} cats$" = Some "^I have {int} cats$"
  /\ JsonSource.getRegTextForStep escapeRegExp_model "^I have {int} cats$"
     = "^I have {int} cats$".
Proof.
  apply (anchored_template_is_its_own_pattern escapeRegExp_model "^I have {int} cats$").
  - reflexivity.
  - vm_compute. intros H. repeat (apply elem_of_cons in H as [H|H]; [discriminate|]).
    by apply elem_of_nil in H.
  - vm_compute. intros H. repeat (apply elem_of_cons in H as [H|H]; [discriminate|]).
    by apply elem_of_nil in H.
  - by vm_compute.
  - vm_compute. by eexists.
Defined.

(** ** Splitting and joining on one character *)

Section Separator.

Variable d : ascii.

Lemma split_chars_at (b t : list ascii) :
  d ∉ b ->
  forall cur fuel, length b < fuel ->
    Str.split_chars fuel [d] cur (b ++ d :: t)
    = (rev cur ++ b) :: Str.split_chars (fuel - S (length b)) [d] [] t.
Proof.
  induction b as [|c b IH]; intros Hb cur fuel Hfuel.
  - destruct fuel; [lia|]. cbn [app Str.split_chars strip_prefix].
    rewrite chr_eqb_false, Ascii.eqb_refl. cbn [length]. rewrite app_nil_r.
    by replace (S fuel - 1) with fuel by lia.
  - destruct fuel; [simpl in Hfuel; lia|]. cbn [app Str.split_chars strip_prefix].
    rewrite chr_eqb_false. destruct (Ascii.eqb_spec d c) as [<-|Hne].
    + exfalso. apply Hb. by left.
    + rewrite IH; [|by intros Hin; apply Hb; right|simpl in Hfuel; lia].
      cbn [rev length]. rewrite <- app_assoc. done.
Qed.

Lemma split_join_at (bs : list string) :
  bs <> [] -> Forall (fun b => d ∉ Str.chars b) bs ->
  forall fuel, String.length (Str.join (String d "") bs) < fuel ->
    Str.split_chars fuel [d] [] (Str.chars (Str.join (String d "") bs)) = Str.chars <$> bs.
Proof.
  induction bs as [|b bs IH]; intros Hne Hbs fuel Hfuel; [done|].
  inversion Hbs as [|? ? Hb Hbs']; subst.
  destruct bs as [|b' bs].
  - simpl. simpl in Hfuel. rewrite (split_chars_absent d []); [done|done|].
    by rewrite length_chars.
  - rewrite join_cons in * by discriminate. rewrite !chars_app.
    change (Str.chars (String d "")) with [d]. cbn [app].
    rewrite <- length_chars, !chars_app, !length_app in Hfuel.
    change (length (Str.chars (String d ""))) with 1 in Hfuel.
    rewrite split_chars_at; [|done|lia].
    cbn [rev app fmap list_fmap]. f_equal. apply IH; [discriminate|done|].
    rewrite <- length_chars. lia.
Qed.

Lemma split_str_join_at (bs : list string) :
  bs <> [] -> Forall (fun b => d ∉ Str.chars b) bs ->
  Str.split_str (String d "") (Str.join (String d "") bs) = bs.
Proof.
  intros Hne Hbs. unfold Str.split_str.
  change (Str.chars (String d "")) with [d].
  rewrite split_join_at by (done || lia).
  rewrite <- list_fmap_compose. rewrite <- (list_fmap_id bs) at 2.
  apply list_fmap_ext. intros i b _. apply str_chars.
Qed.

End Separator.

(** ** Words *)

Lemma word_char_plain (c : ascii) : word_char c = true -> plain_char c = true.
Proof. unfold word_char, plain_char. intros ->. done. Qed.

Lemma word_char_not_space (c : ascii) : word_char c = true -> Chr.is_space c = false.
Proof.
  unfold word_char, Chr.is_alpha, Chr.is_lower, Chr.is_upper, Chr.is_digit, Chr.is_space,
    Chr.between.
  generalize (Chr.code c). intros n Hn.
  repeat match goal with
         | |- context [?a <=? ?b] => destruct (Nat.leb_spec a b)
         | H : context [?a <=? ?b] |- _ => destruct (Nat.leb_spec a b)
         | |- context [?a =? ?b] => destruct (Nat.eqb_spec a b)
         end; simpl in *; try done; lia.
Qed.

Lemma word_char_is (c : ascii) (lit : string) :
  word_char c = true -> word_char (chr lit) = false -> isc c lit = false.
Proof.
  intros Hc Hlit. unfold isc. destruct (Ascii.eqb_spec c (chr lit)) as [->|]; congruence.
Qed.

Lemma word_plain (w : string) : word w -> plain w.
Proof. intros [_ Hw]. eapply Forall_impl; [exact Hw|]. apply word_char_plain. Qed.

Lemma word_no_space (w : string) : word w -> chr " " ∉ Str.chars w.
Proof.
  intros [_ Hw] Hin. rewrite Forall_forall in Hw. by specialize (Hw _ Hin).
Qed.

Lemma words_plain (ws : list string) : Forall word ws -> plain (Str.join " " ws).
Proof.
  induction 1 as [|w ws Hw Hws IH]; [constructor|].
  destruct ws as [|w' ws]; [by apply word_plain|].
  rewrite join_cons by done. apply plain_app. split; [by apply word_plain|].
  apply plain_app. split; [by repeat constructor|done].
Qed.

(** A text of words begins and ends with a character that is no white
    space. *)
Lemma words_trimmed (ws : list string) :
  ws <> [] -> Forall word ws ->
  exists a l b,
    Str.chars (Str.join " " ws) = a :: l
    /\ Chr.is_space a = false
    /\ last (a :: l) = Some b /\ Chr.is_space b = false.
Proof.
  intros Hne Hws. induction Hws as [|w ws Hw Hws IH]; [done|].
  assert (Hfirst : exists a l, Str.chars w = a :: l /\ Chr.is_space a = false).
  { destruct Hw as [Hw Hall]. destruct w as [|a l]; [done|].
    exists a, (Str.chars l). split; [done|].
    inversion Hall; subst. by apply word_char_not_space. }
  destruct Hfirst as (a & l & Hwl & Ha).
  destruct ws as [|w' ws].
  - exists a, l. simpl. rewrite Hwl.
    destruct (last (a :: l)) as [b|] eqn:Hlast; [|by apply last_None in Hlast].
    exists b. split_and!; try done.
    destruct Hw as [_ Hall]. rewrite Hwl, Forall_forall in Hall.
    apply word_char_not_space, Hall. apply last_Some in Hlast as [l' ->]. set_solver.
  - destruct (IH ltac:(done)) as (a' & l' & b & Hjoin & _ & Hlast & Hb).
    rewrite join_cons by done. rewrite !chars_app, Hwl, Hjoin.
    exists a, (l ++ Str.chars " " ++ a' :: l'), b. split_and!; try done.
    rewrite app_comm_cons, app_assoc. by rewrite last_app, Hlast.
Qed.

(** ** [trim] *)

Lemma trim_unfold (s : string) :
  trim s = Str.str (rev (drop_space (rev (drop_space (Str.chars s))))).
Proof. reflexivity. Qed.

Lemma drop_space_run (ws l : list ascii) :
  Forall (fun c => Chr.is_space c = true) ws -> drop_space (ws ++ l) = drop_space l.
Proof. induction 1 as [|c ws Hc _ IH]; [done|]. simpl. by rewrite Hc. Qed.

Lemma drop_space_stop (a : ascii) (l : list ascii) :
  Chr.is_space a = false -> drop_space (a :: l) = a :: l.
Proof. intros Ha. simpl. by rewrite Ha. Qed.

Lemma trim_core (a b : ascii) (l ws : list ascii) :
  Chr.is_space a = false -> last (a :: l) = Some b -> Chr.is_space b = false ->
  Forall (fun c => Chr.is_space c = true) ws ->
  trim (Str.str ((a :: l) ++ ws)) = Str.str (a :: l).
Proof.
  intros Ha Hlast Hb Hws. rewrite trim_unfold, chars_str.
  cbn [app]. rewrite drop_space_stop by done.
  change (a :: l ++ ws) with ((a :: l) ++ ws). rewrite rev_app_distr.
  rewrite drop_space_run by by apply Forall_rev.
  apply last_Some in Hlast as [l' Hl']. rewrite Hl', rev_app_distr. cbn [rev app].
  rewrite drop_space_stop by done.
  rewrite <- rev_unit. by rewrite rev_involutive.
Qed.

(** ** The text a completion inserts: a step of words *)

Lemma is_expression_word_word (w : string) : word w -> is_expression_word w = false.
Proof.
  intros [Hne Hw]. unfold is_expression_word.
  destruct w as [|a l]; [done|].
  assert (Hstart : startsWith (String a l) "{" = false).
  { apply (startsWith_other _ a); [done|]. inversion Hw; subst.
    intros ->. done. }
  by rewrite Hstart.
Qed.

Lemma count_matching_typed (ws : list string) (k : nat) :
  Forall word ws -> k <= length ws ->
  forall fuel i cnt, i <= k -> k - i <= fuel ->
    count_matching_words fuel i ws (take k ws) cnt = cnt + (k - i).
Proof.
  intros Hws Hk. induction fuel as [|fuel IH]; intros i cnt Hi Hfuel.
  - simpl. lia.
  - cbn [count_matching_words]. rewrite length_take, (Nat.min_l k) by lia.
    rewrite (Nat.min_r _ k) by lia.
    destruct (Nat.ltb_spec i k) as [Hlt|Hge]; [|lia].
    destruct (lookup_lt_is_Some_2 ws i ltac:(lia)) as [w Hw].
    rewrite lookup_take_lt by done. rewrite Hw. cbn [default].
    rewrite is_expression_word_word by (rewrite Forall_forall in Hws; apply Hws;
                                         by eapply list_elem_of_lookup_2).
    rewrite String.eqb_refl. rewrite IH by lia. lia.
Qed.

Lemma toLowerCase_not_empty (w : string) : w <> "" -> toLowerCase w <> "".
Proof.
  intros Hw Hl. pose proof (toLowerCase_length w) as Hlen. rewrite Hl in Hlen.
  destruct w; [done|discriminate].
Qed.

Lemma words_drop (ws : list string) (k : nat) : Forall word ws -> Forall word (drop k ws).
Proof. apply Forall_drop. Qed.

(** X21. Without [pureTextSteps], for a step made of words (letters and
    digits) with single spaces between them: when the first [k] words have
    been typed, each with a space after it, the text to insert is the rest
    of the words; and when nothing has been typed it is the step without
    its first word, which is left out although it is not on the line. *)
Theorem getCompletionInsertText_words (s : Settings) (ws : list string) (k : nat) :
  pureTextSteps s = false -> Forall word ws -> ws <> [] -> k <= length ws ->
  getCompletionInsertText s (Str.join " " ws) (typed_words k ws)
  = Str.join " " (drop (max k 1) ws).
Proof.
  intros Hpure Hws Hne Hk. unfold getCompletionInsertText. rewrite Hpure. cbv zeta.
  change " " with (String (chr " ") "").
  rewrite (split_str_join_at (chr " ") ws Hne)
    by (eapply Forall_impl; [exact Hws|]; apply word_no_space).
  assert (Hcount : count_matching_words
                     (min (length ws)
                          (length (Str.split_str (String (chr " ") "")
                                                 (trim (typed_words k ws)))))
                     0 ws
                     (Str.split_str (String (chr " ") "") (trim (typed_words k ws))) 0
                   = max k 1).
  { destruct k as [|k].
    - (* nothing typed *)
      change (Str.split_str (String (chr " ") "") (trim (typed_words 0 ws))) with [""].
      destruct ws as [|w ws']; [done|].
      replace (min (length (w :: ws')) (length [""])) with 1 by (simpl; lia).
      cbn [count_matching_words]. replace (min (length (w :: ws')) (length [""])) with 1
        by (simpl; lia).
      cbn [Nat.ltb Nat.leb lookup list_lookup default length Nat.sub Nat.eqb andb].
      inversion Hws as [|? ? Hw _]; subst.
      change (Datatypes.id ?x) with x.
      rewrite is_expression_word_word by done.
      destruct (String.eqb_spec (toLowerCase w) (toLowerCase "")) as [Heq|_].
      + exfalso. by apply (toLowerCase_not_empty w (proj1 Hw)).
      + reflexivity.
    - (* the first words typed *)
      assert (Hfirst : take (S k) ws <> []).
      { destruct ws; [done|]. done. }
      assert (Htaken : Forall word (take (S k) ws)) by by apply Forall_take.
      destruct (words_trimmed _ Hfirst Htaken) as (a & l & b & Hj & Ha & Hlast & Hb).
      assert (Htrim : trim (typed_words (S k) ws) = Str.join (String (chr " ") "") (take (S k) ws)).
      { unfold typed_words. rewrite <- (str_chars (_ +:+ " ")), chars_app, Hj.
        rewrite (trim_core a b l (Str.chars " ")); try done.
        - by rewrite <- Hj, str_chars.
        - by repeat constructor. }
      rewrite Htrim.
      rewrite (split_str_join_at (chr " ") _ Hfirst)
        by (eapply Forall_impl; [exact Htaken|]; apply word_no_space).
      rewrite length_take, (Nat.min_l (S k)) by lia. rewrite (Nat.min_r _ (S k)) by lia.
      rewrite (count_matching_typed ws (S k)) by (done || lia). lia. }
  rewrite Hcount.
  set (res := Str.join (String (chr " ") "") (drop (max k 1) ws)).
  assert (Hres : plain res) by (apply words_plain; by apply Forall_drop).
  destruct (smartSnippets s).
  - unfold Str.match_g.
    rewrite (matches_needs (chr "{") true _ res);
      [|by vm_compute|by vm_compute|by apply plain_absent].
    rewrite (matches_needs (chr ".") true _ res);
      [|by vm_compute|by vm_compute|by apply plain_absent].
    done.
  - rewrite (replace_needs (chr dquote) true _ _ res);
      [|by vm_compute|by vm_compute|by apply plain_absent].
    rewrite (replace_needs (chr ".") true _ _ res);
      [|by vm_compute|by vm_compute|by apply plain_absent].
    done.
Qed.

Lemma getCompletionInsertText_words_witness :
  getCompletionInsertText sample_settings "I go up" "I go " = "up"
  /\ getCompletionInsertText sample_settings "I go up" "" = "go up".
Proof.
  assert (Hws : Forall word ["I"; "go"; "up"]).
  { repeat constructor; try discriminate. }
  split.
  - apply (getCompletionInsertText_words sample_settings ["I"; "go"; "up"] 2);
      [done|exact Hws|done|simpl; lia].
  - apply (getCompletionInsertText_words sample_settings ["I"; "go"; "up"] 0);
      [done|exact Hws|done|simpl; lia].
Defined.

(** ** The tokens of a step of words *)

Lemma parts_word (w : list ascii) :
  Forall (fun c => word_char c = true) w ->
  forall st, bracesMode st = false ->
    fold_left parts_step w st
    = {| currString := currString st +:+ Str.str w; bracesMode := false;
         openingBracesNum := openingBracesNum st; closingBracesNum := closingBracesNum st;
         res := res st |}.
Proof.
  induction 1 as [|c w Hc _ IH]; intros st Hst; cbn [fold_left].
  - simpl. rewrite append_empty_r. destruct st. simpl in *. by subst.
  - rewrite IH.
    + unfold parts_step. rewrite Hst.
      rewrite (word_char_is c " "), (word_char_is c "(") by done. simpl.
      by rewrite append_assoc.
    + unfold parts_step. rewrite Hst.
      by rewrite (word_char_is c " "), (word_char_is c "(") by done.
Qed.

Lemma parts_words (ws : list string) :
  Forall word ws -> ws <> [] ->
  forall done_ cur,
    let st := fold_left parts_step (Str.chars (Str.join " " ws))
                {| currString := cur; bracesMode := false; openingBracesNum := 0;
                   closingBracesNum := 0; res := done_ |} in
    res st ++ [currString st]
    = match ws with
      | w :: ws' => done_ ++ (cur +:+ w) :: ws'
      | [] => done_ ++ [cur]
      end.
Proof.
  induction 1 as [|w ws Hw Hws IH]; intros Hne done_ cur; [done|].
  destruct ws as [|w' ws].
  - simpl Str.join. rewrite (parts_word (Str.chars w)) by (done || apply Hw).
    simpl. by rewrite str_chars.
  - rewrite join_cons by done. rewrite !chars_app, !fold_left_app.
    rewrite (parts_word (Str.chars w)) by (done || apply Hw). rewrite str_chars.
    change (Str.chars " ") with [chr " "]. cbn [fold_left].
    assert (Hspace : parts_step
                       {| currString := cur +:+ w; bracesMode := false; openingBracesNum := 0;
                          closingBracesNum := 0; res := done_ |} (chr " ")
                     = {| currString := ""; bracesMode := false; openingBracesNum := 0;
                          closingBracesNum := 0; res := done_ ++ [cur +:+ w] |})
      by reflexivity.
    cbn [currString bracesMode openingBracesNum closingBracesNum res]. rewrite Hspace.
    pose proof (IH ltac:(done) (done_ ++ [cur +:+ w]) "") as IH'.
    cbv zeta in IH'. rewrite IH'. by rewrite <- app_assoc.
Qed.

Lemma split_parts_words (ws : list string) :
  Forall word ws -> ws <> [] -> split_parts (Str.join " " ws) = ws.
Proof.
  intros Hws Hne. unfold split_parts. cbv zeta.
  rewrite (parts_words ws Hws Hne [] ""). by destruct ws.
Qed.

(** ** Reading a pattern of groups *)

Lemma read_quantifier_none (r : list ascii) :
  r = [] \/ (exists c r', r = c :: r' /\ (plain_char c = true \/ isc c "(" = true
                                        \/ isc c "|" = true)) ->
  read_quantifier r = POk (None, r).
Proof.
  intros [->|(c & r' & -> & Hc)]; [done|].
  unfold read_quantifier.
  destruct Hc as [Hc|[Hc|Hc]].
  - by rewrite !(isc_plain c) by done.
  - apply Ascii.eqb_eq in Hc. by subst c.
  - apply Ascii.eqb_eq in Hc. by subst c.
Qed.

Lemma read_term_char (fuel total gi : nat) (c : ascii) (r : list ascii) :
  plain_char c = true -> read_quantifier r = POk (None, r) ->
  read_term (S fuel) total gi (c :: r) = POk (NChar c, gi, r).
Proof.
  intros Hc Hr. cbn [read_term].
  rewrite !(isc_plain c) by done. cbn [orb].
  by rewrite Hr.
Qed.

(** A literal text up to a bar. *)
Lemma read_alternative_to_bar (total : nat) (l rest : list ascii) :
  Forall (fun c => plain_char c = true) l ->
  forall fuel gi, length l < fuel ->
    read_alternative fuel total gi (l ++ chr "|" :: rest)
    = POk (literal_tree l, gi, chr "|" :: rest).
Proof.
  induction 1 as [|c l Hc Hl IH]; intros fuel gi Hfuel.
  - destruct fuel; [lia|]. done.
  - destruct fuel as [|[|fuel]]; simpl in Hfuel; [lia..|].
    cbn [app]. rewrite read_alternative_cons. rewrite !(isc_plain c) by done. cbn [orb].
    rewrite read_term_char; [|done|].
    2:{ apply read_quantifier_none. right.
        destruct l as [|c' l]; [exists (chr "|"), rest|exists c', (l ++ chr "|" :: rest)].
        - split; [done|]. by right; right.
        - split; [done|]. left. by inversion Hl. }
    cbn [mbind presult_bind pbind].
    rewrite IH by lia. done.
Qed.

Lemma read_disjunction_unfold (fuel total gi : nat) (s : list ascii) :
  read_disjunction (S fuel) total gi s
  = '(a, gi1, r1) ← read_alternative fuel total gi s;
    match r1 with
    | c :: r2 =>
      if isc c "|" then
        '(b, gi2, r3) ← read_disjunction fuel total gi1 r2;
        POk (NAlt a b, gi2, r3)
      else POk (a, gi1, r1)
    | [] => POk (a, gi1, r1)
    end.
Proof. reflexivity. Qed.

Lemma read_disjunction_end (fuel total gi : nat) (rest : list ascii) :
  read_disjunction (S (S (S fuel))) total gi (chr "$" :: chr ")" :: rest)
  = POk (NSeq NEol NEmpty, gi, chr ")" :: rest).
Proof. reflexivity. Qed.

Lemma read_term_group (fuel total gi : nat) (c : ascii) (r : list ascii) :
  isc c "?" = false ->
  read_term (S fuel) total gi (chr "(" :: c :: r)
  = '(d, gi2, r1) ← read_disjunction fuel total (S gi) (c :: r);
    match r1 with
    | c' :: r2 =>
      if isc c' ")"
      then '(q, r') ← read_quantifier r2; POk (quantified (NGroup (S gi) d) q, gi2, r')
      else PSyntaxError
    | [] => PSyntaxError
    end.
Proof. intros Hc. cbn [read_term]. by rewrite Hc. Qed.

(** One group [(l|$)]. *)
Lemma read_term_or_end (total gi : nat) (l rest : list ascii) (fuel : nat) :
  Forall (fun c => plain_char c = true) l -> l <> [] ->
  read_quantifier rest = POk (None, rest) ->
  length l + 5 < fuel ->
  read_term fuel total gi (chr "(" :: l ++ chr "|" :: chr "$" :: chr ")" :: rest)
  = POk (NGroup (S gi) (NAlt (literal_tree l) (NSeq NEol NEmpty)), S gi, rest).
Proof.
  intros Hl Hne Hrest Hfuel.
  destruct l as [|c l]; [done|].
  inversion Hl as [|? ? Hc Hl']; subst.
  destruct fuel as [|fuel]; [lia|]. cbn [app].
  rewrite read_term_group by by apply isc_plain.
  destruct fuel as [|fuel]; [simpl in Hfuel; lia|].
  rewrite read_disjunction_unfold.
  change (c :: l ++ chr "|" :: chr "$" :: chr ")" :: rest)
    with ((c :: l) ++ chr "|" :: chr "$" :: chr ")" :: rest).
  rewrite read_alternative_to_bar by (done || simpl in *; lia).
  cbn [mbind presult_bind pbind]. change (isc (chr "|") "|") with true. cbv iota.
  do 3 (destruct fuel as [|fuel]; [simpl in Hfuel; lia|]).
  rewrite read_disjunction_end.
  cbn [mbind presult_bind pbind]. change (isc (chr ")") ")") with true. cbv iota.
  by rewrite Hrest.
Qed.

Lemma or_end_text_cons (l : list ascii) (ls : list (list ascii)) :
  or_end_text (l :: ls)
  = chr "(" :: l ++ chr "|" :: chr "$" :: chr ")" :: or_end_text ls.
Proof. unfold or_end_text. rewrite bind_cons. cbn [app]. by rewrite <- app_assoc. Qed.

Lemma or_end_text_quantifier (ls : list (list ascii)) :
  read_quantifier (or_end_text ls) = POk (None, or_end_text ls).
Proof.
  apply read_quantifier_none. destruct ls as [|l ls]; [by left|right].
  rewrite or_end_text_cons. eexists _, _. split; [done|]. right. by left.
Qed.

(** A sequence of groups [(l|$)]. *)
Lemma read_alternative_or_end (total : nat) (ls : list (list ascii)) :
  Forall (fun l => Forall (fun c => plain_char c = true) l /\ l <> []) ls ->
  forall fuel gi, length (or_end_text ls) + 6 < fuel ->
    read_alternative fuel total gi (or_end_text ls)
    = POk (or_end_groups ls gi, gi + length ls, []).
Proof.
  induction 1 as [|l ls [Hl Hne] Hls IH]; intros fuel gi Hfuel.
  - destruct fuel; [lia|]. simpl. by rewrite Nat.add_0_r.
  - destruct fuel as [|fuel]; [lia|].
    rewrite or_end_text_cons in *. rewrite read_alternative_cons.
    change (isc (chr "(") "|" || isc (chr "(") ")") with false. cbv iota.
    cbn [length] in Hfuel. rewrite length_app in Hfuel. cbn [length] in Hfuel.
    rewrite read_term_or_end; [|done|done|apply or_end_text_quantifier|lia].
    cbn [mbind presult_bind pbind]. rewrite IH by lia.
    cbn [or_end_groups length]. by rewrite Nat.add_succ_r.
Qed.

Lemma parse_or_end (ls : list (list ascii)) :
  Forall (fun l => Forall (fun c => plain_char c = true) l /\ l <> []) ls ->
  parse (chr "^" :: or_end_text ls) = POk (NSeq NBol (or_end_groups ls 0), length ls).
Proof.
  intros Hls. unfold parse.
  replace (3 * length (chr "^" :: or_end_text ls) + 3)
    with (S (S (S (3 * length (or_end_text ls) + 3)))) by (simpl; lia).
  rewrite read_disjunction_unfold, read_alternative_cons.
  change (isc (chr "^") "|" || isc (chr "^") ")") with false. cbv iota.
  change (read_term (S ?f) ?t ?g (chr "^" :: ?r)) with (POk (NBol, g, r)).
  cbn [mbind presult_bind pbind].
  destruct ls as [|l ls].
  - reflexivity.
  - rewrite read_alternative_or_end; [done|done|].
    rewrite or_end_text_cons. cbn [length]. rewrite length_app. cbn [length]. lia.
Qed.

(** ** Matching a pattern of groups *)

Lemma matcher_literal_run (l : list ascii) :
  forall (t : list ascii) (k : cont) (x : mstate),
    ms_rest x = l ++ t -> matcher false (literal_tree l) k x = k (after_run x l).
Proof.
  induction l as [|c l IH]; intros t k x Hx; [done|].
  cbn [literal_tree]. rewrite matcher_seq.
  rewrite (matcher_char_hit c (l ++ t)) by done.
  rewrite (IH t) by done. by rewrite (after_run_cons x c l (l ++ t)).
Qed.

Lemma or_end_matches (ls : list (list ascii)) :
  forall (j gi : nat) (tail : list ascii) (k : cont) (x : mstate),
    j <= length ls -> j = length ls \/ tail = [] ->
    ms_rest x = concat (take j ls) ++ tail ->
    (forall y, is_Some (k y)) ->
    is_Some (matcher false (or_end_groups ls gi) k x).
Proof.
  induction ls as [|l ls IH]; intros j gi tail k x Hj Htail Hx Hk; [apply Hk|].
  cbn [or_end_groups]. rewrite matcher_seq, matcher_group.
  change (matcher false (NAlt ?a ?b) ?k ?x)
    with (match matcher false a k x with Some z => Some z | None => matcher false b k x end).
  destruct j as [|j].
  - destruct Htail as [Hlen | ->]; [done|]. simpl in Hx.
    destruct (matcher false (literal_tree l) _ x) as [z|]; [by eexists|].
    cbn [matcher]. rewrite Hx.
    apply (IH 0 (S gi) []); [lia|by right|done|done].
  - cbn [take concat] in Hx. rewrite <- app_assoc in Hx.
    rewrite (matcher_literal_run l (concat (take j ls) ++ tail)) by done.
    assert (Hgo : is_Some (matcher false (or_end_groups ls (S gi)) k
                     (set_cap (after_run x l) (S gi)
                        (Some (take (ms_pos (after_run x l) - ms_pos x) (ms_rest x)))))).
    { apply (IH j (S gi) tail).
      - simpl in Hj. lia.
      - destruct Htail as [Hlen|Htail]; [left; simpl in Hlen; lia|by right].
      - cbn [set_cap ms_rest]. by apply after_run_rest.
      - done. }
    destruct Hgo as [z ->]. by eexists.
Qed.

Lemma test_or_end (re : RegExp.t) (ls : list (list ascii)) (j : nat) (tail : list ascii) :
  tree re = NSeq NBol (or_end_groups ls 0) -> ignoreCase re = false ->
  j <= length ls -> j = length ls \/ tail = [] ->
  test re (Str.str (concat (take j ls) ++ tail)) = true.
Proof.
  intros Htree Hcase Hj Htail. unfold test, exec. apply bool_decide_eq_true.
  change list_ascii_of_string with Str.chars. rewrite chars_str.
  assert (Hm : is_Some (match_here re 0 None (concat (take j ls) ++ tail))).
  { unfold match_here. rewrite Htree, Hcase, matcher_seq. cbn [matcher ms_pos Nat.eqb].
    destruct (or_end_matches ls j 0 tail Some
                (MState 0 None (concat (take j ls) ++ tail)
                        (replicate (S (ngroups re)) None)) Hj Htail eq_refl)
      as [z ->]; by eexists. }
  destruct Hm as [m Hm]. rewrite (exec_from_hit _ _ _ _ _ Hm). by eexists.
Qed.

(** ** The partial pattern of a step of words *)

Lemma words_and_spaces_cons (w w' : string) (ws : list string) :
  words_and_spaces (w :: w' :: ws) = Str.chars w :: [chr " "] :: words_and_spaces (w' :: ws).
Proof. reflexivity. Qed.

Lemma words_and_spaces_length (ws : list string) :
  ws <> [] -> length (words_and_spaces ws) = 2 * length ws - 1.
Proof.
  induction ws as [|w ws IH]; intros Hne; [done|].
  destruct ws as [|w' ws]; [done|].
  rewrite words_and_spaces_cons. cbn [length]. rewrite IH by done. simpl. lia.
Qed.

Lemma words_and_spaces_plain (ws : list string) :
  Forall word ws ->
  Forall (fun l => Forall (fun c => plain_char c = true) l /\ l <> [])
         (words_and_spaces ws).
Proof.
  induction 1 as [|w ws Hw Hws IH]; [constructor|].
  assert (Hfirst : Forall (fun c => plain_char c = true) (Str.chars w) /\ Str.chars w <> []).
  { split; [by apply word_plain|]. destruct Hw as [Hne _]. by destruct w. }
  destruct ws as [|w' ws]; [by constructor|].
  rewrite words_and_spaces_cons. constructor; [done|]. constructor; [|done].
  split; [by repeat constructor|done].
Qed.

Lemma partial_text_words (ws : list string) :
  ws <> [] ->
  Str.chars (Str.join "( |$)" ((fun el => "(" +:+ el +:+ "|$)") <$> ws))
  = or_end_text (words_and_spaces ws).
Proof.
  induction ws as [|w ws IH]; intros Hne; [done|].
  destruct ws as [|w' ws].
  - simpl. rewrite !chars_app. unfold or_end_text. simpl. by rewrite app_nil_r.
  - rewrite fmap_cons, join_cons by done. rewrite words_and_spaces_cons.
    rewrite !or_end_text_cons, !chars_app, IH by done.
    change (Str.chars "(") with [chr "("]. change (Str.chars "|$)") with [chr "|"; chr "$"; chr ")"].
    change (Str.chars "( |$)") with (chr "(" :: [chr " "] ++ [chr "|"; chr "$"; chr ")"]).
    by list_assoc.
Qed.

Lemma typed_take (ws : list string) :
  forall k, 1 <= k <= length ws ->
    Str.chars (Str.join " " (take k ws)) = concat (take (2 * k - 1) (words_and_spaces ws)).
Proof.
  induction ws as [|w ws IH]; intros k Hk; [simpl in Hk; lia|].
  destruct k as [|[|k]]; [lia| |].
  - destruct ws; simpl; by rewrite app_nil_r.
  - destruct ws as [|w' ws]; [simpl in Hk; lia|].
    rewrite words_and_spaces_cons.
    replace (2 * S (S k) - 1) with (S (S (2 * S k - 1))) by lia.
    cbn [take concat]. rewrite <- IH by (simpl in Hk |- *; lia).
    change (take (S k) (w' :: ws)) with (w' :: take k ws).
    rewrite join_cons by done. rewrite !chars_app. done.
Qed.

Lemma typed_take_space (ws : list string) :
  forall k, 1 <= k < length ws ->
    Str.chars (Str.join " " (take k ws)) ++ [chr " "]
    = concat (take (2 * k) (words_and_spaces ws)).
Proof.
  induction ws as [|w ws IH]; intros k Hk; [simpl in Hk; lia|].
  destruct k as [|[|k]]; [lia| |].
  - destruct ws as [|w' ws]; [simpl in Hk; lia|]. simpl. by rewrite ?app_nil_r.
  - destruct ws as [|w' ws]; [simpl in Hk; lia|].
    rewrite words_and_spaces_cons.
    replace (2 * S (S k)) with (S (S (2 * S k))) by lia.
    cbn [take concat]. rewrite <- IH by (simpl in Hk |- *; lia).
    change (take (S k) (w' :: ws)) with (w' :: take k ws).
    rewrite join_cons by done. rewrite !chars_app. by list_assoc.
Qed.

Section PartialWords.

Variable escapeRegExp : string -> string.
Variable escaprRegExpForPureText : string -> string.

Hypothesis escapeRegExp_plain : forall str, plain str -> escapeRegExp str = str.

(** X22. For a step made of words (letters and digits) with single spaces
    between them, when [escapeRegExp] leaves such a text as it is: the
    partial pattern text of the step is a regular expression, and it
    matches what is on the line when any number of the first words have
    been typed, with or without a space after the last of them, and when
    nothing has been typed. *)
Theorem partial_pattern_matches_typed_words (s : Settings) (ws : list string) :
  pureTextSteps s = false -> Forall word ws -> ws <> [] ->
  exists re,
    new_RegExp (getPartialRegText escapeRegExp escaprRegExpForPureText s (Str.join " " ws))
    = Returns re
    /\ forall k, k <= length ws ->
         test re (typed_words k ws) = true /\ test re (Str.join " " (take k ws)) = true.
Proof.
  intros Hpure Hws Hne.
  assert (Hparts : getPartialRegParts escapeRegExp escaprRegExpForPureText s
                                      (Str.join " " ws) = ws).
  { unfold getPartialRegParts, getRegTextForStep. rewrite Hpure.
    rewrite regTextBeforeEscape_plain by by apply words_plain.
    rewrite escapeRegExp_plain by by apply words_plain.
    by apply split_parts_words. }
  rewrite partial_text_wrapped, Hparts.
  set (ls := words_and_spaces ws).
  assert (Hls : Forall (fun l => Forall (fun c => plain_char c = true) l /\ l <> []) ls)
    by by apply words_and_spaces_plain.
  assert (Hlen : length ls = 2 * length ws - 1) by by apply words_and_spaces_length.
  assert (Hn : 1 <= length ws) by (destruct ws; [done|simpl; lia]).
  unfold new_RegExp, create.
  change (list_ascii_of_string ?x) with (Str.chars x).
  rewrite chars_app, partial_text_words by done.
  change (Str.chars "^") with [chr "^"]. cbn [app]. fold ls.
  rewrite parse_or_end by done.
  eexists. split; [reflexivity|]. intros k Hk.
  assert (Hjoin : 1 <= k ->
            test {| source := "^" +:+ Str.join "( |$)" ((fun el => "(" +:+ el +:+ "|$)") <$> ws);
                    ignoreCase := false; tree := NSeq NBol (or_end_groups ls 0);
                    ngroups := length ls |} (Str.join " " (take k ws)) = true).
  { intros Hk1. rewrite <- (str_chars (Str.join " " (take k ws))).
    rewrite typed_take by lia. fold ls.
    rewrite <- (app_nil_r (concat _)). apply test_or_end; [done|done|lia|by right]. }
  destruct k as [|k].
  - split; apply (test_or_end _ ls 0 []); try done; lia || by right.
  - split; [|apply Hjoin; lia].
    unfold typed_words. rewrite <- (str_chars (_ +:+ " ")), chars_app.
    change (Str.chars " ") with [chr " "].
    destruct (decide (S k = length ws)) as [Hlast|Hmore].
    + rewrite typed_take by lia. fold ls.
      replace (2 * S k - 1) with (length ls) by lia.
      apply test_or_end; [done|done|lia|by left].
    + rewrite typed_take_space by lia. fold ls.
      rewrite <- (app_nil_r (concat _)). apply test_or_end; [done|done|lia|by right].
Qed.

End PartialWords.

Lemma partial_pattern_matches_typed_words_witness :
  exists re,
    new_RegExp (getPartialRegText escapeRegExp_model sample_pure_escape sample_settings
                                  (Str.join " " ["I"; "go"; "up"]))
    = Returns re
    /\ forall k, k <= length ["I"; "go"; "up"] ->
         test re (typed_words k ["I"; "go"; "up"]) = true
         /\ test re (Str.join " " (take k ["I"; "go"; "up"])) = true.
Proof.
  apply (partial_pattern_matches_typed_words escapeRegExp_model sample_pure_escape
           (fun str _ => eq_refl) sample_settings ["I"; "go"; "up"]).
  - reflexivity.
  - repeat constructor; discriminate.
  - discriminate.
Defined.

